(** * pdf2htmlEX: the text line buffer, src/HTMLRenderer/TextLineBuffer.cc

    A shallow embedding of [HTMLRenderer::TextLineBuffer] and of its nested
    [State]: the accumulator ([append_unicodes], [append_offset],
    [append_state]), the word-space inference ([optimize]), the greedy render
    pass ([flush]) and the state model ([hash], [diff], [begin], [end]).

    - [double] is the kernel's binary64 float; every comparison of the source
      is the corresponding boolean test.
    - [long long] and [int] are [Z]; the masks stay inside 56 bits, so the
      bit operations of [Z] agree with the machine's.
    - [size_t] indices are [nat].
    - The output stream is the list of the chunks written to it, one
      constructor per [out << ...] group of the source. *)

From Stdlib Require Import ZArith Bool List Lia PrimFloat.
From stdpp Require Import base option list sorting.
Import ListNotations.

Open Scope Z_scope.

(** ** Scalars *)

Definition double := float.
Definition Unicode := Z.

(** The space character, [' '], as a code point. *)
Definition SPACE : Unicode := 32.

(** [std::max<double>(a, b)]: [(a < b) ? b : a]. *)
Definition fmax (a b : double) : double := if PrimFloat.ltb a b then b else a.

(** ** Font metrics

    The fields of [FontInfo] this file reads ([id], [ascent], [descent],
    [space_width]); the struct itself is declared in HTMLRenderer.h. *)
Record FontInfo := mkFontInfo {
  fi_id : Z;
  ascent : double;
  descent : double;
  space_width : double
}.

(** ** The state model *)

(** [State::ID_COUNT] and the channel enumeration, in the order of
    [css_class_names]. *)
Definition ID_COUNT : nat := 7.
Definition FONT_ID : nat := 0.
Definition FONT_SIZE_ID : nat := 1.
Definition FILL_COLOR_ID : nat := 2.
Definition STROKE_COLOR_ID : nat := 3.
Definition LETTER_SPACE_ID : nat := 4.
Definition WORD_SPACE_ID : nat := 5.
Definition RISE_ID : nat := 6.

(** [long long ids[ID_COUNT]]: a fixed array of seven cells. *)
Record Ids := mkIds { id0 : Z; id1 : Z; id2 : Z; id3 : Z; id4 : Z; id5 : Z; id6 : Z }.

Definition ids_get (a : Ids) (i : nat) : Z :=
  match i with
  | 0%nat => id0 a | 1%nat => id1 a | 2%nat => id2 a | 3%nat => id3 a
  | 4%nat => id4 a | 5%nat => id5 a | 6%nat => id6 a
  | _ => 0
  end.

Definition ids_set (a : Ids) (i : nat) (v : Z) : Ids :=
  match i with
  | 0%nat => mkIds v (id1 a) (id2 a) (id3 a) (id4 a) (id5 a) (id6 a)
  | 1%nat => mkIds (id0 a) v (id2 a) (id3 a) (id4 a) (id5 a) (id6 a)
  | 2%nat => mkIds (id0 a) (id1 a) v (id3 a) (id4 a) (id5 a) (id6 a)
  | 3%nat => mkIds (id0 a) (id1 a) (id2 a) v (id4 a) (id5 a) (id6 a)
  | 4%nat => mkIds (id0 a) (id1 a) (id2 a) (id3 a) v (id5 a) (id6 a)
  | 5%nat => mkIds (id0 a) (id1 a) (id2 a) (id3 a) (id4 a) v (id6 a)
  | 6%nat => mkIds (id0 a) (id1 a) (id2 a) (id3 a) (id4 a) (id5 a) v
  | _ => a
  end.

Record State := mkState {
  ids : Ids;
  hash_umask : Z;
  hash_value : Z;
  start_idx : nat;
  need_close : bool;
  font_info : FontInfo;
  draw_font_size : double;
  letter_space : double;
  word_space : double
}.

Definition with_ids (s : State) (v : Ids) : State :=
  mkState v (hash_umask s) (hash_value s) (start_idx s) (need_close s)
          (font_info s) (draw_font_size s) (letter_space s) (word_space s).
Definition with_hash_umask (s : State) (v : Z) : State :=
  mkState (ids s) v (hash_value s) (start_idx s) (need_close s)
          (font_info s) (draw_font_size s) (letter_space s) (word_space s).
Definition with_hash_value (s : State) (v : Z) : State :=
  mkState (ids s) (hash_umask s) v (start_idx s) (need_close s)
          (font_info s) (draw_font_size s) (letter_space s) (word_space s).
Definition with_start_idx (s : State) (v : nat) : State :=
  mkState (ids s) (hash_umask s) (hash_value s) v (need_close s)
          (font_info s) (draw_font_size s) (letter_space s) (word_space s).
Definition with_need_close (s : State) (v : bool) : State :=
  mkState (ids s) (hash_umask s) (hash_value s) (start_idx s) v
          (font_info s) (draw_font_size s) (letter_space s) (word_space s).
Definition with_font_info (s : State) (v : FontInfo) : State :=
  mkState (ids s) (hash_umask s) (hash_value s) (start_idx s) (need_close s)
          v (draw_font_size s) (letter_space s) (word_space s).
Definition with_draw_font_size (s : State) (v : double) : State :=
  mkState (ids s) (hash_umask s) (hash_value s) (start_idx s) (need_close s)
          (font_info s) v (letter_space s) (word_space s).
Definition with_letter_space (s : State) (v : double) : State :=
  mkState (ids s) (hash_umask s) (hash_value s) (start_idx s) (need_close s)
          (font_info s) (draw_font_size s) v (word_space s).
Definition with_word_space (s : State) (v : double) : State :=
  mkState (ids s) (hash_umask s) (hash_value s) (start_idx s) (need_close s)
          (font_info s) (draw_font_size s) (letter_space s) v.

(** [State::umask_by_id]: [((long long)0xff) << (8*id)]. *)
Definition umask_by_id (id : nat) : Z := Z.shiftl 255 (8 * Z.of_nat id).

(** [State::single_space_offset]. *)
Definition single_space_offset (s : State) : double :=
  (word_space s + letter_space s + space_width (font_info s) * draw_font_size s)%float.

(** [State::em_size]. *)
Definition em_size (s : State) : double :=
  (draw_font_size s * (ascent (font_info s) - descent (font_info s)))%float.

(** [State::hash]: the seven ids, one byte each, shifted in from the right. *)
Definition hash_step (h : Z) (id : Z) : Z := Z.lor (Z.shiftl h 8) (Z.land id 255).

Definition hash_of (a : Ids) : Z :=
  fold_left (fun h i => hash_step h (ids_get a i)) (seq 0 ID_COUNT) 0.

Definition hash (s : State) : State := with_hash_value s (hash_of (ids s)).

(** The per-channel loop of [State::diff]: [cur_mask] starts at [0xff] and is
    shifted by one byte per channel. *)
Fixpoint diff_loop (common_mask : Z) (a b : Ids) (i n : nat) (cur_mask : Z) (d : Z) : Z :=
  match n with
  | O => d
  | S n' =>
      let d' :=
        if negb (Z.land common_mask cur_mask =? 0) && negb (ids_get a i =? ids_get b i)
        then d + 1 else d in
      diff_loop common_mask a b (S i) n' (Z.shiftl cur_mask 8) d'
  end.

(** [State::diff]: [this] is [a], the argument is [b]. *)
Definition diff (a b : State) : Z :=
  let common_mask := Z.lnot (Z.lor (hash_umask a) (hash_umask b)) in
  if Z.land (hash_value a) common_mask =? Z.land (hash_value b) common_mask
  then 0
  else diff_loop common_mask (ids a) (ids b) 0 ID_COUNT 255 0.

(** ** The output stream *)

(** One constructor per group of writes of the source:
    - [LineOpen]: the opening div tag of the line, with the class names
      LINE_CN, TRANSFORM_MATRIX_CN tm_id, LEFT_CN lid, HEIGHT_CN hid and
      BOTTOM_CN bid;
    - [SpanBegin]: the start of an opening span tag, up to the first class;
    - [Sep]: the blank between two class names;
    - [ClassId i id]: css_class_names[i] followed by ids[i];
    - [ClassInvalid i]: css_class_names[i] followed by CSS::INVALID_ID;
    - [SpanBeginEnd]: the end of the opening span tag;
    - [SpanEnd]: the closing span tag;
    - [Gap wid space]: a whole whitespace span, opened with the classes
      WHITESPACE_CN and WHITESPACE_CN wid, holding one blank when [space]
      is set and nothing otherwise, and closed;
    - [Unicodes us]: outputUnicodes(out, us, length);
    - [LineEnd]: the closing div tag of the line. *)
Inductive chunk :=
| LineOpen (tm_id lid hid bid : Z)
| SpanBegin
| Sep
| ClassId (i : nat) (id : Z)
| ClassInvalid (i : nat)
| SpanBeginEnd
| SpanEnd
| Gap (wid : Z) (space : bool)
| Unicodes (us : list Unicode)
| LineEnd.

(** One iteration of the loop of [State::begin] over channel [i]. The
    accumulator is the state being begun, the flag [first] and the chunks
    written so far. *)
Definition inherit_value (i : nat) (s prev : State) : State :=
  match i with
  | 1%nat => with_draw_font_size s (draw_font_size prev)
  | 4%nat => with_letter_space s (letter_space prev)
  | 5%nat => with_word_space s (word_space prev)
  | _ => s
  end.

Definition is_set (umask cur_mask : Z) : bool := negb (Z.land umask cur_mask =? 0).

Definition begin_step (prev_state : option State) (i : nat) (cur_mask : Z)
    (acc : State * bool * list chunk) : State * bool * list chunk :=
  let '(s, first, out) := acc in
  if is_set (hash_umask s) cur_mask then
    (* we don't care about this ID *)
    match prev_state with
    | Some p =>
        if negb (is_set (hash_umask p) cur_mask) then
          let s1 := with_ids s (ids_set (ids s) i (ids_get (ids p) i)) in
          let s2 := with_hash_umask s1 (Z.land (hash_umask s1) (Z.lnot cur_mask)) in
          (inherit_value i s2 p, first, out)
        else (s, first, out)
    | None => (s, first, out)
    end
  else
    let same_as_prev :=
      match prev_state with
      | Some p => negb (is_set (hash_umask p) cur_mask) && (ids_get (ids p) i =? ids_get (ids s) i)
      | None => false
      end in
    if same_as_prev then (s, first, out)
    else
      let out1 := if first then out ++ [SpanBegin] else out ++ [Sep] in
      let out2 := if ids_get (ids s) i =? -1
                  then out1 ++ [ClassInvalid i]
                  else out1 ++ [ClassId i (ids_get (ids s) i)] in
      (s, false, out2).

Fixpoint begin_loop (prev_state : option State) (i n : nat) (cur_mask : Z)
    (acc : State * bool * list chunk) : State * bool * list chunk :=
  match n with
  | O => acc
  | S n' => begin_loop prev_state (S i) n' (Z.shiftl cur_mask 8)
                       (begin_step prev_state i cur_mask acc)
  end.

(** [State::begin(out, prev_state)]: the chunks written and the state as the
    call leaves it. A null [prev_state] is [None]. *)
Definition begin (s : State) (prev_state : option State) : list chunk * State :=
  let '(s', first, out) := begin_loop prev_state 0 ID_COUNT 255 (s, true, []) in
  if first then ([], with_need_close s' false)
  else (out ++ [SpanBeginEnd], with_need_close s' true).

(** [State::end(out)]. *)
Definition end_ (s : State) : list chunk :=
  if need_close s then [SpanEnd] else [].

(** ** The renderer, as far as the line buffer uses it *)

(** The value-to-id registries ([renderer->..._manager]) are declared outside
    this file. Their state is [M]; [get_id] and [get_actual_value] read the
    current value, [install m v] is [m.install(v, &actual)]: it returns the
    id, the value stored through the pointer and the registry afterwards. *)
Class StateManager (M : Type) := {
  get_id : M -> Z;
  get_actual_value : M -> double;
  install : M -> double -> Z * double * M
}.

(** util/math.h is outside this file: its [EPS], [equal] and [is_positive]
    are taken as they are used here. *)
Class MathUtil := {
  EPS : double;
  equal : double -> double -> bool;
  is_positive : double -> bool
}.

(** [renderer->param]: the two fields read here. *)
Record Param := mkParam {
  h_eps : double;
  space_threshold : double
}.

Record Renderer (M : Type) := mkRenderer {
  param : Param;
  cur_font_info : FontInfo;
  transform_matrix_manager : M;
  font_size_manager : M;
  fill_color_manager : M;
  stroke_color_manager : M;
  letter_space_manager : M;
  word_space_manager : M;
  rise_manager : M;
  whitespace_manager : M;
  height_manager : M;
  left_manager : M;
  bottom_manager : M
}.
Arguments mkRenderer {M}.
Arguments param {M}.
Arguments cur_font_info {M}.
Arguments transform_matrix_manager {M}.
Arguments font_size_manager {M}.
Arguments fill_color_manager {M}.
Arguments stroke_color_manager {M}.
Arguments letter_space_manager {M}.
Arguments word_space_manager {M}.
Arguments rise_manager {M}.
Arguments whitespace_manager {M}.
Arguments height_manager {M}.
Arguments left_manager {M}.
Arguments bottom_manager {M}.

Definition with_word_space_manager {M} (r : Renderer M) (m : M) : Renderer M :=
  mkRenderer (param r) (cur_font_info r) (transform_matrix_manager r)
    (font_size_manager r) (fill_color_manager r) (stroke_color_manager r)
    (letter_space_manager r) m (rise_manager r) (whitespace_manager r)
    (height_manager r) (left_manager r) (bottom_manager r).
Definition with_whitespace_manager {M} (r : Renderer M) (m : M) : Renderer M :=
  mkRenderer (param r) (cur_font_info r) (transform_matrix_manager r)
    (font_size_manager r) (fill_color_manager r) (stroke_color_manager r)
    (letter_space_manager r) (word_space_manager r) (rise_manager r) m
    (height_manager r) (left_manager r) (bottom_manager r).
Definition with_line_managers {M} (r : Renderer M) (h l b : M) : Renderer M :=
  mkRenderer (param r) (cur_font_info r) (transform_matrix_manager r)
    (font_size_manager r) (fill_color_manager r) (stroke_color_manager r)
    (letter_space_manager r) (word_space_manager r) (rise_manager r)
    (whitespace_manager r) h l b.

(** ** The line buffer *)

Record Offset := mkOffset {
  o_start_idx : nat;
  width : double
}.

(** The members of [TextLineBuffer]. Its [stack] is scratch space of [flush],
    cleared before use, and is a local of [flush] here. *)
Record TextLineBuffer := mkBuffer {
  x : double;
  y : double;
  tm_id : Z;
  text : list Unicode;
  offsets : list Offset;
  states : list State
}.

Definition empty_buffer : TextLineBuffer := mkBuffer 0%float 0%float 0 [] [] [].

(** A value-initialised [State], as [states.resize] creates it. *)
Definition State_default : State :=
  mkState (mkIds 0 0 0 0 0 0 0) 0 0 0 false (mkFontInfo 0 0%float 0%float 0%float)
          0%float 0%float 0%float.

(** [v.back() = f(v.back())] on a non-empty vector. *)
Fixpoint map_back {A} (f : A -> A) (l : list A) : list A :=
  match l with
  | [] => []
  | [a] => [f a]
  | a :: l' => a :: map_back f l'
  end.

(** The width map of [optimize]: a [std::map<double, int>], kept as the list
    of its entries in increasing key order. *)
Definition WidthMap := list (double * Z).

(** [lower_bound(v)]: the entries before the iterator and those from it on. *)
Fixpoint lower_bound (m : WidthMap) (v : double) : WidthMap * WidthMap :=
  match m with
  | [] => ([], [])
  | (k, c) :: m' =>
      if (k <? v)%float
      then let '(before, after) := lower_bound m' v in ((k, c) :: before, after)
      else ([], m)
  end.

(** [insert(hint, make_pair(key, v))]: the entry goes to its place in key
    order; nothing is inserted next to an equivalent key. *)
Fixpoint map_insert (m : WidthMap) (key : double) (v : Z) : WidthMap :=
  match m with
  | [] => [(key, v)]
  | (k, c) :: m' =>
      if (k <? key)%float then (k, c) :: map_insert m' key v
      else if (key <? k)%float then (key, v) :: m
      else m
  end.

(** The scan for the most used width: the first entry, in key order, whose
    count exceeds every count before it. *)
Definition most_used_step (acc : double * Z) (e : double * Z) : double * Z :=
  let '(most_used_width, max_count) := acc in
  if max_count <? snd e then (fst e, snd e) else acc.

Definition most_used (m : WidthMap) : double * Z :=
  fold_left most_used_step m (0%float, 0).

Definition has_space (us : list Unicode) : bool := existsb (Z.eqb SPACE) us.

(** The text between two indices: [text.begin() + i1] up to [text.begin() + i2]. *)
Definition slice (us : list Unicode) (i1 i2 : nat) : list Unicode :=
  take (i2 - i1) (drop i1 us).

(** The open-element stack, [std::vector<State*>]: the head of the list is
    [stack.back()]; a pointer into [states] is the index of the state,
    [nullptr] is [None]. *)
Abbreviation Stack := (list (option nat)).

Section Buffer.
Context {M : Type} {SM : StateManager M} {MU : MathUtil}.

(** [set_pos]: the transformed current point is computed by the graphics
    state, outside this file, and is passed in. *)
Definition set_pos (r : Renderer M) (b : TextLineBuffer) (tx ty : double) : TextLineBuffer :=
  mkBuffer tx ty (get_id (transform_matrix_manager r)) (text b) (offsets b) (states b).

Definition append_unicodes (b : TextLineBuffer) (u : list Unicode) : TextLineBuffer :=
  mkBuffer (x b) (y b) (tm_id b) (text b ++ u) (offsets b) (states b).

Definition append_offset (b : TextLineBuffer) (w : double) : TextLineBuffer :=
  let merged :=
    match last (offsets b) with
    | Some o => Nat.eqb (o_start_idx o) (length (text b))
    | None => false
    end in
  let offsets' :=
    if merged
    then map_back (fun o => mkOffset (o_start_idx o) (width o + w)%float) (offsets b)
    else offsets b ++ [mkOffset (length (text b)) w] in
  mkBuffer (x b) (y b) (tm_id b) (text b) offsets' (states b).

Definition set_state (r : Renderer M) (state : State) : State :=
  let a0 := ids_set (ids state) FONT_ID (fi_id (cur_font_info r)) in
  let a1 := ids_set a0 FONT_SIZE_ID (get_id (font_size_manager r)) in
  let a2 := ids_set a1 FILL_COLOR_ID (get_id (fill_color_manager r)) in
  let a3 := ids_set a2 STROKE_COLOR_ID (get_id (stroke_color_manager r)) in
  let a4 := ids_set a3 LETTER_SPACE_ID (get_id (letter_space_manager r)) in
  let a5 := ids_set a4 WORD_SPACE_ID (get_id (word_space_manager r)) in
  let a6 := ids_set a5 RISE_ID (get_id (rise_manager r)) in
  mkState a6 (hash_umask state) (hash_value state) (start_idx state) (need_close state)
    (cur_font_info r)
    (get_actual_value (font_size_manager r))
    (get_actual_value (letter_space_manager r))
    (get_actual_value (word_space_manager r)).

Definition append_state (r : Renderer M) (b : TextLineBuffer) : TextLineBuffer :=
  let fresh :=
    match last (states b) with
    | Some s => negb (Nat.eqb (start_idx s) (length (text b)))
    | None => true
    end in
  let states1 :=
    if fresh
    then states b ++ [with_hash_umask (with_start_idx State_default (length (text b))) 0]
    else states b in
  mkBuffer (x b) (y b) (tm_id b) (text b) (offsets b) (map_back (set_state r) states1).

(** *** [optimize] *)

(** The first loop over the offsets: skip those before the segment. *)
Fixpoint skip_offsets (text_idx1 : nat) (offset_iter : list Offset) : list Offset :=
  match offset_iter with
  | [] => []
  | o :: rest =>
      if Nat.ltb (o_start_idx o) text_idx1 then skip_offsets text_idx1 rest else offset_iter
  end.

(** One width entering the map. *)
Definition add_width (width_map : WidthMap) (target : double) : WidthMap :=
  let '(before, after) := lower_bound width_map (target - EPS)%float in
  match after with
  | (k, c) :: after' =>
      if (abs (k - target) <=? EPS)%float
      then before ++ (k, c + 1) :: after'
      else map_insert width_map target 1
  | [] => map_insert width_map target 1
  end.

(** The second loop over the offsets: collect the widths of the segment. It
    returns the map and the iterator where the loop stopped. *)
Fixpoint collect_widths (threshold : double) (text_idx2 : nat) (offset_iter : list Offset)
    (width_map : WidthMap) : WidthMap * list Offset :=
  match offset_iter with
  | [] => (width_map, [])
  | o :: rest =>
      if Nat.ltb (o_start_idx o) text_idx2 then
        let target := width o in
        if (target <? threshold - EPS)%float
        then collect_widths threshold text_idx2 rest width_map
        else collect_widths threshold text_idx2 rest (add_width width_map target)
      else (width_map, offset_iter)
  end.

Definition word_space_umask : Z := umask_by_id WORD_SPACE_ID.

(** The loop of [optimize] from [state_iter1] on: [sts] are the states from
    [state_iter1] to the end, [offset_iter] the offsets not yet passed, [wm]
    the word-space registry. *)
Fixpoint optimize_loop (space_threshold : double) (txt : list Unicode)
    (offset_iter : list Offset) (wm : M) (sts : list State) : list State * M :=
  match sts with
  | [] => ([], wm)
  | s1 :: rest =>
      let text_idx1 := start_idx s1 in
      let text_idx2 := match rest with [] => length txt | s2 :: _ => start_idx s2 end in
      if has_space (slice txt text_idx1 text_idx2) then
        let '(rest', wm') := optimize_loop space_threshold txt offset_iter wm rest in
        (s1 :: rest', wm')
      else
        let offset_iter1 := skip_offsets text_idx1 offset_iter in
        let threshold := (em_size s1 * space_threshold)%float in
        let '(width_map, offset_iter2) := collect_widths threshold text_idx2 offset_iter1 [] in
        match width_map with
        | [] =>
            let s1' := with_hash_umask s1 (Z.lor (hash_umask s1) word_space_umask) in
            let '(rest', wm') := optimize_loop space_threshold txt offset_iter2 wm rest in
            (s1' :: rest', wm')
        | _ =>
            let most_used_width := fst (most_used width_map) in
            let sa := with_word_space s1 0%float in
            let new_word_space := (most_used_width - single_space_offset sa)%float in
            let '(id, actual, wm1) := install wm new_word_space in
            let sb := with_word_space sa actual in
            let sc := with_ids sb (ids_set (ids sb) WORD_SPACE_ID id) in
            let sd := with_hash_umask sc (Z.land (hash_umask sc) (Z.lnot word_space_umask)) in
            let '(rest', wm') := optimize_loop space_threshold txt offset_iter2 wm1 rest in
            (sd :: rest', wm')
        end
  end.

Definition optimize (r : Renderer M) (b : TextLineBuffer) : Renderer M * TextLineBuffer :=
  let '(states', wm') :=
    optimize_loop (space_threshold (param r)) (text b) (offsets b) (word_space_manager r) (states b) in
  (with_word_space_manager r wm',
   mkBuffer (x b) (y b) (tm_id b) (text b) (offsets b) states').

(** *** [flush] *)

(** What is written to [cerr]. *)
Inductive warning := TextWithoutStyle.

(** The variables of the render loop. *)
Record Loop := mkLoop {
  l_renderer : Renderer M;
  l_states : list State;
  l_out : list chunk;
  l_stack : Stack;
  l_cur_state_iter : nat;
  l_cur_offset_iter : nat;
  l_dx : double;
  l_last_text_pos_with_negative_offset : nat;
  l_cur_text_idx : nat
}.

(** [while (stack.back() != target) { stack.back()->end(out); stack.pop_back(); }]
    Reading the back of an empty vector, or through a null pointer, has no
    defined result: [None]. *)
Fixpoint pop_until (sts : list State) (target : option nat) (stack : Stack)
    : option (list chunk * Stack) :=
  match stack with
  | [] => None
  | top :: rest =>
      if decide (top = target) then Some ([], stack)
      else
        j ← top;
        s ← sts !! j;
        '(out, stack') ← pop_until sts target rest;
        Some (end_ s ++ out, stack')
  end.

(** The greedy scan [for (iter = stack.rbegin(); *iter; ++iter)]. The
    iterator is the slot it points to: [n_below] counts the slots from the
    bottom of the vector up to and including that slot, so [++iter] is one
    slot less, and pops above the slot leave it in place. *)
Fixpoint search (n_below : nat) (sts : list State) (cur : State)
    (last_text_pos_with_negative_offset : nat) (best_cost : Z) (stack : Stack)
    : option (list chunk * Stack) :=
  match n_below with
  | O => None
  | S n' =>
      it ← stack !! (length stack - n_below)%nat;
      match it with
      | None => Some ([], stack)
      | Some j =>
          s ← sts !! j;
          let cost := diff cur s in
          if cost <? best_cost then
            '(out1, stack1) ← pop_until sts (Some j) stack;
            if cost =? 0 then Some (out1, stack1)
            else if Nat.leb (start_idx s) last_text_pos_with_negative_offset
            then Some (out1, stack1)
            else
              '(out2, stack2) ← search n' sts cur last_text_pos_with_negative_offset cost stack1;
              Some (out1 ++ out2, stack2)
          else if Nat.leb (start_idx s) last_text_pos_with_negative_offset
          then Some ([], stack)
          else search n' sts cur last_text_pos_with_negative_offset best_cost stack
      end
  end.

(** The state boundary: the scan, then [begin] under [stack.back()] and the
    push of the state. *)
Definition state_boundary (st : Loop) : option Loop :=
  cur ← l_states st !! l_cur_state_iter st;
  '(out1, stack1) ← search (length (l_stack st)) (l_states st) cur
                      (l_last_text_pos_with_negative_offset st) (Z.of_nat ID_COUNT) (l_stack st);
  back ← head stack1;
  prev_state ← match back with
               | None => Some None
               | Some j => p ← l_states st !! j; Some (Some p)
               end;
  let '(out2, cur') := begin cur prev_state in
  Some (mkLoop (l_renderer st)
               (<[l_cur_state_iter st := cur']> (l_states st))
               (l_out st ++ out1 ++ out2)
               (Some (l_cur_state_iter st) :: stack1)
               (S (l_cur_state_iter st))
               (l_cur_offset_iter st)
               (l_dx st)
               (l_last_text_pos_with_negative_offset st)
               (l_cur_text_idx st)).

(** The result of resolving one offset. *)
Record Resolved := mkResolved {
  r_out : list chunk;
  r_actual_offset : double;
  r_whitespace_manager : M;
  r_last_text_pos_with_negative_offset : nat
}.

(** The body of [if (cur_text_idx >= cur_offset_iter->start_idx)] up to the
    update of [dx]: [cur_state] is [stack.back()], read only when the target
    is not within [h_eps] of zero. *)
Definition resolve_offset (p : Param) (wsm : M) (cur_state : option State)
    (cur_text_idx last_text_pos_with_negative_offset : nat) (target : double)
    : option Resolved :=
  if (abs target <=? h_eps p)%float then
    Some (mkResolved [] 0%float wsm last_text_pos_with_negative_offset)
  else
    cur ← cur_state;
    let space_off := single_space_offset cur in
    if negb (is_set (hash_umask cur) (umask_by_id WORD_SPACE_ID))
       && (abs (target - space_off) <=? h_eps p)%float
    then Some (mkResolved [Unicodes [SPACE]] space_off wsm last_text_pos_with_negative_offset)
    else
      let '(wid, actual_offset, wsm') := install wsm target in
      if negb (equal actual_offset 0%float) then
        let last' := if is_positive (- actual_offset)%float
                     then cur_text_idx else last_text_pos_with_negative_offset in
        let threshold := (em_size cur * space_threshold p)%float in
        Some (mkResolved [Gap wid (threshold - EPS <? target)%float] actual_offset wsm' last')
      else
        Some (mkResolved [] actual_offset wsm' last_text_pos_with_negative_offset).

(** The state on top of the stack, when there is one. *)
Definition stack_back_state (sts : list State) (stack : Stack) : option State :=
  back ← head stack; j ← back; sts !! j.

Definition offset_boundary (st : Loop) (o : Offset) : option Loop :=
  let target := (width o + l_dx st)%float in
  res ← resolve_offset (param (l_renderer st)) (whitespace_manager (l_renderer st))
          (stack_back_state (l_states st) (l_stack st))
          (l_cur_text_idx st) (l_last_text_pos_with_negative_offset st) target;
  Some (mkLoop (with_whitespace_manager (l_renderer st) (r_whitespace_manager res))
               (l_states st)
               (l_out st ++ r_out res)
               (l_stack st)
               (l_cur_state_iter st)
               (S (l_cur_offset_iter st))
               (target - r_actual_offset res)%float
               (r_last_text_pos_with_negative_offset res)
               (l_cur_text_idx st)).

(** One turn of [while (cur_text_idx < text.size())]. Reading past the end of
    a vector has no defined result: [None]. *)
Definition loop_body (txt : list Unicode) (offs : list Offset) (st : Loop) : option Loop :=
  s ← l_states st !! l_cur_state_iter st;
  st1 ← (if Nat.leb (start_idx s) (l_cur_text_idx st) then state_boundary st else Some st);
  o ← offs !! l_cur_offset_iter st1;
  st2 ← (if Nat.leb (o_start_idx o) (l_cur_text_idx st1) then offset_boundary st1 o else Some st1);
  s' ← l_states st2 !! l_cur_state_iter st2;
  o' ← offs !! l_cur_offset_iter st2;
  let next_text_idx := Nat.min (start_idx s') (o_start_idx o') in
  if decide (l_cur_text_idx st2 <= next_text_idx <= length txt)%nat then
    Some (mkLoop (l_renderer st2) (l_states st2)
                 (l_out st2 ++ [Unicodes (slice txt (l_cur_text_idx st2) next_text_idx)])
                 (l_stack st2) (l_cur_state_iter st2) (l_cur_offset_iter st2) (l_dx st2)
                 (l_last_text_pos_with_negative_offset st2)
                 next_text_idx)
  else None.

(** The loop, with a bound on its turns; [flush] gives it more turns than a
    run can take (a turn moves [cur_text_idx] or one of the two iterators). *)
Fixpoint render_loop (fuel : nat) (txt : list Unicode) (offs : list Offset) (st : Loop)
    : option Loop :=
  if Nat.ltb (l_cur_text_idx st) (length txt) then
    match fuel with
    | O => None
    | S fuel' => st' ← loop_body txt offs st; render_loop fuel' txt offs st'
    end
  else Some st.

(** [while (stack.back()) { stack.back()->end(out); stack.pop_back(); }] *)
Definition close_all (sts : list State) (stack : Stack) : option (list chunk * Stack) :=
  pop_until sts None stack.

Definition max_ascent_of (sts : list State) : double :=
  fold_left (fun m s => fmax m (ascent (font_info s) * draw_font_size s)%float) sts 0%float.

(** What a call of [flush] leaves behind. *)
Record Flushed := mkFlushed {
  f_out : list chunk;
  f_log : list warning;
  f_renderer : Renderer M;
  f_buffer : TextLineBuffer
}.

Definition flush (r : Renderer M) (b : TextLineBuffer) : option Flushed :=
  if decide (text b = []) then Some (mkFlushed [] [] r b)
  else if match head (states b) with
          | Some s0 => negb (Nat.eqb (start_idx s0) 0)
          | None => true
          end
  then Some (mkFlushed [] [TextWithoutStyle] r b)
  else
    let '(r1, b1) := optimize r b in
    let max_ascent := max_ascent_of (states b1) in
    let states2 := states b1 ++ [with_start_idx State_default (length (text b1))] in
    let states3 := map hash states2 in
    let offsets' := offsets b1 ++ [mkOffset (length (text b1)) 0%float] in
    let '(hid, _, hm) := install (height_manager r1) max_ascent in
    let '(lid, _, lm) := install (left_manager r1) (x b1) in
    let '(bid, _, bm) := install (bottom_manager r1) (y b1) in
    let r2 := with_line_managers r1 hm lm bm in
    let st0 := mkLoop r2 states3 [LineOpen (tm_id b1) lid hid bid] [None]
                      0 0 0%float 0 0 in
    st ← render_loop (S (length (text b1) + length states3 + length offsets'))
           (text b1) offsets' st0;
    '(out_close, _) ← close_all (l_states st) (l_stack st);
    Some (mkFlushed (l_out st ++ out_close ++ [LineEnd]) [] (l_renderer st)
                    (mkBuffer (x b1) (y b1) (tm_id b1) [] [] [])).

(** ** A line, as the caller builds it *)

Inductive op :=
| AppendUnicodes (u : list Unicode)
| AppendOffset (w : double)
| AppendState (r : Renderer M).

Definition run_op (b : TextLineBuffer) (o : op) : TextLineBuffer :=
  match o with
  | AppendUnicodes u => append_unicodes b u
  | AppendOffset w => append_offset b w
  | AppendState r => append_state r b
  end.

Definition run_ops (b : TextLineBuffer) (ops : list op) : TextLineBuffer :=
  fold_left run_op ops b.

End Buffer.

(** * The vocabulary of the statements

    Predicates and counts over the embedding, used to state what the code
    does; none of them is part of the program. *)

(** ** The state model *)

(** Channel [i] of [s] is bound: [!(hash_umask & umask_by_id(i))], the test of [begin]
    and of [flush]. *)
Definition bound (s : State) (i : nat) : bool := negb (is_set (hash_umask s) (umask_by_id i)).

(** Channel [i] is bound in both states and carries different ids. *)
Definition mismatch (a b : State) (i : nat) : bool :=
  bound a i && bound b i && negb (ids_get (ids a) i =? ids_get (ids b) i).

(** The number of indices in [i, i + n) at which [f] holds. *)
Fixpoint count_where (f : nat -> bool) (i n : nat) : Z :=
  match n with
  | O => 0
  | S n' => (if f i then 1 else 0) + count_where f (S i) n'
  end.

(** The number of commonly-bound channels whose ids differ. *)
Definition mismatches (a b : State) : Z := count_where (mismatch a b) 0 ID_COUNT.

(** A mask frees whole channels: each byte is all ones or all zeros, as every mask the
    buffer builds is. *)
Definition umask_wf (u : Z) : Prop :=
  forall i, (i < ID_COUNT)%nat ->
    Z.land u (umask_by_id i) = 0 \/ Z.land u (umask_by_id i) = umask_by_id i.

(** The class names written for channel [i]. *)
Definition is_token_of (i : nat) (c : chunk) : bool :=
  match c with
  | ClassId j _ | ClassInvalid j => Nat.eqb i j
  | _ => false
  end.

Definition is_token (c : chunk) : bool :=
  match c with
  | ClassId _ _ | ClassInvalid _ => true
  | _ => false
  end.

Definition channel_tokens (i : nat) (out : list chunk) : list chunk :=
  List.filter (is_token_of i) out.

(** The class name of channel [i] for the id [id]: the sentinel for -1. *)
Definition class_token (i : nat) (id : Z) : chunk :=
  if id =? -1 then ClassInvalid i else ClassId i id.

(** The value a state keeps next to the id of a channel, for the three channels that have one. *)
Definition chan_value (i : nat) (s : State) : option double :=
  match i with
  | 1%nat => Some (draw_font_size s)
  | 4%nat => Some (letter_space s)
  | 5%nat => Some (word_space s)
  | _ => None
  end.

(** What one channel of a state looks like: its byte of the mask, its id, its value. *)
Definition chan (i : nat) (s : State) : Z * Z * option double :=
  (Z.land (hash_umask s) (umask_by_id i), ids_get (ids s) i, chan_value i s).

(** The chunks written by the loop of [begin] so far: nothing while [first] holds, then
    the start of the tag followed by class names and blanks. *)
Definition is_class_or_sep (c : chunk) : bool :=
  match c with Sep | ClassId _ _ | ClassInvalid _ => true | _ => false end.

Definition begin_shape (first : bool) (out : list chunk) : Prop :=
  if first then out = []
  else exists body, out = SpanBegin :: body
                    /\ forallb is_class_or_sep body = true
                    /\ List.filter is_token body <> [].

(** The outcome of [begin] for channel [i]: what is written for it and how the state
    leaves the call. *)
Definition channel_outcome (self : State) (prev_state : option State) (i : nat)
    (out : list chunk) (self' : State) : Prop :=
  let parent_bound := match prev_state with Some p => bound p i | None => false end in
  let parent_id := match prev_state with Some p => ids_get (ids p) i | None => 0 end in
  let parent_value := match prev_state with Some p => chan_value i p | None => None end in
  if bound self i then
    bound self' i = true /\ ids_get (ids self') i = ids_get (ids self) i /\
    channel_tokens i out =
      (if parent_bound && (parent_id =? ids_get (ids self) i) then []
       else [class_token i (ids_get (ids self) i)])
  else
    channel_tokens i out = [] /\
    (if parent_bound
     then bound self' i = true /\ ids_get (ids self') i = parent_id
          /\ chan_value i self' = parent_value
     else bound self' i = false /\ ids_get (ids self') i = ids_get (ids self) i).

(** ** Elements opened and closed *)

(** The elements a chunk opens and closes: the line wrapper, a style wrapper, a gap
    element (opened and closed in one chunk). *)
Definition opened (c : chunk) : nat :=
  match c with LineOpen _ _ _ _ | SpanBegin | Gap _ _ => 1 | _ => 0 end.

Definition closed (c : chunk) : nat :=
  match c with LineEnd | SpanEnd | Gap _ _ => 1 | _ => 0 end.

Definition count_opened (out : list chunk) : nat := list_sum (map opened out).

Definition count_closed (out : list chunk) : nat := list_sum (map closed out).

Definition is_span_begin (c : chunk) : bool :=
  match c with SpanBegin => true | _ => false end.

Definition is_line_open (c : chunk) : bool :=
  match c with LineOpen _ _ _ _ => true | _ => false end.

Definition count_chunks (f : chunk -> bool) (out : list chunk) : nat :=
  length (List.filter f out).

(** What closing the elements of a piece of the stack writes. *)
Definition end_of (sts : list State) (e : option nat) : list chunk :=
  match e with
  | Some j => match sts !! j with Some s => end_ s | None => [] end
  | None => []
  end.

Definition ends (sts : list State) (popped : Stack) : list chunk :=
  flat_map (end_of sts) popped.

(** ** The stack and the positions *)

(** The elements a scan may pop: those whose start lies after the latest negative offset. *)
Definition after_negative (sts : list State) (last_neg : nat) (e : option nat) : Prop :=
  exists j s, e = Some j /\ sts !! j = Some s /\ (last_neg < start_idx s)%nat.

(** A stack as [flush] keeps it: pointers to states before [bound], on top of the null pointer. *)
Definition stack_wf (bound : nat) (stack : Stack) : Prop :=
  exists js, stack = map Some js ++ [None] /\ Forall (fun j => (j < bound)%nat) js.

(** Positions in increasing order up to the sentinel at [n]. *)
Definition sorted_upto (n : nat) (l : list nat) : Prop :=
  forall i j a b, l !! i = Some a -> l !! j = Some b -> (i < j)%nat -> (a < n)%nat -> (a < b)%nat.

Record positions_ok (n : nat) (l : list nat) : Prop := {
  pos_sorted : sorted_upto n l;
  pos_bound : Forall (fun a => (a <= n)%nat) l;
  pos_last : last l = Some n
}.

(** Positions of a buffer: strictly increasing and inside the text. *)
Definition positions_inv (n : nat) (l : list nat) : Prop :=
  StronglySorted lt l /\ Forall (fun a => (a <= n)%nat) l.

Definition buffer_inv (b : TextLineBuffer) : Prop :=
  positions_inv (length (text b)) (o_start_idx <$> offsets b)
  /\ positions_inv (length (text b)) (start_idx <$> states b).

(** No channel has been freed yet. *)
Definition unmasked (b : TextLineBuffer) : Prop :=
  Forall (fun s => hash_umask s = 0) (states b).

(** All segments carry the same ids and bind the same channels. *)
Definition uniform (sts : list State) : Prop :=
  forall s s', In s sts -> In s' sts -> ids s = ids s' /\ hash_umask s = hash_umask s'.

(** The offsets of a segment. *)
Definition in_segment (i1 i2 : nat) (o : Offset) : bool :=
  Nat.leb i1 (o_start_idx o) && Nat.ltb (o_start_idx o) i2.

Section Vocabulary.
Context {M : Type} {SM : StateManager M} {MU : MathUtil}.

(** ** The two offset loops of [optimize], as filters *)

(** An offset that the second loop counts. *)
Definition qualifies (threshold : double) (o : Offset) : bool :=
  negb (width o <? threshold - EPS)%float.

(** The widths that the two loops collect for a segment. *)
Definition segment_widths (threshold : double) (i1 i2 : nat) (offs : list Offset) : list double :=
  map width (List.filter (qualifies threshold) (List.filter (in_segment i1 i2) offs)).

(** The width map after the second loop. *)
Definition buckets (ws : list double) : WidthMap := fold_left add_width ws [].

(** ** The invariants of the render loop *)

(** The iterators stay on the vectors and at or after the current text
    index, the stack is well formed and holds a state once one has begun, and
    every element opened and not yet closed is the line wrapper or on the
    stack. *)
Record loop_inv (offs : list Offset) (starts : list nat) (st : Loop (M:=M)) : Prop := {
  inv_starts : start_idx <$> l_states st = starts;
  inv_state_iter : forall a, starts !! l_cur_state_iter st = Some a -> (l_cur_text_idx st <= a)%nat;
  inv_state_valid : (l_cur_state_iter st < length starts)%nat;
  inv_offset_iter : forall o, offs !! l_cur_offset_iter st = Some o ->
                      (l_cur_text_idx st <= o_start_idx o)%nat;
  inv_offset_valid : (l_cur_offset_iter st < length offs)%nat;
  inv_stack : stack_wf (l_cur_state_iter st) (l_stack st);
  inv_top : (0 < l_cur_state_iter st)%nat -> exists j rest, l_stack st = Some j :: rest;
  inv_balance : count_opened (l_out st)
                = (count_closed (l_out st) + 1 + count_closed (ends (l_states st) (l_stack st)))%nat
}.

(** A state in the style [I], [U], [H]: its ids, its mask and its packed key. *)
Definition in_style (I : Ids) (U H : Z) (s : State) : Prop :=
  ids s = I /\ hash_umask s = U /\ hash_value s = H.

(** Every state but the closing sentinel is in one style; one style tag has
    been opened, by the first state, and the line wrapper once. *)
Record uniform_inv (starts : list nat) (I : Ids) (U H : Z) (st : Loop (M:=M)) : Prop := {
  uni_states : forall i s, l_states st !! i = Some s -> (S i < length starts)%nat ->
                 in_style I U H s;
  uni_spans : count_chunks is_span_begin (l_out st)
              = if Nat.eqb (l_cur_state_iter st) 0 then 0%nat else 1%nat;
  uni_lines : count_chunks is_line_open (l_out st) = 1%nat
}.

End Vocabulary.

(** ** Word-space inference, as the specification words it

    A second description of [optimize], written from the specification and
    not from the loops of the code: the segments one after the other, each
    with the offsets that lie inside it, and the word-space registry handed
    from one segment to the next. *)

(** No code point of the segment [i1, i2) is a space. *)
Definition spaceless (txt : list Unicode) (i1 i2 : nat) : bool :=
  forallb (fun i => match txt !! i with Some u => negb (u =? 32) | None => true end)
          (seq i1 (i2 - i1)).

Section SpecInference.
Context {M : Type} {SM : StateManager M} {MU : MathUtil}.

(** The widths of the offsets inside the segment of [s] that are not below
    [em_size * fraction - EPS], where the em size is
    [draw_font_size * (ascent - descent)]. *)
Definition qualifying_widths (fraction : double) (s : State) (seg_end : nat)
    (offs : list Offset) : list double :=
  let threshold :=
    (draw_font_size s * (ascent (font_info s) - descent (font_info s)) * fraction)%float in
  map width
    (List.filter (fun o => Nat.leb (start_idx s) (o_start_idx o)
                           && Nat.ltb (o_start_idx o) seg_end
                           && negb (width o <? threshold - EPS)%float) offs).

(** The groups of approximately equal widths, each a representative with the
    number of widths in it, in increasing order of the representatives.
    [bump] counts [w] into the first group whose representative is not below
    [w - EPS]; [place] opens a group for [w] at its place in the order, and
    none when a group has that very representative. *)
Fixpoint bump (groups : list (double * Z)) (w : double) : list (double * Z) :=
  match groups with
  | [] => []
  | (k, c) :: rest =>
      if (k <? w - EPS)%float then (k, c) :: bump rest w else (k, c + 1) :: rest
  end.

Fixpoint place (groups : list (double * Z)) (w : double) : list (double * Z) :=
  match groups with
  | [] => [(w, 1)]
  | (k, c) :: rest =>
      if (k <? w)%float then (k, c) :: place rest w
      else if (w <? k)%float then (w, 1) :: groups
      else groups
  end.

(** A width joins the first group whose representative is not below
    [w - EPS], when that representative lies within [EPS] of it, and opens a
    group of its own otherwise. *)
Definition join (groups : list (double * Z)) (w : double) : list (double * Z) :=
  match List.find (fun g => negb (fst g <? w - EPS)%float) groups with
  | Some (k, _) => if (abs (k - w) <=? EPS)%float then bump groups w else place groups w
  | None => place groups w
  end.

Definition group_widths (ws : list double) : list (double * Z) := fold_left join ws [].

(** The representative of the most frequent group: the first group, in the
    order of the representatives, whose count is the largest. *)
Definition max_count (groups : list (double * Z)) : Z :=
  fold_right (fun g m => Z.max (snd g) m) 0 groups.

Definition most_frequent (groups : list (double * Z)) : double :=
  match List.find (fun g => snd g =? max_count groups) groups with
  | Some g => fst g
  | None => 0%float
  end.

(** One segment: left alone when its text holds a space; its word-spacing
    channel freed when no width qualifies; and otherwise bound to the id and
    the value that the registry returns for
    [w - (0 + letter_space + space_width * draw_font_size)], [w] the
    representative of the most frequent group. *)
Definition infer_segment (fraction : double) (txt : list Unicode) (offs : list Offset)
    (registry : M) (s : State) (seg_end : nat) : State * M :=
  if spaceless txt (start_idx s) seg_end then
    match qualifying_widths fraction s seg_end offs with
    | [] => (with_hash_umask s (Z.lor (hash_umask s) (umask_by_id WORD_SPACE_ID)), registry)
    | ws =>
        let w := most_frequent (group_widths ws) in
        let new_word_space :=
          (w - (0 + letter_space s + space_width (font_info s) * draw_font_size s))%float in
        let '(id, value, registry') := install registry new_word_space in
        (mkState (ids_set (ids s) WORD_SPACE_ID id)
                 (Z.land (hash_umask s) (Z.lnot (umask_by_id WORD_SPACE_ID)))
                 (hash_value s) (start_idx s) (need_close s) (font_info s)
                 (draw_font_size s) (letter_space s) value,
         registry')
    end
  else (s, registry).

(** The segments in order; a segment ends where the next one starts, the
    last one at the end of the text. *)
Fixpoint infer_segments (fraction : double) (txt : list Unicode) (offs : list Offset)
    (registry : M) (sts : list State) : list State * M :=
  match sts with
  | [] => ([], registry)
  | s :: rest =>
      let seg_end := match rest with [] => length txt | s2 :: _ => start_idx s2 end in
      let '(s', registry1) := infer_segment fraction txt offs registry s seg_end in
      let '(rest', registry') := infer_segments fraction txt offs registry1 rest in
      (s' :: rest', registry')
  end.

End SpecInference.

(** ** The tag written by [begin] *)

(** Channel [i] gets a class name: it is bound and the parent does not
    already carry the same id for it. *)
Definition emits (self : State) (prev_state : option State) (i : nat) : bool :=
  bound self i
  && negb match prev_state with
          | Some p => bound p i && (ids_get (ids p) i =? ids_get (ids self) i)
          | None => false
          end.

(** The class names of the emitting channels, in channel order. *)
Definition class_list (self : State) (prev_state : option State) : list chunk :=
  map (fun i => class_token i (ids_get (ids self) i))
      (List.filter (emits self prev_state) (seq 0 ID_COUNT)).

(** Class names after the first one, each behind a blank. *)
Definition with_seps (classes : list chunk) : list chunk :=
  flat_map (fun c => [Sep; c]) classes.

(** An opening span tag around a list of class names; nothing for no class. *)
Definition span_tag (classes : list chunk) : list chunk :=
  match classes with
  | [] => []
  | c :: cs => SpanBegin :: c :: with_seps cs ++ [SpanBeginEnd]
  end.

(** The class names of the emitting channels among [k], ..., [k + n - 1]. *)
Definition tokens_from (s : State) (prev : option State) (k n : nat) : list chunk :=
  map (fun i => class_token i (ids_get (ids s) i)) (List.filter (emits s prev) (seq k n)).

(** What the loop of [begin] has written for a list of class names: the
    start of the tag when [f] (the flag [first]) holds, a blank otherwise,
    then the names with blanks between them. *)
Definition tag_start (f : bool) (classes : list chunk) : list chunk :=
  match classes with
  | [] => []
  | c :: cs => (if f then SpanBegin else Sep) :: c :: with_seps cs
  end.

(** ** The text and the nesting of the output *)

(** The code points a chunk puts on the page: those of [outputUnicodes] and
    the blank inside a gap element. *)
Definition literal_of (c : chunk) : list Unicode :=
  match c with
  | Unicodes us => us
  | Gap _ true => [SPACE]
  | _ => []
  end.

Definition literal (out : list chunk) : list Unicode := flat_map literal_of out.

(** [padded t o]: [o] is [t] with blanks put in, nothing else added, removed
    or moved. *)
Inductive padded : list Unicode -> list Unicode -> Prop :=
| padded_nil : padded [] []
| padded_keep u t o : padded t o -> padded (u :: t) (u :: o)
| padded_blank t o : padded t o -> padded t (SPACE :: o).

(** The nesting depth after [out], from depth [d]; [None] when a closing
    tag comes with nothing open. *)
Fixpoint depth (d : nat) (out : list chunk) : option nat :=
  match out with
  | [] => Some d
  | c :: out' =>
      if Nat.leb (closed c) (d + opened c)
      then depth (d + opened c - closed c) out'
      else None
  end.

Definition is_line_tag (c : chunk) : bool :=
  match c with LineOpen _ _ _ _ | LineEnd => true | _ => false end.

Definition is_gap (c : chunk) : bool :=
  match c with Gap _ _ => true | _ => false end.

(** The chunks of an opening span tag. *)
Definition is_tag_part (c : chunk) : bool :=
  match c with
  | SpanBegin | Sep | ClassId _ _ | ClassInvalid _ | SpanBeginEnd => true
  | _ => false
  end.

(** The chunk an offset leaves: nothing, one blank, or one gap element. *)
Definition gap_shape (gap : list chunk) : Prop :=
  gap = [] \/ gap = [Unicodes [SPACE]] \/ exists wid sp, gap = [Gap wid sp].

(** ** The scan *)

(** The cost of a stack entry for the state [cur]. *)
Definition cost_of (sts : list State) (cur : State) (e : option nat) : Z :=
  match e with
  | Some j => match sts !! j with Some s => diff cur s | None => 0 end
  | None => 0
  end.

(** ** Word-space inference, state by state *)

(** [s'] is [s] up to the word-spacing channel: its id, its value and its
    byte of the mask. *)
Definition ws_only (s s' : State) : Prop :=
  s' = mkState (ids_set (ids s) WORD_SPACE_ID (ids_get (ids s') WORD_SPACE_ID)) (hash_umask s')
         (hash_value s) (start_idx s) (need_close s) (font_info s) (draw_font_size s)
         (letter_space s) (word_space s')
  /\ forall i, i <> WORD_SPACE_ID ->
       Z.land (hash_umask s') (umask_by_id i) = Z.land (hash_umask s) (umask_by_id i).

(** ** The render loop, piece by piece *)

Section LoopVocabulary.
Context {M : Type} {SM : StateManager M} {MU : MathUtil}.

(** The code points a call appends. *)
Definition unicodes_of (o : op (M:=M)) : list Unicode :=
  match o with
  | AppendUnicodes u => u
  | _ => []
  end.

(** The registries and settings of the renderer that describe the current
    style; the line buffer only reads them. *)
Definition style_of (r : Renderer M) : Param * FontInfo * (M * M * M * M * M * M) :=
  (param r, cur_font_info r,
   (transform_matrix_manager r, font_size_manager r, fill_color_manager r,
    stroke_color_manager r, letter_space_manager r, rise_manager r)).

(** The state in which [flush] enters the render loop, on the buffer [b1]
    and the renderer [r1] that [optimize] returned: the sentinel state, the
    packed keys, the ids of the line and its opening tag, the stack holding
    the null pointer, and the iterators at the start. [flush] builds the same
    state (lemma [flush_cases]). *)
Definition loop_start (r1 : Renderer M) (b1 : TextLineBuffer) : Loop :=
  let states2 := states b1 ++ [with_start_idx State_default (length (text b1))] in
  let '(hid, _, hm) := install (height_manager r1) (max_ascent_of (states b1)) in
  let '(lid, _, lm) := install (left_manager r1) (x b1) in
  let '(bid, _, bm) := install (bottom_manager r1) (y b1) in
  mkLoop (with_line_managers r1 hm lm bm) (map hash states2) [LineOpen (tm_id b1) lid hid bid]
         [None] 0 0 0%float 0 0.

(** The end of a turn of the render loop: [next_text_idx] is the smaller of
    the two positions under the iterators, the text up to it is written and
    [cur_text_idx] moves there. This is the last step of [loop_body] (lemma
    [loop_body_write_text]). *)
Definition write_text (txt : list Unicode) (offs : list Offset) (st2 : Loop (M:=M))
    : option Loop :=
  s' ← l_states st2 !! l_cur_state_iter st2;
  o' ← offs !! l_cur_offset_iter st2;
  let next_text_idx := Nat.min (start_idx s') (o_start_idx o') in
  if decide (l_cur_text_idx st2 <= next_text_idx <= length txt)%nat then
    Some (mkLoop (l_renderer st2) (l_states st2)
                 (l_out st2 ++ [Unicodes (slice txt (l_cur_text_idx st2) next_text_idx)])
                 (l_stack st2) (l_cur_state_iter st2) (l_cur_offset_iter st2) (l_dx st2)
                 (l_last_text_pos_with_negative_offset st2)
                 next_text_idx)
  else None.

(** The render loop after [n] turns. *)
Fixpoint turns (n : nat) (txt : list Unicode) (offs : list Offset) (st : Loop (M:=M))
    : option Loop :=
  match n with
  | O => Some st
  | S n' => st' ← loop_body txt offs st; turns n' txt offs st'
  end.

End LoopVocabulary.

(** * Concrete inputs

    A registry, a renderer and a few lines to run the embedding on. *)

(** Modelled from the spec: the dedup registries (StateManager.h is outside
    this file). [install] returns the id of a stored value within [reg_eps]
    of the new one, together with that stored value, and otherwise stores the
    new value under the next id. *)
Record Registry := mkRegistry {
  reg_id : Z;
  reg_value : double;
  reg_eps : double;
  reg_table : list (double * Z)
}.

Definition registry_install (m : Registry) (v : double) : Z * double * Registry :=
  match List.find (fun e => (abs (fst e - v) <=? reg_eps m)%float) (reg_table m) with
  | Some (k, id) => (id, k, m)
  | None =>
      let id := Z.of_nat (length (reg_table m)) in
      (id, v, mkRegistry (reg_id m) (reg_value m) (reg_eps m) (reg_table m ++ [(v, id)]))
  end.

#[export] Instance registry_manager : StateManager Registry :=
  {| get_id := reg_id; get_actual_value := reg_value; install := registry_install |}.

(** Modelled from the spec: the fixed comparison epsilon of util/math.h and
    the two tests built on it, with 2^-20 for the epsilon. *)
#[export] Instance math_util : MathUtil :=
  {| EPS := 0x1p-20%float;
     equal := fun a b => (abs (a - b) <=? 0x1p-20)%float;
     is_positive := fun a => (0x1p-20 <? a)%float |}.

Definition reg (id : Z) (v : double) : Registry := mkRegistry id v 0.5%float [].

Definition font1 : FontInfo := mkFontInfo 1 0.75%float (-0.25)%float 0.25%float.

(** A renderer at font size 10: em size 10, space advance 2.5, threshold 1.25. *)
Definition rend : Renderer Registry :=
  mkRenderer (mkParam 1%float 0.125%float) font1 (reg 0 0%float) (reg 2 10%float) (reg 3 0%float)
   (reg 4 0%float) (reg 5 0%float) (reg 6 0%float) (reg 7 0%float) (reg 0 0%float)
   (reg 0 0%float) (reg 0 0%float) (reg 0 0%float).

(** The same renderer with a gap-width registry that already holds the
    offset 0 and snaps to it within 5 units. *)
Definition rend_snap : Renderer Registry :=
  with_whitespace_manager rend (mkRegistry 0 0%float 5%float [(0%float, 0)]).

Definition state_of (a : Ids) (umask : Z) (start : nat) : State :=
  hash (mkState a umask 0 start false font1 10%float 0%float 0%float).

Definition abcd : list Unicode := [97; 98; 99; 100].

Definition ids1 : Ids := mkIds 1 2 3 4 5 6 7.

(** The loop after the first character of a line in one style, in front of
    an offset of 4 units; and that offset. *)
Definition st_gap (r : Renderer Registry) : Loop :=
  mkLoop r [state_of ids1 0 0] [] [Some 0%nat; None] 1 0 0%float 0 1.
Definition o_gap : Offset := mkOffset 1 4%float.

(** Three more offsets at that place: one within [h_eps] of zero, one of the
    width of a space (0 + 0 + 0.25 * 10), and one that moves back. *)
Definition o_small : Offset := mkOffset 1 0.5%float.
Definition o_space : Offset := mkOffset 1 2.5%float.
Definition o_back : Offset := mkOffset 1 (-30)%float.

(** Scenario D: a segment without a space and the offsets 120, 120, 85. *)
Definition line_d : TextLineBuffer :=
  run_ops empty_buffer
    [AppendState rend; AppendUnicodes [97]; AppendOffset 120%float; AppendUnicodes [98];
     AppendOffset 120%float; AppendUnicodes [99]; AppendOffset 85%float; AppendUnicodes [100]].

(** Scenario E: three open elements, starting at 0, 2 and 5, the innermost
    on top; the new state matches the outermost one exactly. *)
Definition sts_e : list State :=
  [with_need_close (state_of ids1 0 0) true;
   with_need_close (state_of (mkIds 1 2 3 4 5 6 8) 0 2) true;
   with_need_close (state_of (mkIds 1 2 3 4 5 9 8) 0 5) true].
Definition cur_e : State := state_of ids1 0 7.
Definition stack_e : Stack := [Some 2%nat; Some 1%nat; Some 0%nat; None].

(** The loop of scenario E at the state boundary at index 7, the latest
    negative offset recorded at index 3. *)
Definition st_e : Loop := mkLoop rend (sts_e ++ [cur_e]) [] stack_e 3 0 0%float 3 7.

(** Scenario C and its converse: a parent with a free word-spacing channel
    under a state that binds it, and the other way round. *)
Definition parent_free_ws : State := state_of ids1 word_space_umask 0.
Definition self_bound_ws : State := state_of (mkIds 1 2 3 4 5 9 7) 0 3.


(** A line with text and no style snapshot, and the next line's calls. *)
Definition no_style : TextLineBuffer :=
  run_ops empty_buffer [AppendUnicodes [97] : op (M:=Registry)].
Definition next_line : list (op (M:=Registry)) := [AppendState rend; AppendUnicodes [98]].

(** Lines in one style: one segment, and two segments with the same snapshot. *)
Definition one_style : TextLineBuffer :=
  run_ops empty_buffer [AppendState rend; AppendUnicodes [97]].
Definition two_segments : list (op (M:=Registry)) :=
  [AppendState rend; AppendUnicodes [97; 98]; AppendState rend; AppendUnicodes [99; 100]].

(** The state a snapshot of [rend] opens at index 0. *)
Definition state_d : State := mkState ids1 0 0 0 false font1 10%float 0%float 0%float.


(** A buffer holding one character and one offset record after it. *)
Definition one_offset : TextLineBuffer :=
  run_ops empty_buffer [AppendUnicodes [97] : op (M:=Registry); AppendOffset 3%float].

(** The renderer after a change of font size. *)
Definition rend12 : Renderer Registry :=
  mkRenderer (mkParam 1%float 0.125%float) font1 (reg 0 0%float) (reg 8 12%float) (reg 3 0%float)
   (reg 4 0%float) (reg 5 0%float) (reg 6 0%float) (reg 7 0%float) (reg 0 0%float)
   (reg 0 0%float) (reg 0 0%float) (reg 0 0%float).

(** A line in three segments: font size 10, then 12 behind an offset of 40,
    then 10 again after an offset of -30; the last segment holds a space. *)
Definition three_segments : list (op (M:=Registry)) :=
  [AppendState rend; AppendUnicodes [97; 98]; AppendOffset 40%float; AppendState rend12;
   AppendUnicodes [99]; AppendOffset (-30)%float; AppendUnicodes [100]; AppendState rend;
   AppendUnicodes [101; 32; 102]].
Definition line_three : TextLineBuffer := run_ops empty_buffer three_segments.

(** A renderer at font size 12 and word spacing -33: the advance of a space
    is -33 + 0 + 0.25 * 12 = -30. *)
Definition rend_neg : Renderer Registry :=
  mkRenderer (mkParam 1%float 0.125%float) font1 (reg 0 0%float) (reg 8 12%float) (reg 3 0%float)
   (reg 4 0%float) (reg 5 0%float) (reg 9 (-33)%float) (reg 7 0%float) (reg 0 0%float)
   (reg 0 0%float) (reg 0 0%float) (reg 0 0%float).

(** A line in three segments, each with a space in its text; in the second
    one, at index 4, an offset of -30, the advance of its space. *)
Definition line_neg : TextLineBuffer :=
  run_ops empty_buffer
    [AppendState rend; AppendUnicodes [97; 32]; AppendState rend_neg; AppendUnicodes [98; 32];
     AppendOffset (-30)%float; AppendUnicodes [99]; AppendState rend; AppendUnicodes [100; 32]].

(** A segment without a space and one offset of width 1.25 - 2^-21, just
    below the threshold 1.25. *)
Definition line_below : TextLineBuffer :=
  run_ops empty_buffer
    [AppendState rend; AppendUnicodes [97]; AppendOffset 0x1.3ffff8p+0%float; AppendUnicodes [98]].

(** A renderer whose transform has the id 9, and a line anchored with it at (3, 4). *)
Definition rend_at : Renderer Registry :=
  mkRenderer (mkParam 1%float 0.125%float) font1 (reg 9 0%float) (reg 2 10%float) (reg 3 0%float)
   (reg 4 0%float) (reg 5 0%float) (reg 6 0%float) (reg 7 0%float) (reg 0 0%float)
   (reg 0 0%float) (reg 0 0%float) (reg 0 0%float).

Definition line_at : TextLineBuffer :=
  run_ops (set_pos rend_at empty_buffer 3%float 4%float)
    [AppendState rend; AppendUnicodes [97]; AppendOffset 120%float; AppendUnicodes [98]].

(** * Proofs

    ** The channel masks *)

Lemma umask_testbit i n : 0 <= n ->
  Z.testbit (umask_by_id i) n = (8 * Z.of_nat i <=? n) && (n <? 8 * Z.of_nat i + 8).
Proof.
  intros Hn. unfold umask_by_id. change 255 with (Z.ones 8).
  rewrite Z.shiftl_spec by lia.
  rewrite Z.testbit_ones by lia.
  destruct (Z.leb_spec (8 * Z.of_nat i) n), (Z.leb_spec 0 (n - 8 * Z.of_nat i)),
    (Z.ltb_spec (n - 8 * Z.of_nat i) 8), (Z.ltb_spec n (8 * Z.of_nat i + 8)); simpl; try lia; reflexivity.
Qed.

Lemma umask_shift k : Z.shiftl (umask_by_id k) 8 = umask_by_id (S k).
Proof.
  unfold umask_by_id. rewrite Z.shiftl_shiftl by lia. f_equal. lia.
Qed.

Lemma umask_clear_other u j k : j <> k ->
  Z.land (Z.land u (Z.lnot (umask_by_id k))) (umask_by_id j) = Z.land u (umask_by_id j).
Proof.
  intros Hjk. apply Z.bits_inj'. intros n Hn.
  rewrite !Z.land_spec, Z.lnot_spec, !umask_testbit by lia.
  destruct (Z.leb_spec (8 * Z.of_nat k) n), (Z.ltb_spec n (8 * Z.of_nat k + 8)),
    (Z.leb_spec (8 * Z.of_nat j) n), (Z.ltb_spec n (8 * Z.of_nat j + 8)); simpl;
    rewrite ?andb_true_r, ?andb_false_r; try reflexivity; lia.
Qed.

Lemma umask_clear_same u k :
  Z.land (Z.land u (Z.lnot (umask_by_id k))) (umask_by_id k) = 0.
Proof.
  apply Z.bits_inj'. intros n Hn.
  rewrite !Z.land_spec, Z.lnot_spec, Z.bits_0 by lia.
  destruct (Z.testbit (umask_by_id k) n), (Z.testbit u n); reflexivity.
Qed.

(** ** [diff] and [hash] *)

Lemma umask_nonzero i : umask_by_id i <> 0.
Proof.
  intros H. assert (Ht := umask_testbit i (8 * Z.of_nat i) ltac:(lia)).
  rewrite H, Z.bits_0 in Ht.
  destruct (Z.leb_spec (8 * Z.of_nat i) (8 * Z.of_nat i)),
    (Z.ltb_spec (8 * Z.of_nat i) (8 * Z.of_nat i + 8)); simpl in Ht; try discriminate; lia.
Qed.













(** ** [begin], channel by channel *)

Lemma ids_get_set_same a k v : (k < ID_COUNT)%nat -> ids_get (ids_set a k v) k = v.
Proof.
  unfold ID_COUNT. intros Hk.
  do 7 (destruct k as [|k]; [reflexivity|]). lia.
Qed.

Lemma ids_get_set_other a k v j : j <> k -> ids_get (ids_set a k v) j = ids_get a j.
Proof.
  intros Hjk.
  do 7 (destruct k as [|k]; [do 7 (destruct j as [|j]; [reflexivity || congruence|]); reflexivity|]).
  reflexivity.
Qed.

Lemma chan_value_inherit_other j k s p : j <> k ->
  chan_value j (inherit_value k s p) = chan_value j s.
Proof.
  intros Hjk.
  do 6 (destruct k as [|k]; [do 6 (destruct j as [|j]; [reflexivity || congruence|]); reflexivity|]).
  reflexivity.
Qed.

Lemma chan_value_inherit_same k s p :
  chan_value k (inherit_value k s p) = chan_value k p.
Proof. do 6 (destruct k as [|k]; [reflexivity|]). reflexivity. Qed.

Lemma begin_loop_app prev n m : forall i cur_mask acc,
  begin_loop prev i (n + m) cur_mask acc
  = begin_loop prev (i + n) m (Z.shiftl cur_mask (8 * Z.of_nat n)) (begin_loop prev i n cur_mask acc).
Proof.
  induction n as [|n IH]; intros i cur_mask acc.
  - simpl. rewrite Nat.add_0_r, Z.shiftl_0_r. reflexivity.
  - cbn [begin_loop Nat.add]. rewrite IH, Z.shiftl_shiftl by lia.
    replace (S i + n)%nat with (i + S n)%nat by lia.
    replace (8 + 8 * Z.of_nat n) with (8 * Z.of_nat (S n)) by lia. reflexivity.
Qed.

Lemma umask_shift_n k n : Z.shiftl (umask_by_id k) (8 * Z.of_nat n) = umask_by_id (k + n).
Proof. unfold umask_by_id. rewrite Z.shiftl_shiftl by lia. f_equal. lia. Qed.

(** The step on channel [k] leaves every other channel as it was. *)
Lemma begin_step_frame prev k j s f out :
  j <> k ->
  let '(s', _, out') := begin_step prev k (umask_by_id k) (s, f, out) in
  chan j s' = chan j s /\ channel_tokens j out' = channel_tokens j out.
Proof.
  intros Hjk. unfold begin_step.
  destruct (is_set (hash_umask s) (umask_by_id k)).
  - destruct prev as [p|]; [|split; reflexivity].
    destruct (negb (is_set (hash_umask p) (umask_by_id k))); [|split; reflexivity].
    split; [|reflexivity]. unfold chan.
    rewrite chan_value_inherit_other by assumption.
    assert (Hu : hash_umask (inherit_value k
               (with_hash_umask (with_ids s (ids_set (ids s) k (ids_get (ids p) k)))
                  (Z.land (hash_umask s) (Z.lnot (umask_by_id k)))) p)
               = Z.land (hash_umask s) (Z.lnot (umask_by_id k))).
    { do 6 (destruct k as [|k]; [reflexivity|]). reflexivity. }
    assert (Hi : ids (inherit_value k
               (with_hash_umask (with_ids s (ids_set (ids s) k (ids_get (ids p) k)))
                  (Z.land (hash_umask s) (Z.lnot (umask_by_id k)))) p)
               = ids_set (ids s) k (ids_get (ids p) k)).
    { do 6 (destruct k as [|k]; [reflexivity|]). reflexivity. }
    simpl in Hu, Hi |- *. rewrite Hu, Hi.
    rewrite umask_clear_other, ids_get_set_other by assumption. reflexivity.
  - match goal with |- context [if ?c then _ else _] => destruct c end; [split; reflexivity|].
    split; [reflexivity|]. unfold channel_tokens.
    assert (Hne : Nat.eqb j k = false) by (apply Nat.eqb_neq; assumption).
    destruct f, (ids_get (ids s) k =? -1); rewrite !List.filter_app; simpl; rewrite ?Hne;
      rewrite ?app_nil_r; reflexivity.
Qed.

Lemma begin_loop_frame prev j n : forall k s f out,
  (j < k \/ k + n <= j)%nat ->
  let '(s', _, out') := begin_loop prev k n (umask_by_id k) (s, f, out) in
  chan j s' = chan j s /\ channel_tokens j out' = channel_tokens j out.
Proof.
  induction n as [|n IH]; intros k s f out Hj; cbn [begin_loop].
  - split; reflexivity.
  - rewrite umask_shift.
    pose proof (begin_step_frame prev k j s f out ltac:(lia)) as Hs.
    destruct (begin_step prev k (umask_by_id k) (s, f, out)) as [[s1 f1] out1].
    specialize (IH (S k) s1 f1 out1 ltac:(lia)).
    destruct (begin_loop prev (S k) n (umask_by_id (S k)) (s1, f1, out1)) as [[s2 f2] out2].
    destruct Hs as [E1 E2], IH as [E3 E4]. split; congruence.
Qed.

(** The step on channel [k] itself. *)
Lemma begin_step_local prev k s f out : (k < ID_COUNT)%nat ->
  let '(s', f', out') := begin_step prev k (umask_by_id k) (s, f, out) in
  let parent_bound := match prev with Some p => bound p k | None => false end in
  let parent_id := match prev with Some p => ids_get (ids p) k | None => 0 end in
  if bound s k then
    s' = s /\
    (if parent_bound && (parent_id =? ids_get (ids s) k)
     then out' = out /\ f' = f
     else out' = out ++ [if f then SpanBegin else Sep; class_token k (ids_get (ids s) k)]
          /\ f' = false)
  else
    out' = out /\ f' = f /\
    match prev with
    | Some p =>
        if bound p k
        then bound s' k = true /\ ids_get (ids s') k = ids_get (ids p) k
             /\ chan_value k s' = chan_value k p
        else s' = s
    | None => s' = s
    end.
Proof.
  intros Hk. unfold begin_step, bound.
  destruct (is_set (hash_umask s) (umask_by_id k)) eqn:Es; simpl.
  - destruct prev as [p|]; [|auto].
    destruct (is_set (hash_umask p) (umask_by_id k)) eqn:Ep; simpl; [auto|].
    split; [reflexivity|]. split; [reflexivity|].
    set (s2 := with_hash_umask _ _).
    assert (Hu : hash_umask (inherit_value k s2 p)
               = Z.land (hash_umask s) (Z.lnot (umask_by_id k))).
    { do 6 (destruct k as [|k]; [reflexivity|]). reflexivity. }
    assert (Hi : ids (inherit_value k s2 p) = ids_set (ids s) k (ids_get (ids p) k)).
    { do 6 (destruct k as [|k]; [reflexivity|]). reflexivity. }
    unfold is_set. rewrite Hu, Hi, umask_clear_same, ids_get_set_same by assumption.
    rewrite chan_value_inherit_same. auto.
  - unfold class_token. destruct prev as [p|]; simpl.
    + destruct (negb (is_set (hash_umask p) (umask_by_id k)) && (ids_get (ids p) k =? ids_get (ids s) k));
        [auto|].
      destruct f, (ids_get (ids s) k =? -1); rewrite <- ?app_assoc; auto.
    + destruct f, (ids_get (ids s) k =? -1); rewrite <- ?app_assoc; auto.
Qed.

Lemma class_token_is_token k id : is_token (class_token k id) = true.
Proof. unfold class_token. destruct (id =? -1); reflexivity. Qed.

Lemma class_token_is_class k id : is_class_or_sep (class_token k id) = true.
Proof. unfold class_token. destruct (id =? -1); reflexivity. Qed.

Lemma begin_step_shape prev k s f out : (k < ID_COUNT)%nat ->
  begin_shape f out ->
  let '(_, f', out') := begin_step prev k (umask_by_id k) (s, f, out) in
  begin_shape f' out'.
Proof.
  intros Hk Hsh. pose proof (begin_step_local prev k s f out Hk) as Hl.
  destruct (begin_step prev k (umask_by_id k) (s, f, out)) as [[s' f'] out'].
  cbv zeta in Hl. destruct (bound s k).
  - destruct Hl as [_ Hl].
    destruct (_ && _); destruct Hl as [-> ->]; [assumption|].
    unfold begin_shape in *. destruct f.
    + subst out. exists [class_token k (ids_get (ids s) k)]. simpl.
      rewrite class_token_is_class, class_token_is_token. repeat split; congruence.
    + destruct Hsh as (body & -> & Hall & Htok).
      exists (body ++ [Sep; class_token k (ids_get (ids s) k)]). repeat split.
      * rewrite forallb_app, Hall. simpl. rewrite class_token_is_class. reflexivity.
      * rewrite List.filter_app. simpl. rewrite class_token_is_token.
        intros E. apply app_eq_nil in E. destruct E; congruence.
  - destruct Hl as (-> & -> & _). assumption.
Qed.

Lemma begin_loop_shape prev n : forall k s f out,
  (k + n <= ID_COUNT)%nat -> begin_shape f out ->
  let '(_, f', out') := begin_loop prev k n (umask_by_id k) (s, f, out) in
  begin_shape f' out'.
Proof.
  induction n as [|n IH]; intros k s f out Hk Hsh; cbn [begin_loop].
  - assumption.
  - rewrite umask_shift.
    pose proof (begin_step_shape prev k s f out ltac:(lia) Hsh) as Hs.
    destruct (begin_step prev k (umask_by_id k) (s, f, out)) as [[s1 f1] out1].
    apply IH; [lia|assumption].
Qed.

(** The state keeps its position, its packed key and its font. *)
Lemma begin_step_fields prev k s f out :
  let '(s', _, _) := begin_step prev k (umask_by_id k) (s, f, out) in
  start_idx s' = start_idx s /\ hash_value s' = hash_value s /\ need_close s' = need_close s
  /\ font_info s' = font_info s.
Proof.
  unfold begin_step.
  destruct (is_set (hash_umask s) (umask_by_id k)).
  - destruct prev as [p|]; [|auto].
    destruct (negb _); [|auto].
    do 6 (destruct k as [|k]; [auto|]). auto.
  - destruct (match prev with Some _ => _ | None => _ end); auto.
Qed.

Lemma begin_loop_fields prev n : forall k s f out,
  let '(s', _, _) := begin_loop prev k n (umask_by_id k) (s, f, out) in
  start_idx s' = start_idx s /\ hash_value s' = hash_value s /\ need_close s' = need_close s
  /\ font_info s' = font_info s.
Proof.
  induction n as [|n IH]; intros k s f out; cbn [begin_loop].
  - auto.
  - rewrite umask_shift.
    pose proof (begin_step_fields prev k s f out) as Hs.
    destruct (begin_step prev k (umask_by_id k) (s, f, out)) as [[s1 f1] out1].
    specialize (IH (S k) s1 f1 out1).
    destruct (begin_loop prev (S k) n (umask_by_id (S k)) (s1, f1, out1)) as [[s2 f2] out2].
    destruct Hs as (? & ? & ? & ?), IH as (? & ? & ? & ?). repeat split; congruence.
Qed.

Lemma begin_start_idx s prev : start_idx (snd (begin s prev)) = start_idx s.
Proof.
  unfold begin. pose proof (begin_loop_fields prev ID_COUNT 0 s true []) as H.
  change (umask_by_id 0) with 255 in H.
  destruct (begin_loop prev 0 ID_COUNT 255 (s, true, [])) as [[s' f'] out'].
  destruct f'; simpl; apply H.
Qed.

Lemma count_opened_app a b : count_opened (a ++ b) = (count_opened a + count_opened b)%nat.
Proof. unfold count_opened. rewrite map_app, list_sum_app. reflexivity. Qed.

Lemma count_closed_app a b : count_closed (a ++ b) = (count_closed a + count_closed b)%nat.
Proof. unfold count_closed. rewrite map_app, list_sum_app. reflexivity. Qed.

Lemma class_or_sep_counts body : forallb is_class_or_sep body = true ->
  count_opened body = 0%nat /\ count_closed body = 0%nat.
Proof.
  induction body as [|c body IH]; simpl; [auto|].
  intros H. apply andb_true_iff in H. destruct H as [Hc Hb].
  destruct (IH Hb) as [Ho Hcl]. unfold count_opened, count_closed in *. simpl.
  rewrite Ho, Hcl. destruct c; simpl in Hc; try discriminate; auto.
Qed.

(** What [begin] writes: nothing, or one opening tag. *)
Lemma begin_out s prev :
  if need_close (snd (begin s prev))
  then count_opened (fst (begin s prev)) = 1%nat /\ count_closed (fst (begin s prev)) = 0%nat
       /\ List.filter is_token (fst (begin s prev)) <> []
  else fst (begin s prev) = [].
Proof.
  unfold begin.
  pose proof (begin_loop_shape prev ID_COUNT 0 s true [] ltac:(lia) eq_refl) as Hsh.
  change (umask_by_id 0) with 255 in Hsh.
  destruct (begin_loop prev 0 ID_COUNT 255 (s, true, [])) as [[s' f'] out'].
  destruct f'; simpl; [reflexivity|].
  destruct Hsh as (body & -> & Hall & Htok).
  destruct (class_or_sep_counts body Hall) as [Ho Hc].
  change (SpanBegin :: body) with ([SpanBegin] ++ body).
  rewrite !count_opened_app, !count_closed_app, Ho, Hc. repeat split.
  rewrite <- app_assoc, !List.filter_app. simpl.
  intros E. apply app_eq_nil in E. destruct E; congruence.
Qed.

Lemma chan_bound i s s' : chan i s' = chan i s ->
  bound s' i = bound s i /\ ids_get (ids s') i = ids_get (ids s) i
  /\ chan_value i s' = chan_value i s.
Proof. unfold chan, bound, is_set. intros [= -> -> ->]. auto. Qed.

Lemma channel_tokens_class i id : channel_tokens i [class_token i id] = [class_token i id].
Proof. unfold channel_tokens, class_token. destruct (id =? -1); simpl; rewrite Nat.eqb_refl; reflexivity. Qed.

Lemma begin_channel self prev_state i : (i < ID_COUNT)%nat ->
  channel_outcome self prev_state i (fst (begin self prev_state)) (snd (begin self prev_state)).
Proof.
  intros Hi. unfold begin.
  assert (E : begin_loop prev_state 0 ID_COUNT 255 (self, true, [])
            = begin_loop prev_state (S i) (ID_COUNT - S i) (umask_by_id (S i))
                (begin_step prev_state i (umask_by_id i)
                   (begin_loop prev_state 0 i (umask_by_id 0) (self, true, [])))).
  { replace ID_COUNT with (i + S (ID_COUNT - S i))%nat at 1 by lia.
    rewrite begin_loop_app. change 255 with (umask_by_id 0). rewrite umask_shift_n.
    cbn [begin_loop Nat.add]. rewrite umask_shift. reflexivity. }
  rewrite E. clear E.
  pose proof (begin_loop_frame prev_state i i 0 self true [] ltac:(lia)) as H1.
  pose proof (begin_loop_shape prev_state i 0 self true [] ltac:(lia) eq_refl) as Hsh1.
  destruct (begin_loop prev_state 0 i (umask_by_id 0) (self, true, [])) as [[s1 f1] out1].
  destruct H1 as [C1 T1]. apply chan_bound in C1. destruct C1 as (B1 & I1 & V1).
  pose proof (begin_step_local prev_state i s1 f1 out1 Hi) as H2.
  pose proof (begin_step_shape prev_state i s1 f1 out1 Hi Hsh1) as Hsh2.
  destruct (begin_step prev_state i (umask_by_id i) (s1, f1, out1)) as [[s2 f2] out2].
  pose proof (begin_loop_frame prev_state i (ID_COUNT - S i) (S i) s2 f2 out2 ltac:(lia)) as H3.
  pose proof (begin_loop_shape prev_state (ID_COUNT - S i) (S i) s2 f2 out2 ltac:(lia) Hsh2) as Hsh3.
  destruct (begin_loop prev_state (S i) (ID_COUNT - S i) (umask_by_id (S i)) (s2, f2, out2))
    as [[s3 f3] out3].
  destruct H3 as [C3 T3]. apply chan_bound in C3. destruct C3 as (B3 & I3 & V3).
  assert (Hout : channel_tokens i (if f3 then [] else out3 ++ [SpanBeginEnd]) = channel_tokens i out3).
  { destruct f3; [rewrite Hsh3; reflexivity|].
    unfold channel_tokens. rewrite List.filter_app. simpl. apply app_nil_r. }
  assert (Hfin : let r := (if f3 then ([], with_need_close s3 false)
                           else (out3 ++ [SpanBeginEnd], with_need_close s3 true)) in
                 channel_tokens i (fst r) = channel_tokens i out2 /\
                 bound (snd r) i = bound s2 i /\ ids_get (ids (snd r)) i = ids_get (ids s2) i
                 /\ chan_value i (snd r) = chan_value i s2).
  { cbv zeta. destruct f3; simpl in *; rewrite <- ?T3, ?Hout;
      (split; [assumption || (symmetry; assumption) || idtac
              | split; [|split]; [rewrite <- B3 | rewrite <- I3 | rewrite <- V3];
                clear; do 6 (destruct i as [|i]; [reflexivity|]); reflexivity]).
    - rewrite T3. reflexivity.
    - rewrite T3. reflexivity. }
  cbv zeta in Hfin. destruct Hfin as (Ft & Fb & Fi & Fv).
  change (channel_outcome self prev_state i
            (fst (if f3 then ([], with_need_close s3 false)
                  else (out3 ++ [SpanBeginEnd], with_need_close s3 true)))
            (snd (if f3 then ([], with_need_close s3 false)
                  else (out3 ++ [SpanBeginEnd], with_need_close s3 true)))).
  unfold channel_outcome. cbv zeta in H2 |- *. rewrite <- B1, <- I1.
  rewrite Ft, Fb, Fi, Fv. simpl in T1.
  destruct (bound s1 i) eqn:Eb.
  - destruct H2 as [-> H2]. split; [assumption|]. split; [reflexivity|].
    destruct (_ && _); destruct H2 as [-> _]; [assumption|].
    unfold channel_tokens in *. rewrite List.filter_app, T1. simpl.
    destruct f1; simpl; fold (channel_tokens i [class_token i (ids_get (ids s1) i)]);
      apply channel_tokens_class.
  - destruct H2 as (-> & _ & H2). split; [assumption|].
    destruct prev_state as [p|].
    + destruct (bound p i); [assumption|]. subst s2. auto.
    + subst s2. auto.
Qed.

Lemma count_chunks_app f a b : count_chunks f (a ++ b) = (count_chunks f a + count_chunks f b)%nat.
Proof. unfold count_chunks. rewrite List.filter_app, length_app. reflexivity. Qed.

(** Under a parent with the same mask and the same ids, [begin] writes
    nothing and changes nothing but [need_close]. *)
Lemma begin_loop_same s p n : forall i cur_mask f out,
  hash_umask s = hash_umask p -> ids s = ids p ->
  begin_loop (Some p) i n cur_mask (s, f, out) = (s, f, out).
Proof.
  induction n as [|n IH]; intros i cur_mask f out Hu Hi; [reflexivity|].
  cbn [begin_loop].
  assert (E : begin_step (Some p) i cur_mask (s, f, out) = (s, f, out)).
  { unfold begin_step. rewrite <- Hu, <- Hi.
    destruct (is_set (hash_umask s) cur_mask); simpl; [reflexivity|].
    rewrite Z.eqb_refl. reflexivity. }
  rewrite E. apply IH; assumption.
Qed.

Lemma begin_same s p :
  hash_umask s = hash_umask p -> ids s = ids p ->
  begin s (Some p) = ([], with_need_close s false).
Proof. intros Hu Hi. unfold begin. rewrite begin_loop_same by assumption. reflexivity. Qed.

(** Without a parent the state is left as it is, and a tag is opened as soon
    as one channel is bound. *)
Lemma begin_step_root k s f out :
  let '(s', f', _) := begin_step None k (umask_by_id k) (s, f, out) in
  s' = s /\ f' = f && negb (bound s k).
Proof.
  unfold begin_step, bound.
  destruct (is_set (hash_umask s) (umask_by_id k)); simpl.
  - rewrite andb_true_r. auto.
  - rewrite andb_false_r. auto.
Qed.

Lemma begin_loop_root n : forall k s f out,
  let '(s', f', _) := begin_loop None k n (umask_by_id k) (s, f, out) in
  s' = s /\ (f' = true -> f = true /\ forall j, (k <= j < k + n)%nat -> bound s j = false).
Proof.
  induction n as [|n IH]; intros k s f out; cbn [begin_loop].
  - split; [reflexivity|]. intros ->. split; [reflexivity|]. intros; lia.
  - rewrite umask_shift.
    pose proof (begin_step_root k s f out) as Hs.
    destruct (begin_step None k (umask_by_id k) (s, f, out)) as [[s1 f1] out1].
    destruct Hs as [-> ->].
    specialize (IH (S k) s (f && negb (bound s k)) out1).
    destruct (begin_loop None (S k) n (umask_by_id (S k)) (s, f && negb (bound s k), out1))
      as [[s2 f2] out2].
    destruct IH as [-> IH]. split; [reflexivity|]. intros Hf.
    destruct (IH Hf) as [Hand Hall]. apply andb_true_iff in Hand. destruct Hand as [-> Hb].
    split; [reflexivity|]. intros j Hj.
    destruct (decide (j = k)) as [->|Hne]; [apply negb_true_iff; assumption|].
    apply Hall. lia.
Qed.

Lemma begin_root s i :
  (i < ID_COUNT)%nat -> bound s i = true ->
  snd (begin s None) = with_need_close s true
  /\ count_chunks is_span_begin (fst (begin s None)) = 1%nat
  /\ count_chunks is_line_open (fst (begin s None)) = 0%nat.
Proof.
  intros Hi Hb. unfold begin.
  pose proof (begin_loop_root ID_COUNT 0 s true []) as Hr.
  pose proof (begin_loop_shape None ID_COUNT 0 s true [] ltac:(lia) eq_refl) as Hsh.
  change (umask_by_id 0) with 255 in Hr, Hsh.
  destruct (begin_loop None 0 ID_COUNT 255 (s, true, [])) as [[s' f'] out'].
  destruct Hr as [-> Hr]. destruct f'.
  - destruct (Hr eq_refl) as [_ Hall]. rewrite (Hall i) in Hb by lia. discriminate.
  - simpl. split; [reflexivity|].
    destruct Hsh as (body & -> & Hall & _).
    assert (Hc : forall f, (forall c, is_class_or_sep c = true -> f c = false) ->
                 count_chunks f body = 0%nat).
    { intros f Hf. unfold count_chunks. clear -Hall Hf.
      induction body as [|c body IH]; [reflexivity|]. simpl in Hall.
      apply andb_true_iff in Hall. destruct Hall as [Hc Hall]. simpl.
      rewrite (Hf c Hc). apply IH. exact Hall. }
    change (SpanBegin :: body) with ([SpanBegin] ++ body).
    rewrite !count_chunks_app, !Hc.
    + split; reflexivity.
    + intros c Hcs. destruct c; simpl in *; congruence.
    + intros c Hcs. destruct c; simpl in *; congruence.
Qed.

Lemma diff_same a b :
  hash_umask a = hash_umask b -> hash_value a = hash_value b -> diff a b = 0.
Proof. intros Hu Hv. unfold diff. rewrite Hu, Hv, Z.eqb_refl. reflexivity. Qed.

(** ** Word-space inference *)

Section Segments.
Context {M : Type} {SM : StateManager M} {MU : MathUtil}.

Lemma filter_none {A} (f : A -> bool) l : Forall (fun a => f a = false) l -> List.filter f l = [].
Proof. induction 1 as [|a l Ha _ IH]; simpl; [reflexivity|]. rewrite Ha. exact IH. Qed.

Lemma filter_all {A} (f : A -> bool) l : Forall (fun a => f a = true) l -> List.filter f l = l.
Proof. induction 1 as [|a l Ha _ IH]; simpl; [reflexivity|]. rewrite Ha, IH. reflexivity. Qed.

Lemma skip_offsets_split i1 it :
  exists d, it = d ++ skip_offsets i1 it
            /\ Forall (fun o => (o_start_idx o < i1)%nat) d
            /\ (forall o, head (skip_offsets i1 it) = Some o -> (i1 <= o_start_idx o)%nat).
Proof.
  induction it as [|o it IH]; simpl.
  - exists []. repeat split; [constructor | discriminate].
  - destruct (Nat.ltb_spec (o_start_idx o) i1).
    + destruct IH as (d & E & Hd & Hh). exists (o :: d). repeat split.
      * simpl. congruence.
      * constructor; assumption.
      * assumption.
    + exists []. repeat split; [constructor|]. simpl. intros ? [= <-]. assumption.
Qed.

Lemma collect_widths_split threshold i2 it : forall wm,
  exists d, it = d ++ snd (collect_widths threshold i2 it wm)
            /\ Forall (fun o => (o_start_idx o < i2)%nat) d
            /\ fst (collect_widths threshold i2 it wm)
               = fold_left add_width (map width (List.filter (qualifies threshold) d)) wm
            /\ (forall o, head (snd (collect_widths threshold i2 it wm)) = Some o ->
                  (i2 <= o_start_idx o)%nat).
Proof.
  induction it as [|o it IH]; intros wm; simpl.
  - exists []. repeat split; [constructor | discriminate].
  - destruct (Nat.ltb_spec (o_start_idx o) i2).
    + assert (Q : qualifies threshold o = negb (width o <? threshold - EPS)%float) by reflexivity.
      destruct (width o <? threshold - EPS)%float eqn:E.
      * destruct (IH wm) as (d & E1 & Hd & Hf & Hh). exists (o :: d).
        cbn [List.filter]. rewrite Q. simpl. repeat split; try assumption.
        -- congruence.
        -- constructor; assumption.
      * destruct (IH (add_width wm (width o))) as (d & E1 & Hd & Hf & Hh). exists (o :: d).
        cbn [List.filter]. rewrite Q. simpl. repeat split; try assumption.
        -- congruence.
        -- constructor; assumption.
    + exists []. repeat split; [constructor|]. simpl. intros ? [= <-]. assumption.
Qed.

(** A sorted list whose head is at or after [i] lies at or after [i]. *)
Lemma sorted_from_head (l : list Offset) i :
  StronglySorted lt (map o_start_idx l) ->
  (forall o, head l = Some o -> (i <= o_start_idx o)%nat) ->
  Forall (fun o => (i <= o_start_idx o)%nat) l.
Proof.
  destruct l as [|o l]; [constructor|]. simpl. intros Hs Hh.
  apply StronglySorted_cons in Hs. destruct Hs as [Hall _].
  specialize (Hh o eq_refl). constructor; [assumption|].
  rewrite Forall_fmap in Hall. eapply Forall_impl; [exact Hall|]. intros x Hx. cbv [compose] in Hx. lia.
Qed.

Lemma segment_widths_split threshold i1 i2 (a b c : list Offset) :
  Forall (fun o => (o_start_idx o < i1)%nat) a ->
  Forall (fun o => (i1 <= o_start_idx o < i2)%nat) b ->
  Forall (fun o => (i2 <= o_start_idx o)%nat) c ->
  segment_widths threshold i1 i2 (a ++ b ++ c) = map width (List.filter (qualifies threshold) b).
Proof.
  intros Ha Hb Hc. unfold segment_widths.
  rewrite !List.filter_app.
  rewrite (filter_none (in_segment i1 i2) a), (filter_all (in_segment i1 i2) b),
    (filter_none (in_segment i1 i2) c).
  - rewrite app_nil_r. reflexivity.
  - eapply Forall_impl; [exact Hc|]. intros o Ho. unfold in_segment.
    apply andb_false_iff. right. apply Nat.ltb_ge. exact Ho.
  - eapply Forall_impl; [exact Hb|]. intros o Ho. cbv beta in Ho. unfold in_segment.
    apply andb_true_iff. split; [apply Nat.leb_le | apply Nat.ltb_lt]; lia.
  - eapply Forall_impl; [exact Ha|]. intros o Ho. unfold in_segment.
    apply andb_false_iff. left. apply Nat.leb_gt. exact Ho.
Qed.

Lemma map_insert_nonempty m key v : map_insert m key v <> [].
Proof.
  destruct m as [|[k c] m]; simpl; [discriminate|].
  destruct (k <? key)%float; [discriminate|]. destruct (key <? k)%float; discriminate.
Qed.

Lemma add_width_nonempty m t : add_width m t <> [].
Proof.
  unfold add_width. destruct (lower_bound m (t - EPS)%float) as [before after].
  destruct after as [|[k c] after']; [apply map_insert_nonempty|].
  destruct (abs (k - t) <=? EPS)%float; [|apply map_insert_nonempty].
  intros E. apply app_eq_nil in E. destruct E; discriminate.
Qed.

Lemma fold_add_width_nonempty ws : forall m, m <> [] -> fold_left add_width ws m <> [].
Proof.
  induction ws as [|w ws IH]; intros m Hm; simpl; [assumption|].
  apply IH, add_width_nonempty.
Qed.

Lemma buckets_nil ws : buckets ws = [] <-> ws = [].
Proof.
  unfold buckets. split.
  - destruct ws as [|w ws]; [reflexivity|]. simpl. intros E.
    exfalso. eapply fold_add_width_nonempty; [|exact E]. apply add_width_nonempty.
  - intros ->. reflexivity.
Qed.

End Segments.

(** The scan for the most used width returns the first entry whose count is
    the largest. *)
Lemma max_count_nonneg groups : 0 <= max_count groups.
Proof. induction groups as [|g groups IH]; simpl; lia. Qed.

Lemma most_used_first (m : WidthMap) : forall acc,
  0 <= snd acc ->
  fold_left most_used_step m acc
  = if max_count m <=? snd acc then acc
    else match List.find (fun g => snd g =? max_count m) m with
         | Some g => g
         | None => acc
         end.
Proof.
  induction m as [|g m IH]; intros [w0 c0] H0; cbn [snd] in *.
  - cbn. destruct (Z.leb_spec 0 c0); [reflexivity|lia].
  - cbn [fold_left List.find]. pose proof (max_count_nonneg m) as Hm.
    change (max_count (g :: m)) with (Z.max (snd g) (max_count m)).
    unfold most_used_step at 2. destruct (Z.ltb_spec c0 (snd g)) as [Hlt|Hge].
    + rewrite IH by (cbn [snd]; lia). cbn [snd].
      destruct (Z.leb_spec (Z.max (snd g) (max_count m)) c0) as [?|_]; [lia|].
      destruct (Z.leb_spec (max_count m) (snd g)) as [Hle|Hgt].
      * rewrite Z.max_l by lia. rewrite Z.eqb_refl. destruct g; reflexivity.
      * rewrite Z.max_r by lia.
        destruct (Z.eqb_spec (snd g) (max_count m)) as [?|_]; [lia|].
        destruct (List.find _ m) eqn:Ef; [reflexivity|].
        exfalso. clear - Ef Hgt Hlt H0.
        assert (G : forall l, List.find (fun g0 : double * Z => snd g0 =? max_count m) l = None ->
                      Forall (fun g0 => snd g0 <> max_count m) l).
        { induction l as [|a l IHl]; [constructor|]. cbn [List.find].
          destruct (Z.eqb_spec (snd a) (max_count m)); [discriminate|].
          intros E. constructor; auto. }
        apply G in Ef. clear G.
        assert (G2 : forall l v, 0 <= v -> Forall (fun g0 : double * Z => snd g0 <> v) l ->
                       max_count l = v -> v = 0).
        { induction l as [|a l IHl]; intros v Hv Hall E; [symmetry; exact E|].
          apply Forall_cons in Hall. destruct Hall as [Ha Hall].
          change (max_count (a :: l)) with (Z.max (snd a) (max_count l)) in E.
          apply IHl; [assumption|assumption|]. lia. }
        specialize (G2 m (max_count m) ltac:(lia) Ef eq_refl). lia.
    + rewrite IH by (cbn [snd]; lia). cbn [snd].
      destruct (Z.leb_spec (max_count m) c0) as [Hle|Hgt].
      * destruct (Z.leb_spec (Z.max (snd g) (max_count m)) c0); [reflexivity|lia].
      * destruct (Z.leb_spec (Z.max (snd g) (max_count m)) c0); [lia|].
        rewrite Z.max_r by lia.
        destruct (Z.eqb_spec (snd g) (max_count m)) as [?|_]; [lia|]. reflexivity.
Qed.

Lemma most_used_most_frequent (m : WidthMap) :
  m <> [] -> Forall (fun e => 1 <= snd e) m -> fst (most_used m) = most_frequent m.
Proof.
  intros Hne Hpos. unfold most_used, most_frequent.
  rewrite most_used_first by (simpl; lia). cbn [snd].
  destruct m as [|g m]; [congruence|]. apply Forall_cons in Hpos. destruct Hpos as [Hg _].
  pose proof (max_count_nonneg m).
  destruct (Z.leb_spec (max_count (g :: m)) 0) as [Hle|_].
  { change (max_count (g :: m)) with (Z.max (snd g) (max_count m)) in Hle. lia. }
  destruct (List.find _ (g :: m)); reflexivity.
Qed.

Lemma lower_bound_app m v : fst (lower_bound m v) ++ snd (lower_bound m v) = m.
Proof.
  induction m as [|[k c] m IH]; simpl; [reflexivity|].
  destruct (k <? v)%float; [|reflexivity].
  destruct (lower_bound m v) as [b a]. simpl in *. congruence.
Qed.

Lemma map_insert_Forall (P : double * Z -> Prop) m key v :
  Forall P m -> P (key, v) -> Forall P (map_insert m key v).
Proof.
  intros Hm Hv. induction m as [|[k c] m IH]; simpl.
  - constructor; [assumption|constructor].
  - apply Forall_cons in Hm. destruct Hm as [Hk Hm].
    destruct (k <? key)%float; [constructor; auto|].
    destruct (key <? k)%float; repeat constructor; auto.
Qed.

Section Buckets.
Context {MU : MathUtil}.

Lemma add_width_Forall (P : double * Z -> Prop) m t :
  Forall P m -> P (t, 1) -> (forall k c, P (k, c) -> P (k, c + 1)) ->
  Forall P (add_width m t).
Proof.
  intros Hm Ht Hinc. unfold add_width.
  pose proof (lower_bound_app m (t - EPS)%float) as E.
  destruct (lower_bound m (t - EPS)%float) as [before after]. simpl in E.
  destruct after as [|[k c] after']; [apply map_insert_Forall; assumption|].
  destruct (abs (k - t) <=? EPS)%float; [|apply map_insert_Forall; assumption].
  rewrite <- E in Hm. apply Forall_app in Hm. destruct Hm as [Hb Ha].
  apply Forall_cons in Ha. destruct Ha as [Hk Ha].
  apply Forall_app. split; [assumption|]. constructor; [apply Hinc|]; assumption.
Qed.

(** Every bucket stands for one of the widths and counts at least one of them. *)
Lemma buckets_entries ws :
  Forall (fun e => In (fst e) ws /\ 1 <= snd e) (buckets ws).
Proof.
  unfold buckets.
  assert (G : forall m, Forall (fun e => In (fst e) ws /\ 1 <= snd e) m ->
              forall l, incl l ws ->
              Forall (fun e => In (fst e) ws /\ 1 <= snd e) (fold_left add_width l m)).
  { intros m Hm l. revert m Hm. induction l as [|w l IH]; intros m Hm Hl; simpl; [assumption|].
    apply IH.
    - apply add_width_Forall; [assumption| |].
      + simpl. split; [apply Hl; left; reflexivity | lia].
      + simpl. intros k c [? ?]. split; [assumption|lia].
    - intros a Ha. apply Hl. right. assumption. }
  apply G; [constructor | apply incl_refl].
Qed.

End Buckets.

(** *** The specification's words and the loops of the code *)

Lemma existsb_slice (p : Unicode -> bool) txt n : forall i,
  existsb p (take n (drop i txt))
  = existsb (fun j => match txt !! j with Some u => p u | None => false end) (seq i n).
Proof.
  induction n as [|n IH]; intros i; [reflexivity|].
  cbn [seq existsb]. rewrite <- IH.
  destruct (txt !! i) as [u|] eqn:E.
  - rewrite (drop_S _ _ _ E). reflexivity.
  - apply lookup_ge_None in E. rewrite !drop_ge by lia. rewrite !take_nil. reflexivity.
Qed.

Lemma has_space_spaceless txt i1 i2 :
  has_space (slice txt i1 i2) = negb (spaceless txt i1 i2).
Proof.
  unfold has_space, slice, spaceless. rewrite existsb_slice.
  generalize (seq i1 (i2 - i1)). intros l.
  induction l as [|j l IH]; [reflexivity|].
  cbn [existsb forallb]. rewrite IH, negb_andb.
  destruct (txt !! j) as [u|]; [|reflexivity].
  rewrite negb_involutive. unfold SPACE. rewrite Z.eqb_sym. reflexivity.
Qed.

Lemma filter_filter {A} (f g : A -> bool) l :
  List.filter f (List.filter g l) = List.filter (fun a => g a && f a) l.
Proof.
  induction l as [|a l IH]; [reflexivity|]. cbn [List.filter].
  destruct (g a); cbn [List.filter andb]; [|exact IH].
  destruct (f a); rewrite IH; reflexivity.
Qed.

Lemma lower_bound_find (m : WidthMap) v :
  List.find (fun g => negb (fst g <? v)%float) m = head (snd (lower_bound m v)).
Proof.
  induction m as [|[k c] m IH]; [reflexivity|]. cbn [List.find lower_bound fst].
  destruct (k <? v)%float; cbn [negb]; [|reflexivity].
  destruct (lower_bound m v) as [before after]. exact IH.
Qed.

Lemma place_map_insert (m : WidthMap) w : place m w = map_insert m w 1.
Proof.
  induction m as [|[k c] m IH]; [reflexivity|]. cbn [place map_insert].
  rewrite IH. reflexivity.
Qed.

Section Refinement.
Context {M : Type} {SM : StateManager M} {MU : MathUtil}.

Lemma lower_bound_bump (m : WidthMap) w k c after :
  snd (lower_bound m (w - EPS)%float) = (k, c) :: after ->
  bump m w = fst (lower_bound m (w - EPS)%float) ++ (k, c + 1) :: after.
Proof.
  induction m as [|[k0 c0] m IH]; [discriminate|]. cbn [bump lower_bound].
  destruct (k0 <? w - EPS)%float.
  - destruct (lower_bound m (w - EPS)%float) as [before after0]. cbn [fst snd] in *.
    intros E. rewrite (IH E). reflexivity.
  - cbn [fst snd]. intros [= -> -> ->]. reflexivity.
Qed.

Lemma add_width_join (m : WidthMap) w : add_width m w = join m w.
Proof.
  unfold add_width, join. rewrite lower_bound_find.
  pose proof (lower_bound_bump m w) as Hb.
  destruct (lower_bound m (w - EPS)%float) as [before after]. cbn [fst snd] in *.
  destruct after as [|[k c] after]; cbn [head].
  - rewrite place_map_insert. reflexivity.
  - destruct (abs (k - w) <=? EPS)%float.
    + rewrite (Hb k c after eq_refl). reflexivity.
    + rewrite place_map_insert. reflexivity.
Qed.

Lemma buckets_group_widths ws : buckets ws = group_widths ws.
Proof.
  unfold buckets, group_widths. generalize (@nil (double * Z)).
  induction ws as [|w ws IH]; intros m; [reflexivity|]. cbn [fold_left].
  rewrite add_width_join. apply IH.
Qed.

Lemma segment_widths_qualifying th (s : State) seg_end offs :
  segment_widths (em_size s * th)%float (start_idx s) seg_end offs
  = qualifying_widths th s seg_end offs.
Proof. unfold segment_widths, qualifying_widths. rewrite filter_filter. reflexivity. Qed.

End Refinement.

Section OptimizeLoop.
Context {M : Type} {SM : StateManager M} {MU : MathUtil}.

Lemma optimize_loop_length th txt sts : forall it (wm : M),
  length (fst (optimize_loop th txt it wm sts)) = length sts.
Proof.
  induction sts as [|s1 rest IH]; intros it wm; [reflexivity|].
  cbn [optimize_loop].
  destruct (has_space _).
  - specialize (IH it wm). destruct (optimize_loop th txt it wm rest). simpl in *. congruence.
  - destruct (collect_widths _ _ _ _) as [width_map it2].
    destruct width_map as [|e width_map].
    + specialize (IH it2 wm). destruct (optimize_loop th txt it2 wm rest). simpl in *. congruence.
    + destruct (install wm _) as [[id actual] wm1].
      specialize (IH it2 wm1). destruct (optimize_loop th txt it2 wm1 rest). simpl in *. congruence.
Qed.

(** The loop of [optimize], with its iterator shared between the segments,
    does what the specification says segment by segment. *)
Lemma optimize_loop_infer th txt sts : forall it (wm : M) passed,
  StronglySorted lt (map start_idx sts) ->
  StronglySorted lt (map o_start_idx (passed ++ it)) ->
  (forall s1, head sts = Some s1 ->
     Forall (fun o => (o_start_idx o < start_idx s1)%nat) passed) ->
  optimize_loop th txt it wm sts = infer_segments th txt (passed ++ it) wm sts.
Proof.
  induction sts as [|s1 rest IH]; intros it wm passed Hss Hso Hp; [reflexivity|].
  apply StronglySorted_cons in Hss. destruct Hss as [Hlt Hss].
  specialize (Hp s1 eq_refl).
  assert (Hnext : forall s2, head rest = Some s2 -> (start_idx s1 < start_idx s2)%nat).
  { intros s2 H2. destruct rest as [|s2' rest']; [discriminate|]. injection H2 as ->.
    simpl in Hlt. apply Forall_cons in Hlt. apply Hlt. }
  cbn [optimize_loop infer_segments].
  set (text_idx2 := match rest with [] => length txt | s2 :: _ => start_idx s2 end).
  unfold infer_segment. rewrite has_space_spaceless.
  destruct (spaceless txt (start_idx s1) text_idx2); cbn [negb].
  2:{ (* a literal space: the segment is skipped *)
    rewrite (IH it wm passed Hss Hso); [reflexivity|].
    intros s2 H2. eapply Forall_impl; [exact Hp|]. intros o Ho. cbv beta in Ho.
    specialize (Hnext s2 H2). lia. }
  destruct (skip_offsets_split (start_idx s1) it) as (d1 & E1 & Hd1 & Hh1).
  set (it1 := skip_offsets (start_idx s1) it) in *.
  destruct (collect_widths_split (em_size s1 * th)%float text_idx2 it1 [])
    as (d2 & E2 & Hd2 & Hf & Hh2).
  destruct (collect_widths (em_size s1 * th)%float text_idx2 it1 []) as [width_map it2].
  simpl in E2, Hf, Hh2.
  assert (Hfull : passed ++ it = (passed ++ d1) ++ d2 ++ it2).
  { rewrite E1, E2 at 1. rewrite <- app_assoc. reflexivity. }
  assert (Hs1 : StronglySorted lt (map o_start_idx it1)).
  { rewrite E1, !map_app in Hso. apply StronglySorted_app_1_r in Hso.
    apply StronglySorted_app_1_r in Hso. exact Hso. }
  assert (Hge1 : Forall (fun o => (start_idx s1 <= o_start_idx o)%nat) it1).
  { apply sorted_from_head; assumption. }
  assert (Hs2 : StronglySorted lt (map o_start_idx it2)).
  { rewrite E2, map_app in Hs1. apply StronglySorted_app_1_r in Hs1. exact Hs1. }
  assert (Hge2 : Forall (fun o => (text_idx2 <= o_start_idx o)%nat) it2).
  { apply sorted_from_head; assumption. }
  assert (Hw : qualifying_widths th s1 text_idx2 (passed ++ it)
               = map width (List.filter (qualifies (em_size s1 * th)%float) d2)).
  { rewrite <- segment_widths_qualifying, Hfull. apply segment_widths_split.
    - apply Forall_app. split; assumption.
    - rewrite E2 in Hge1. apply Forall_app in Hge1. destruct Hge1 as [Hge1 _].
      apply Forall_lookup. intros i o Hi.
      rewrite Forall_lookup in Hge1, Hd2. specialize (Hge1 i o Hi). specialize (Hd2 i o Hi).
      cbv beta in *. lia.
    - assumption. }
  assert (Hpass : forall s2, head rest = Some s2 ->
            Forall (fun o => (o_start_idx o < start_idx s2)%nat) ((passed ++ d1) ++ d2)).
  { intros s2 H2. specialize (Hnext s2 H2).
    assert (text_idx2 = start_idx s2) as Et.
    { unfold text_idx2. destruct rest; [discriminate|]. injection H2 as ->. reflexivity. }
    rewrite !Forall_app. repeat split.
    - eapply Forall_impl; [exact Hp|]. intros o Ho. cbv beta in Ho. lia.
    - eapply Forall_impl; [exact Hd1|]. intros o Ho. cbv beta in Ho. lia.
    - eapply Forall_impl; [exact Hd2|]. intros o Ho. cbv beta in Ho. lia. }
  assert (Hso' : StronglySorted lt (map o_start_idx (((passed ++ d1) ++ d2) ++ it2))).
  { rewrite <- app_assoc, <- Hfull. exact Hso. }
  assert (Hfull' : passed ++ it = ((passed ++ d1) ++ d2) ++ it2).
  { rewrite <- app_assoc. exact Hfull. }
  rewrite Hw.
  change (fold_left add_width (map width (List.filter (qualifies (em_size s1 * th)%float) d2)) [])
    with (buckets (map width (List.filter (qualifies (em_size s1 * th)%float) d2))) in Hf.
  destruct (map width (List.filter (qualifies (em_size s1 * th)%float) d2)) as [|w ws] eqn:Ews.
  - rewrite Hf. cbn [buckets fold_left].
    rewrite (IH it2 wm ((passed ++ d1) ++ d2) Hss Hso' Hpass), <- Hfull'. reflexivity.
  - assert (Hbne : buckets (w :: ws) <> []).
    { intros E. apply buckets_nil in E. discriminate. }
    destruct width_map as [|e width_map]; [congruence|].
    rewrite Hf. rewrite most_used_most_frequent; [|exact Hbne|].
    2:{ eapply Forall_impl; [apply buckets_entries|]. intros g [_ Hg]. exact Hg. }
    rewrite buckets_group_widths.
    unfold single_space_offset. cbn [word_space with_word_space letter_space font_info
      draw_font_size].
    destruct (install wm _) as [[id actual] wm1].
    rewrite (IH it2 wm1 ((passed ++ d1) ++ d2) Hss Hso' Hpass), <- Hfull'. reflexivity.
Qed.

End OptimizeLoop.

(** ** The stack: pops and the greedy scan *)

Lemma ends_app sts a b : ends sts (a ++ b) = ends sts a ++ ends sts b.
Proof. unfold ends. apply flat_map_app. Qed.

Lemma pop_until_spec sts target : forall stack out stack',
  pop_until sts target stack = Some (out, stack') ->
  exists popped, stack = popped ++ stack' /\ head stack' = Some target
                 /\ ~ In target popped /\ out = ends sts popped.
Proof.
  induction stack as [|top rest IH]; intros out stack' H; simpl in H; [discriminate|].
  destruct (decide (top = target)) as [->|Hne].
  - injection H as <- <-. exists []. repeat split. intros [].
  - destruct top as [j|]; [|discriminate]. simpl in H.
    destruct (sts !! j) as [s|] eqn:Ej; [|discriminate]. simpl in H.
    destruct (pop_until sts target rest) as [[o1 s1]|] eqn:Er; [|discriminate].
    simpl in H. injection H as <- <-.
    destruct (IH _ _ eq_refl) as (popped & -> & Hh & Hni & ->).
    exists (Some j :: popped). repeat split; [assumption| |].
    + intros [E|Hin]; [congruence|contradiction].
    + simpl. rewrite Ej. reflexivity.
Qed.

Lemma search_spec sts cur last_neg : forall n best stack out stack',
  search n sts cur last_neg best stack = Some (out, stack') ->
  (n <= length stack)%nat ->
  Forall (after_negative sts last_neg) (take (length stack - n) stack) ->
  exists popped, stack = popped ++ stack'
                 /\ Forall (after_negative sts last_neg) popped
                 /\ out = ends sts popped.
Proof.
  induction n as [|n IH]; intros best stack out stack' H Hn Habove; [discriminate|].
  cbn [search] in H.
  destruct (stack !! (length stack - S n)%nat) as [it|] eqn:Eit; [|discriminate].
  simpl in H. destruct it as [j|].
  2:{ injection H as <- <-. exists []. repeat split. constructor. }
  destruct (sts !! j) as [s|] eqn:Ej; [|discriminate]. simpl in H.
  assert (Hstep : (last_neg < start_idx s)%nat ->
            Forall (after_negative sts last_neg) (take (length stack - n) stack)).
  { intros Hlt. replace (length stack - n)%nat with (S (length stack - S n)) by lia.
    erewrite take_S_r by exact Eit. apply Forall_app. split; [assumption|].
    constructor; [|constructor]. exists j, s. auto. }
  destruct (diff cur s <? best) eqn:Ecost.
  - destruct (pop_until sts (Some j) stack) as [[out1 stack1]|] eqn:Epop; [|discriminate].
    simpl in H.
    destruct (pop_until_spec _ _ _ _ _ Epop) as (popped1 & E1 & Hh1 & Hni1 & ->).
    assert (Hlen1 : (length popped1 <= length stack - S n)%nat).
    { destruct (Nat.le_gt_cases (length popped1) (length stack - S n)) as [?|Hgt]; [assumption|].
      exfalso. apply Hni1. rewrite E1, lookup_app_l in Eit by (rewrite <- E1; lia).
      apply list_elem_of_In. eapply list_elem_of_lookup_2. exact Eit. }
    assert (Hp1 : Forall (after_negative sts last_neg) popped1).
    { replace popped1 with (take (length popped1) (take (length stack - S n) stack)).
      - apply Forall_take. exact Habove.
      - rewrite take_take, Nat.min_l by lia. rewrite E1. apply take_app_length. }
    assert (Hdone : Some (ends sts popped1, stack1) = Some (out, stack') ->
              exists popped, stack = popped ++ stack'
                 /\ Forall (after_negative sts last_neg) popped /\ out = ends sts popped).
    { intros [= <- <-]. exists popped1. auto. }
    destruct (diff cur s =? 0); [auto|].
    destruct (Nat.leb_spec (start_idx s) last_neg); [auto|].
    destruct (search n sts cur last_neg (diff cur s) stack1) as [[out2 stack2]|] eqn:Es;
      [|discriminate].
    simpl in H. injection H as <- <-.
    assert (Hl : length stack = (length popped1 + length stack1)%nat).
    { rewrite E1 at 1. apply length_app. }
    destruct (IH _ _ _ _ Es) as (popped2 & E2 & Hp2 & ->).
    + lia.
    + specialize (Hstep ltac:(lia)).
      remember (length stack - n)%nat as m eqn:Em.
      rewrite E1 in Hstep. rewrite take_app_ge in Hstep by lia.
      apply Forall_app in Hstep. destruct Hstep as [_ Hstep].
      replace (length stack1 - n)%nat with (m - length popped1)%nat by lia.
      exact Hstep.
    + exists (popped1 ++ popped2). rewrite ends_app. repeat split.
      * rewrite <- app_assoc, <- E2. exact E1.
      * apply Forall_app. auto.
  - destruct (Nat.leb_spec (start_idx s) last_neg).
    + injection H as <- <-. exists []. repeat split. constructor.
    + apply (IH _ _ _ _ H); [lia|]. apply Hstep. lia.
Qed.

Lemma stack_wf_suffix bound popped stack' :
  stack_wf bound (popped ++ stack') -> stack' <> [] -> stack_wf bound stack'.
Proof.
  intros (js & E & Hjs) Hne. revert js E Hjs.
  induction popped as [|e popped IH]; intros js E Hjs.
  - exists js. auto.
  - destruct js as [|j js]; simpl in E.
    + injection E as _ E. destruct popped; [|discriminate]. simpl in E. congruence.
    + injection E as _ E. apply Forall_cons in Hjs. apply (IH js E), Hjs.
Qed.

Lemma stack_wf_lookup bound stack i e :
  stack_wf bound stack -> stack !! i = Some e ->
  (e = None /\ S i = length stack) \/ (exists j, e = Some j /\ (j < bound)%nat /\ (S i < length stack)%nat).
Proof.
  intros (js & -> & Hjs) Hi. rewrite length_app, length_map. simpl.
  destruct (Nat.lt_ge_cases i (length js)) as [Hlt|Hge].
  - right. rewrite lookup_app_l in Hi by (rewrite length_map; assumption).
    rewrite list_lookup_fmap in Hi. destruct (js !! i) as [j|] eqn:Ej; [|discriminate].
    injection Hi as <-. exists j. repeat split; [|lia].
    rewrite Forall_lookup in Hjs. exact (Hjs _ _ Ej).
  - left. rewrite lookup_app_r in Hi by (rewrite length_map; assumption).
    rewrite length_map in Hi. destruct (i - length js)%nat as [|k] eqn:Ek; simpl in Hi.
    + injection Hi as <-. split; [reflexivity|lia].
    + destruct k; discriminate.
Qed.

Lemma pop_until_total sts target : forall pre post,
  Forall (fun e => exists j s, e = Some j /\ sts !! j = Some s) pre ->
  exists out stack', pop_until sts target (pre ++ target :: post) = Some (out, stack').
Proof.
  induction pre as [|top pre IH]; intros post Hpre; simpl.
  - destruct (decide (target = target)); [eauto|congruence].
  - destruct (decide (top = target)); [eauto|].
    apply Forall_cons in Hpre. destruct Hpre as [(j & s & -> & Ej) Hpre].
    simpl. rewrite Ej. simpl. destruct (IH post Hpre) as (o & s' & ->). simpl. eauto.
Qed.

Lemma stack_wf_valid bound (sts : list State) stack :
  stack_wf bound stack -> (bound <= length sts)%nat ->
  forall pre e post, stack = pre ++ e :: post ->
  Forall (fun e => exists j s, e = Some j /\ sts !! j = Some s) pre.
Proof.
  intros Hwf Hb pre e post E. apply Forall_lookup. intros i x Hi.
  assert (Hx : stack !! i = Some x) by (rewrite E; apply lookup_app_l_Some; assumption).
  destruct (stack_wf_lookup _ _ _ _ Hwf Hx) as [[-> Hl]|(j & -> & Hj & _)].
  - exfalso. apply lookup_lt_Some in Hi. rewrite E, length_app in Hl. simpl in Hl. lia.
  - destruct (lookup_lt_is_Some_2 sts j ltac:(lia)) as [s Es]. eauto.
Qed.

Lemma search_total sts cur last_neg bound : forall n best stack,
  stack_wf bound stack -> (bound <= length sts)%nat ->
  (1 <= n <= length stack)%nat ->
  exists out stack', search n sts cur last_neg best stack = Some (out, stack').
Proof.
  induction n as [|n IH]; intros best stack Hwf Hb Hn; [lia|].
  cbn [search].
  destruct (lookup_lt_is_Some_2 stack (length stack - S n) ltac:(lia)) as [it Eit].
  rewrite Eit. simpl.
  destruct (stack_wf_lookup _ _ _ _ Hwf Eit) as [[-> _]|(j & -> & Hj & Hlt)]; [eauto|].
  destruct (lookup_lt_is_Some_2 sts j ltac:(lia)) as [s Es]. rewrite Es. simpl.
  destruct (diff cur s <? best).
  - destruct (list_elem_of_split stack (Some j)) as (pre & post & E).
    { eapply list_elem_of_lookup_2. exact Eit. }
    pose proof (stack_wf_valid _ _ _ Hwf Hb _ _ _ E) as Hpre.
    destruct (pop_until_total sts (Some j) pre post Hpre) as (out1 & stack1 & Epop).
    rewrite <- E in Epop. rewrite Epop. simpl.
    destruct (diff cur s =? 0); [eauto|].
    destruct (Nat.leb (start_idx s) last_neg); [eauto|].
    destruct (pop_until_spec _ _ _ _ _ Epop) as (popped1 & E1 & Hh1 & Hni1 & _).
    assert (Hlen1 : (length popped1 <= length stack - S n)%nat).
    { destruct (Nat.le_gt_cases (length popped1) (length stack - S n)) as [?|Hgt]; [assumption|].
      exfalso. apply Hni1. rewrite E1, lookup_app_l in Eit by (rewrite <- E1; lia).
      apply list_elem_of_In. eapply list_elem_of_lookup_2. exact Eit. }
    assert (Hl : length stack = (length popped1 + length stack1)%nat).
    { rewrite E1 at 1. apply length_app. }
    destruct (IH (diff cur s) stack1) as (out2 & stack2 & ->); [| assumption | lia | simpl; eauto].
    rewrite E1 in Hwf. apply stack_wf_suffix in Hwf; [assumption|].
    destruct stack1; [discriminate|discriminate].
  - destruct (Nat.leb (start_idx s) last_neg); [eauto|].
    apply IH; [assumption..|lia].
Qed.

(** ** The render loop *)

Lemma positions_next n l i a :
  positions_ok n l -> l !! i = Some a -> (a < n)%nat ->
  exists b, l !! S i = Some b /\ (a < b)%nat /\ (b <= n)%nat.
Proof.
  intros [Hs Hb Hl] Hi Ha.
  rewrite last_lookup in Hl.
  assert (Hlt : (i < length l)%nat) by (eapply lookup_lt_Some; exact Hi).
  assert (Hne : i <> pred (length l)) by (intros ->; rewrite Hl in Hi; injection Hi as <-; lia).
  destruct (lookup_lt_is_Some_2 l (S i) ltac:(lia)) as [b Eb].
  exists b. repeat split; [assumption| |].
  - eapply Hs; [exact Hi | exact Eb | lia | assumption].
  - rewrite Forall_lookup in Hb. exact (Hb _ _ Eb).
Qed.

Lemma count_opened_ends sts stack : count_opened (ends sts stack) = 0%nat.
Proof.
  induction stack as [|e stack IH]; [reflexivity|].
  change (ends sts (e :: stack)) with (end_of sts e ++ ends sts stack).
  rewrite count_opened_app, IH.
  destruct e as [j|]; simpl; [|reflexivity].
  destruct (sts !! j) as [s|]; [|reflexivity]. unfold end_. destruct (need_close s); reflexivity.
Qed.

Lemma ends_insert sts stack i s' bound :
  stack_wf bound stack -> (bound <= i)%nat -> ends (<[i := s']> sts) stack = ends sts stack.
Proof.
  intros (js & -> & Hjs) Hb. unfold ends. rewrite !flat_map_app. f_equal.
  induction Hjs as [|j js Hj _ IH]; [reflexivity|]. simpl. rewrite IH. f_equal.
  rewrite list_lookup_insert_ne by lia. reflexivity.
Qed.

Ltac loop_fields :=
  cbn [l_renderer l_states l_out l_stack l_cur_state_iter l_cur_offset_iter l_dx
       l_last_text_pos_with_negative_offset l_cur_text_idx].

Section Loop.
Context {M : Type} {SM : StateManager M} {MU : MathUtil}.
Variable txt : list Unicode.
Variable offs : list Offset.
Variable starts : list nat.
Hypothesis Hstates : positions_ok (length txt) starts.
Hypothesis Hfirst : head starts = Some 0%nat.
Hypothesis Hoffs : positions_ok (length txt) (o_start_idx <$> offs).

Lemma resolve_offset_balanced p wsm cur c last target res :
  resolve_offset p wsm cur c last target = Some res ->
  count_opened (r_out res) = count_closed (r_out res).
Proof.
  unfold resolve_offset. intros H.
  destruct (abs target <=? h_eps p)%float; [injection H as <-; reflexivity|].
  destruct cur as [s|]; [|discriminate]. simpl in H.
  destruct (_ && _); [injection H as <-; reflexivity|].
  destruct (install wsm target) as [[wid actual] wsm'].
  destruct (negb _); injection H as <-; reflexivity.
Qed.

Lemma resolve_offset_total p wsm s c last target :
  exists res, resolve_offset p wsm (Some s) c last target = Some res.
Proof.
  unfold resolve_offset.
  destruct (abs target <=? h_eps p)%float; [eauto|]. simpl.
  destruct (_ && _); [eauto|].
  destruct (install wsm target) as [[wid actual] wsm'].
  destruct (negb _); eauto.
Qed.

Lemma starts_lookup (st : Loop (M:=M)) i s :
  start_idx <$> l_states st = starts -> l_states st !! i = Some s ->
  starts !! i = Some (start_idx s).
Proof. intros <- Hs. rewrite list_lookup_fmap, Hs. reflexivity. Qed.

(** The state boundary, when the state under the iterator starts at the
    current text index. *)
Lemma state_boundary_ok (st : Loop (M:=M)) s :
  loop_inv offs starts st ->
  l_states st !! l_cur_state_iter st = Some s ->
  (start_idx s <= l_cur_text_idx st)%nat ->
  (l_cur_text_idx st < length txt)%nat ->
  exists st', state_boundary st = Some st'
    /\ loop_inv offs starts st'
    /\ l_cur_text_idx st' = l_cur_text_idx st
    /\ l_cur_offset_iter st' = l_cur_offset_iter st
    /\ (0 < l_cur_state_iter st')%nat
    /\ (forall b, starts !! l_cur_state_iter st' = Some b -> (l_cur_text_idx st < b)%nat).
Proof.
  intros Hinv Hs Hle Hc. destruct Hinv as [Hst Hsi Hsv Hoi Hov Hstk Htop Hbal].
  pose proof (starts_lookup st _ _ Hst Hs) as Hsa.
  pose proof (Hsi _ Hsa) as Hge.
  assert (Hlen : length (l_states st) = length starts) by (rewrite <- Hst; symmetry; apply length_fmap).
  destruct (positions_next _ _ _ _ Hstates Hsa ltac:(lia)) as (b & Eb & Hab & Hbn).
  unfold state_boundary. rewrite Hs. simpl.
  destruct (search_total (l_states st) s (l_last_text_pos_with_negative_offset st)
              (l_cur_state_iter st) (length (l_stack st)) (Z.of_nat ID_COUNT) (l_stack st))
    as (out1 & stack1 & Es); [assumption | lia | |].
  { destruct Hstk as (js & -> & _). rewrite length_app. simpl. lia. }
  rewrite Es. simpl.
  destruct (search_spec _ _ _ _ _ _ _ _ Es) as (popped & Ep & Hpop & ->); [lia| |].
  { rewrite Nat.sub_diag. constructor. }
  assert (Hne : stack1 <> []).
  { intros ->. rewrite app_nil_r in Ep. destruct Hstk as (js & E & _).
    rewrite Ep in E.
    assert (Hin : None ∈ popped).
    { rewrite E. apply list_elem_of_In, in_app_iff. right. left. reflexivity. }
    destruct (proj1 (Forall_forall _ _) Hpop None Hin) as (j & s0 & Hj & _). discriminate. }
  assert (Hwf1 : stack_wf (l_cur_state_iter st) stack1).
  { rewrite Ep in Hstk. eapply stack_wf_suffix; eassumption. }
  destruct stack1 as [|back rest1]; [congruence|]. simpl.
  assert (Hprev : exists prev, match back with
                               | Some j => p ← l_states st !! j; Some (Some p)
                               | None => Some None
                               end = Some prev).
  { destruct back as [j|]; [|eauto].
    destruct (stack_wf_lookup _ _ 0 _ Hwf1 eq_refl) as [[? _]|(j' & [= <-] & Hj & _)]; [discriminate|].
    destruct (lookup_lt_is_Some_2 (l_states st) j ltac:(lia)) as [p Ej]. rewrite Ej. simpl. eauto. }
  destruct Hprev as [prev ->]. simpl.
  pose proof (begin_out s prev) as Hbo. pose proof (begin_start_idx s prev) as Hbs.
  destruct (begin s prev) as [out2 cur'] eqn:Eb'. simpl in Hbo, Hbs.
  eexists. split; [reflexivity|].
  split; [constructor|]; loop_fields.
  - rewrite list_fmap_insert, Hbs, Hst. apply list_insert_id. exact Hsa.
  - intros a Ha. rewrite Eb in Ha. injection Ha as <-. lia.
  - eapply lookup_lt_Some. exact Eb.
  - exact Hoi.
  - exact Hov.
  - destruct Hwf1 as (js1 & E1 & Hjs1). exists (l_cur_state_iter st :: js1). split.
    + simpl. rewrite E1. reflexivity.
    + constructor; [lia|]. eapply Forall_impl; [exact Hjs1|]. intros; simpl in *; lia.
  - intros _. eauto.
  - rewrite !count_opened_app, !count_closed_app, count_opened_ends.
    change (ends ?a (Some ?i :: ?r)) with (end_of a (Some i) ++ ends a r).
    rewrite count_closed_app. cbn [end_of].
    rewrite list_lookup_insert_eq by lia.
    rewrite (ends_insert _ _ _ _ _ Hwf1) by lia.
    rewrite Hbal, Ep, ends_app, count_closed_app.
    unfold end_. destruct (need_close cur').
    + destruct Hbo as (-> & -> & _). change (count_closed [SpanEnd]) with 1%nat. lia.
    + rewrite Hbo. change (count_closed []) with 0%nat. change (count_opened []) with 0%nat. lia.
  - repeat split; try lia.
    intros b' Hb'. rewrite Eb in Hb'. injection Hb' as <-. lia.
Qed.

Lemma stack_top_state (st : Loop (M:=M)) :
  loop_inv offs starts st -> (0 < l_cur_state_iter st)%nat ->
  exists j s, head (l_stack st) = Some (Some j) /\ (j < l_cur_state_iter st)%nat
              /\ l_states st !! j = Some s.
Proof.
  intros Hinv Hpos. destruct (inv_top offs starts st Hinv Hpos) as (j & rest & E).
  pose proof (inv_stack offs starts st Hinv) as Hwf.
  assert (Hlen : length (l_states st) = length starts).
  { rewrite <- (inv_starts offs starts st Hinv). symmetry. apply length_fmap. }
  pose proof (inv_state_valid offs starts st Hinv) as Hv.
  destruct (stack_wf_lookup _ _ 0 (Some j) Hwf) as [[? _]|(j' & [= <-] & Hj & _)];
    [rewrite E; reflexivity | discriminate |].
  destruct (lookup_lt_is_Some_2 (l_states st) j ltac:(lia)) as [s Es].
  exists j, s. rewrite E. auto.
Qed.

(** The offset boundary, once a state is open. *)
Lemma offset_boundary_ok (st : Loop (M:=M)) o :
  loop_inv offs starts st ->
  (0 < l_cur_state_iter st)%nat ->
  offs !! l_cur_offset_iter st = Some o ->
  (o_start_idx o <= l_cur_text_idx st)%nat ->
  (l_cur_text_idx st < length txt)%nat ->
  exists st', offset_boundary st o = Some st'
    /\ loop_inv offs starts st'
    /\ l_cur_text_idx st' = l_cur_text_idx st
    /\ l_cur_state_iter st' = l_cur_state_iter st
    /\ l_states st' = l_states st
    /\ (forall o', offs !! l_cur_offset_iter st' = Some o' ->
          (l_cur_text_idx st < o_start_idx o')%nat).
Proof.
  intros Hinv Hpos Ho Hle Hc.
  destruct (stack_top_state st Hinv Hpos) as (j & s & Hh & Hj & Es).
  destruct Hinv as [Hst Hsi Hsv Hoi Hov Hstk Htop Hbal].
  pose proof (Hoi _ Ho) as Hge.
  assert (Hoa : (o_start_idx <$> offs) !! l_cur_offset_iter st = Some (o_start_idx o)).
  { rewrite list_lookup_fmap, Ho. reflexivity. }
  destruct (positions_next _ _ _ _ Hoffs Hoa ltac:(lia)) as (b & Eb & Hab & Hbn).
  rewrite list_lookup_fmap in Eb.
  destruct (offs !! S (l_cur_offset_iter st)) as [o2|] eqn:Eo2; [|discriminate].
  injection Eb as <-.
  unfold offset_boundary, stack_back_state. rewrite Hh. simpl. rewrite Es.
  destruct (resolve_offset_total (param (l_renderer st)) (whitespace_manager (l_renderer st)) s
              (l_cur_text_idx st) (l_last_text_pos_with_negative_offset st)
              (width o + l_dx st)%float) as [res Er].
  rewrite Er. simpl.
  pose proof (resolve_offset_balanced _ _ _ _ _ _ _ Er) as Hres.
  eexists. split; [reflexivity|].
  split; [constructor|]; loop_fields.
  - exact Hst.
  - exact Hsi.
  - exact Hsv.
  - intros o' Ho'. rewrite Eo2 in Ho'. injection Ho' as <-. lia.
  - eapply lookup_lt_Some. exact Eo2.
  - exact Hstk.
  - exact Htop.
  - rewrite count_opened_app, count_closed_app, Hbal, Hres. lia.
  - repeat split. intros o' Ho'. rewrite Eo2 in Ho'. injection Ho' as <-. lia.
Qed.

(** One turn of the loop: it is defined, keeps the invariant and moves on. *)
Lemma loop_body_ok (st : Loop (M:=M)) :
  loop_inv offs starts st -> (l_cur_text_idx st < length txt)%nat ->
  exists st', loop_body txt offs st = Some st' /\ loop_inv offs starts st'
              /\ (l_cur_text_idx st < l_cur_text_idx st')%nat.
Proof.
  intros Hinv Hc. unfold loop_body.
  assert (Hlen : length (l_states st) = length starts).
  { rewrite <- (inv_starts offs starts st Hinv). symmetry. apply length_fmap. }
  destruct (lookup_lt_is_Some_2 (l_states st) (l_cur_state_iter st)) as [s Es].
  { rewrite Hlen. apply (inv_state_valid offs starts st Hinv). }
  rewrite Es. simpl.
  (* the state boundary *)
  assert (H1 : exists st1,
             (if Nat.leb (start_idx s) (l_cur_text_idx st) then state_boundary st else Some st)
             = Some st1
             /\ loop_inv offs starts st1 /\ l_cur_text_idx st1 = l_cur_text_idx st
             /\ l_cur_offset_iter st1 = l_cur_offset_iter st
             /\ (0 < l_cur_state_iter st1)%nat
             /\ (forall b, starts !! l_cur_state_iter st1 = Some b -> (l_cur_text_idx st < b)%nat)).
  { destruct (Nat.leb_spec (start_idx s) (l_cur_text_idx st)) as [Hle|Hgt].
    - apply (state_boundary_ok st s); assumption.
    - exists st. split; [reflexivity|]. split; [assumption|].
      split; [reflexivity|]. split; [reflexivity|]. split.
      + destruct (l_cur_state_iter st) as [|k] eqn:Ek; [|lia].
        pose proof (starts_lookup st _ _ (inv_starts offs starts st Hinv) Es) as Hs0.
        rewrite <- head_lookup, Hfirst in Hs0. injection Hs0 as Hs0. lia.
      + intros b Hb. pose proof (starts_lookup st _ _ (inv_starts offs starts st Hinv) Es) as Hs0.
        rewrite Hs0 in Hb. injection Hb as <-. lia. }
  destruct H1 as (st1 & -> & Hinv1 & Hc1 & Ho1 & Hpos1 & Hnext1). simpl.
  destruct (lookup_lt_is_Some_2 offs (l_cur_offset_iter st1)) as [o Eo].
  { apply (inv_offset_valid offs starts st1 Hinv1). }
  rewrite Eo. simpl.
  (* the offset boundary *)
  assert (H2 : exists st2,
             (if Nat.leb (o_start_idx o) (l_cur_text_idx st1) then offset_boundary st1 o else Some st1)
             = Some st2
             /\ loop_inv offs starts st2 /\ l_cur_text_idx st2 = l_cur_text_idx st
             /\ l_cur_state_iter st2 = l_cur_state_iter st1
             /\ (forall o', offs !! l_cur_offset_iter st2 = Some o' ->
                   (l_cur_text_idx st < o_start_idx o')%nat)).
  { destruct (Nat.leb_spec (o_start_idx o) (l_cur_text_idx st1)) as [Hle|Hgt].
    - destruct (offset_boundary_ok st1 o Hinv1 Hpos1 Eo Hle ltac:(lia))
        as (st2 & E2 & Hinv2 & Hc2 & Hs2 & _ & Hn2).
      exists st2. rewrite Hc1 in Hn2.
      split; [assumption|]. split; [assumption|]. split; [congruence|]. split; assumption.
    - exists st1.
      split; [reflexivity|]. split; [assumption|]. split; [assumption|]. split; [reflexivity|].
      intros o' Ho'. rewrite Eo in Ho'. injection Ho' as <-. lia. }
  destruct H2 as (st2 & -> & Hinv2 & Hc2 & Hs2 & Hnext2). simpl.
  assert (Hlen2 : length (l_states st2) = length starts).
  { rewrite <- (inv_starts offs starts st2 Hinv2). symmetry. apply length_fmap. }
  destruct (lookup_lt_is_Some_2 (l_states st2) (l_cur_state_iter st2)) as [s' Es'].
  { rewrite Hlen2. apply (inv_state_valid offs starts st2 Hinv2). }
  destruct (lookup_lt_is_Some_2 offs (l_cur_offset_iter st2)) as [o' Eo'].
  { apply (inv_offset_valid offs starts st2 Hinv2). }
  rewrite Es', Eo'. simpl.
  pose proof (starts_lookup st2 _ _ (inv_starts offs starts st2 Hinv2) Es') as Hsa.
  assert (Hs'gt : (l_cur_text_idx st < start_idx s')%nat).
  { apply Hnext1. rewrite <- Hs2. exact Hsa. }
  assert (Ho'gt : (l_cur_text_idx st < o_start_idx o')%nat) by (apply Hnext2; exact Eo').
  assert (Hs'le : (start_idx s' <= length txt)%nat).
  { pose proof (pos_bound _ _ Hstates) as Hb. rewrite Forall_lookup in Hb. exact (Hb _ _ Hsa). }
  destruct (decide _) as [Hd|Hd]; [|lia].
  eexists. split; [reflexivity|].
  destruct Hinv2 as [Hst Hsi Hsv Hoi Hov Hstk Htop Hbal].
  split; [constructor|]; loop_fields; try assumption.
  - intros a Ha. rewrite Hsa in Ha. injection Ha as <-. lia.
  - intros o2 Ho2. rewrite Eo' in Ho2. injection Ho2 as <-. lia.
  - rewrite count_opened_app, count_closed_app, Hbal.
    change (count_opened [Unicodes _]) with 0%nat. change (count_closed [Unicodes _]) with 0%nat. lia.
  - lia.
Qed.

(** The loop runs to the end of the text and keeps the invariant. *)
Lemma render_loop_ok : forall fuel (st : Loop (M:=M)),
  loop_inv offs starts st -> (length txt - l_cur_text_idx st <= fuel)%nat ->
  exists st', render_loop fuel txt offs st = Some st' /\ loop_inv offs starts st'.
Proof.
  induction fuel as [|fuel IH]; intros st Hinv Hf.
  - exists st. simpl. destruct (Nat.ltb_spec (l_cur_text_idx st) (length txt)); [lia|auto].
  - cbn [render_loop]. destruct (Nat.ltb_spec (l_cur_text_idx st) (length txt)); [|eauto].
    destruct (loop_body_ok st Hinv ltac:(assumption)) as (st1 & -> & Hinv1 & Hlt). simpl.
    apply IH; [assumption|lia].
Qed.

(** A property that every turn keeps holds when the loop ends. *)
Lemma render_loop_keeps (P : Loop (M:=M) -> Prop) :
  (forall st st', loop_inv offs starts st -> P st -> (l_cur_text_idx st < length txt)%nat ->
     loop_body txt offs st = Some st' -> P st') ->
  forall fuel st st', loop_inv offs starts st -> P st -> render_loop fuel txt offs st = Some st' -> P st'.
Proof.
  intros Hstep. induction fuel as [|fuel IH]; intros st st' Hinv HP H; cbn [render_loop] in H.
  - destruct (Nat.ltb (l_cur_text_idx st) (length txt)); [discriminate|]. injection H as <-. assumption.
  - destruct (Nat.ltb_spec (l_cur_text_idx st) (length txt)) as [Hlt|]; [|injection H as <-; assumption].
    destruct (loop_body_ok st Hinv Hlt) as (st1 & E1 & Hinv1 & _).
    rewrite E1 in H. simpl in H. eapply IH; [exact Hinv1| |exact H].
    exact (Hstep st st1 Hinv HP Hlt E1).
Qed.

Lemma render_loop_end : forall fuel (st st' : Loop (M:=M)),
  render_loop fuel txt offs st = Some st' -> (length txt <= l_cur_text_idx st')%nat.
Proof.
  induction fuel as [|fuel IH]; intros st st' Er; cbn [render_loop] in Er.
  - destruct (Nat.ltb_spec (l_cur_text_idx st) (length txt)); [discriminate|].
    injection Er as <-. assumption.
  - destruct (Nat.ltb_spec (l_cur_text_idx st) (length txt)).
    + destruct (loop_body txt offs st) as [st1|]; [|discriminate].
      simpl in Er. exact (IH _ _ Er).
    + injection Er as <-. assumption.
Qed.

(** *** A line in one style *)

(** Every state but the closing sentinel carries the ids [I], the mask [U]
    and the packed key [H]; one style tag has been opened, by the first
    state, and the line wrapper once. *)
Variable I : Ids.
Variable U : Z.
Variable H : Z.
Variable first_bound : nat.
Hypothesis Hfirst_bound : (first_bound < ID_COUNT)%nat.
Hypothesis HU : Z.land U (umask_by_id first_bound) = 0.

Lemma in_style_need_close s b : in_style I U H s -> in_style I U H (with_need_close s b).
Proof. intros H0. exact H0. Qed.

Lemma state_boundary_uniform (st st' : Loop (M:=M)) s :
  loop_inv offs starts st -> uniform_inv starts I U H st ->
  l_states st !! l_cur_state_iter st = Some s ->
  (start_idx s < length txt)%nat ->
  state_boundary st = Some st' ->
  uniform_inv starts I U H st'.
Proof.
  intros Hinv [Hus Hsp Hln] Hs Hlt Hsb.
  pose proof (starts_lookup st _ _ (inv_starts offs starts st Hinv) Hs) as Hsa.
  destruct (positions_next _ _ _ _ Hstates Hsa Hlt) as (b & Eb & _ & _).
  assert (Hsi : (S (l_cur_state_iter st) < length starts)%nat).
  { eapply lookup_lt_Some. exact Eb. }
  pose proof (Hus _ _ Hs Hsi) as (HsI & HsU & HsH).
  unfold state_boundary in Hsb. rewrite Hs in Hsb. simpl in Hsb.
  destruct (Nat.eq_dec (l_cur_state_iter st) 0%nat) as [E0|Hpos].
  - (* the first state: the stack holds the null pointer alone *)
    assert (Estk : l_stack st = [None]).
    { destruct (inv_stack offs starts st Hinv) as (js & Ej & Hjs). rewrite E0 in Hjs.
      destruct js as [|j js]; [exact Ej|]. apply Forall_cons in Hjs. lia. }
    rewrite Estk in Hsb. simpl in Hsb.
    assert (Hb : bound s first_bound = true).
    { unfold bound, is_set. rewrite HsU, HU. reflexivity. }
    destruct (begin_root s first_bound Hfirst_bound Hb) as (Es' & Hc1 & Hc2).
    destruct (begin s None) as [out2 cur']. simpl in Es', Hc1, Hc2. subst cur'.
    injection Hsb as <-. constructor; loop_fields.
    + intros i s1 Hi Hi'. destruct (decide (i = l_cur_state_iter st)) as [->|Hne].
      * rewrite list_lookup_insert_eq in Hi by (eapply lookup_lt_Some; exact Hs).
        injection Hi as <-. apply in_style_need_close. repeat split; assumption.
      * rewrite list_lookup_insert_ne in Hi by congruence. eapply Hus; eassumption.
    + rewrite !count_chunks_app, Hsp, E0, Hc1. reflexivity.
    + rewrite !count_chunks_app, Hln, Hc2. reflexivity.
  - (* a later state: the state on top has the same style *)
    destruct (stack_top_state st Hinv ltac:(lia)) as (j & p & Hh & Hj & Ep).
    destruct (l_stack st) as [|top rest] eqn:Estk; [discriminate|].
    simpl in Hh. injection Hh as ->.
    pose proof (Hus _ _ Ep ltac:(lia)) as (HpI & HpU & HpH).
    assert (Hd : diff s p = 0) by (apply diff_same; congruence).
    assert (Esearch : search (length (Some j :: rest)) (l_states st) s
                        (l_last_text_pos_with_negative_offset st) (Z.of_nat ID_COUNT)
                        (Some j :: rest) = Some ([], Some j :: rest)).
    { cbn [search length]. rewrite Nat.sub_diag. simpl. rewrite Ep. simpl. rewrite Hd. simpl.
      destruct (decide (Some j = Some j)); [reflexivity|congruence]. }
    rewrite Esearch in Hsb. simpl in Hsb. rewrite Ep in Hsb. simpl in Hsb.
    rewrite begin_same in Hsb by congruence.
    injection Hsb as <-. constructor; loop_fields.
    + intros i s1 Hi Hi'. destruct (decide (i = l_cur_state_iter st)) as [->|Hne].
      * rewrite list_lookup_insert_eq in Hi by (eapply lookup_lt_Some; exact Hs).
        injection Hi as <-. apply in_style_need_close. repeat split; assumption.
      * rewrite list_lookup_insert_ne in Hi by congruence. eapply Hus; eassumption.
    + rewrite !count_chunks_app, Hsp. simpl.
      destruct (Nat.eqb_spec (l_cur_state_iter st) 0%nat); [lia|]. reflexivity.
    + rewrite !count_chunks_app, Hln. reflexivity.
Qed.

Lemma resolve_offset_plain p wsm cur c last target res :
  resolve_offset p wsm cur c last target = Some res ->
  count_chunks is_span_begin (r_out res) = 0%nat /\ count_chunks is_line_open (r_out res) = 0%nat.
Proof.
  unfold resolve_offset. intros H0.
  destruct (abs target <=? h_eps p)%float; [injection H0 as <-; split; reflexivity|].
  destruct cur as [s|]; [|discriminate]. simpl in H0.
  destruct (_ && _); [injection H0 as <-; split; reflexivity|].
  destruct (install wsm target) as [[wid actual] wsm'].
  destruct (negb _); injection H0 as <-; split; reflexivity.
Qed.

Lemma loop_body_uniform (st st' : Loop (M:=M)) :
  loop_inv offs starts st -> uniform_inv starts I U H st -> (l_cur_text_idx st < length txt)%nat ->
  loop_body txt offs st = Some st' -> uniform_inv starts I U H st'.
Proof.
  intros Hinv Huni Hc Hb. unfold loop_body in Hb.
  destruct (l_states st !! l_cur_state_iter st) as [s|] eqn:Es; [|discriminate].
  simpl in Hb.
  destruct (if Nat.leb (start_idx s) (l_cur_text_idx st) then state_boundary st else Some st)
    as [st1|] eqn:E1; [|discriminate].
  simpl in Hb.
  assert (Huni1 : uniform_inv starts I U H st1).
  { destruct (Nat.leb_spec (start_idx s) (l_cur_text_idx st)).
    - eapply state_boundary_uniform; try eassumption. lia.
    - injection E1 as <-. assumption. }
  destruct (offs !! l_cur_offset_iter st1) as [o|] eqn:Eo; [|discriminate]. simpl in Hb.
  destruct (if Nat.leb (o_start_idx o) (l_cur_text_idx st1) then offset_boundary st1 o else Some st1)
    as [st2|] eqn:E2; [|discriminate].
  simpl in Hb.
  assert (Huni2 : uniform_inv starts I U H st2).
  { destruct (Nat.leb (o_start_idx o) (l_cur_text_idx st1)); [|injection E2 as <-; assumption].
    unfold offset_boundary in E2.
    destruct (resolve_offset _ _ _ _ _ _) as [res|] eqn:Er; [|discriminate].
    simpl in E2. injection E2 as <-.
    destruct (resolve_offset_plain _ _ _ _ _ _ _ Er) as [Hr1 Hr2].
    destruct Huni1 as [Hus Hsp Hln]. constructor; loop_fields.
    - exact Hus.
    - rewrite count_chunks_app, Hsp, Hr1. apply Nat.add_0_r.
    - rewrite count_chunks_app, Hln, Hr2. reflexivity. }
  destruct (l_states st2 !! l_cur_state_iter st2) as [s'|]; [|discriminate].
  destruct (offs !! l_cur_offset_iter st2) as [o'|]; [|discriminate].
  simpl in Hb. destruct (decide _); [|discriminate]. injection Hb as <-.
  destruct Huni2 as [Hus Hsp Hln]. constructor; loop_fields.
  - exact Hus.
  - rewrite count_chunks_app, Hsp. apply Nat.add_0_r.
  - rewrite count_chunks_app, Hln. reflexivity.
Qed.

End Loop.

(** ** Buffers built by appends *)

Lemma map_back_snoc {A} (f : A -> A) l a : map_back f (l ++ [a]) = l ++ [f a].
Proof.
  induction l as [|x l IH]; [reflexivity|].
  simpl. rewrite IH. destruct (l ++ [a]) eqn:E; [|reflexivity].
  destruct l; discriminate.
Qed.

Lemma list_snoc_cases {A} (l : list A) : l = [] \/ exists l' a, l = l' ++ [a].
Proof.
  destruct (last l) as [a|] eqn:E.
  - right. apply last_Some in E. destruct E as [l' ->]. eauto.
  - left. apply last_None. exact E.
Qed.

Lemma map_back_fmap {A B} (g : A -> B) (f : A -> A) l :
  (forall a, g (f a) = g a) -> g <$> map_back f l = g <$> l.
Proof.
  intros Hg. destruct (list_snoc_cases l) as [->|(l' & a & ->)]; [reflexivity|].
  rewrite map_back_snoc, !fmap_app. simpl. rewrite Hg. reflexivity.
Qed.

Lemma positions_inv_mono n m l : positions_inv n l -> (n <= m)%nat -> positions_inv m l.
Proof.
  intros [Hs Hb] Hnm. split; [assumption|].
  eapply Forall_impl; [exact Hb|]. intros a Ha. simpl in Ha. lia.
Qed.

Lemma positions_inv_push n l :
  positions_inv n l ->
  match last l with Some a => a <> n | None => True end ->
  positions_inv n (l ++ [n]).
Proof.
  intros [Hs Hb] Hl. split.
  - apply StronglySorted_app. split; [|split; [assumption|repeat constructor]].
    intros a b Ha Hb'. apply list_elem_of_singleton in Hb'. subst b.
    destruct (list_snoc_cases l) as [->|(l' & x & ->)]; [inversion Ha|].
    rewrite last_snoc in Hl.
    apply Forall_app in Hb. destruct Hb as [_ Hx]. apply Forall_inv in Hx. cbv beta in Hx.
    apply StronglySorted_app in Hs. destruct Hs as (Hlt & _ & _).
    apply elem_of_app in Ha. destruct Ha as [Ha|Ha].
    + specialize (Hlt a x Ha ltac:(left)). lia.
    + apply list_elem_of_singleton in Ha. subst a. lia.
  - apply Forall_app. split; [assumption|]. constructor; [lia|constructor].
Qed.

Section Inv.
Context {M : Type} {SM : StateManager M} {MU : MathUtil}.

Lemma set_state_start_idx (r : Renderer M) s : start_idx (set_state r s) = start_idx s.
Proof. reflexivity. Qed.

Lemma append_unicodes_inv b u : buffer_inv b -> buffer_inv (append_unicodes b u).
Proof.
  intros [Ho Hs]. split; simpl; rewrite length_app;
    eapply positions_inv_mono; try eassumption; lia.
Qed.

Lemma append_offset_inv b w : buffer_inv b -> buffer_inv (append_offset b w).
Proof.
  intros [Ho Hs]. split; [|exact Hs]. unfold append_offset. simpl.
  destruct (last (offsets b)) as [o|] eqn:El.
  - destruct (Nat.eqb_spec (o_start_idx o) (length (text b))) as [E|E].
    + rewrite map_back_fmap by reflexivity. exact Ho.
    + rewrite fmap_app. apply positions_inv_push; [assumption|].
      rewrite fmap_last, El. simpl. exact E.
  - rewrite fmap_app. apply positions_inv_push; [assumption|].
    rewrite fmap_last, El. exact I.
Qed.

Lemma append_state_inv (r : Renderer M) b : buffer_inv b -> buffer_inv (append_state r b).
Proof.
  intros [Ho Hs]. split; [exact Ho|]. unfold append_state. simpl.
  rewrite map_back_fmap by reflexivity.
  destruct (last (states b)) as [s|] eqn:El.
  - destruct (Nat.eqb_spec (start_idx s) (length (text b))) as [E|E]; simpl; [exact Hs|].
    rewrite fmap_app. apply positions_inv_push; [assumption|].
    rewrite fmap_last, El. simpl. exact E.
  - rewrite fmap_app. apply positions_inv_push; [assumption|].
    rewrite fmap_last, El. exact I.
Qed.

Lemma run_ops_inv (ops : list (op (M:=M))) : forall b, buffer_inv b -> buffer_inv (run_ops b ops).
Proof.
  induction ops as [|o ops IH]; intros b Hb; [assumption|].
  simpl. apply IH. destruct o; simpl.
  - apply append_unicodes_inv. assumption.
  - apply append_offset_inv. assumption.
  - apply append_state_inv. assumption.
Qed.

Lemma empty_buffer_inv : buffer_inv empty_buffer.
Proof. repeat split; constructor. Qed.

End Inv.

(** ** [flush] *)

Lemma StronglySorted_lookup_lt (l : list nat) i j a b :
  StronglySorted lt l -> l !! i = Some a -> l !! j = Some b -> (i < j)%nat -> (a < b)%nat.
Proof.
  intros Hs. revert i j. induction Hs as [|x l Hs IH Hx]; intros i j Hi Hj Hij; [discriminate|].
  destruct j as [|j]; [lia|]. simpl in Hj. destruct i as [|i]; simpl in Hi.
  - injection Hi as <-. rewrite Forall_lookup in Hx. exact (Hx _ _ Hj).
  - apply (IH i j); [assumption..|lia].
Qed.

Lemma positions_inv_ok n l : positions_inv n l -> positions_ok n (l ++ [n]).
Proof.
  intros [Hs Hb]. split.
  - intros i j a b Hi Hj Hij Ha.
    destruct (Nat.lt_ge_cases j (length l)) as [Hj'|Hj'].
    + rewrite lookup_app_l in Hi, Hj by lia. eapply StronglySorted_lookup_lt; eassumption.
    + rewrite lookup_app_r in Hj by lia.
      destruct (j - length l)%nat as [|k]; simpl in Hj; [|destruct k; discriminate].
      injection Hj as <-. exact Ha.
  - apply Forall_app. split; [assumption|]. constructor; [lia|constructor].
  - apply last_snoc.
Qed.

Section Flush.
Context {M : Type} {SM : StateManager M} {MU : MathUtil}.

Lemma optimize_loop_starts th txt sts : forall it (wm : M),
  start_idx <$> fst (optimize_loop th txt it wm sts) = start_idx <$> sts.
Proof.
  induction sts as [|s1 rest IH]; intros it wm; [reflexivity|].
  cbn [optimize_loop].
  destruct (has_space _).
  - specialize (IH it wm). destruct (optimize_loop th txt it wm rest).
    cbn [fst] in *. rewrite !fmap_cons. f_equal. exact IH.
  - destruct (collect_widths _ _ _ _) as [width_map it2].
    destruct width_map as [|e width_map].
    + specialize (IH it2 wm). destruct (optimize_loop th txt it2 wm rest).
      cbn [fst] in *. rewrite !fmap_cons. f_equal. exact IH.
    + destruct (install wm _) as [[id actual] wm1].
      specialize (IH it2 wm1). destruct (optimize_loop th txt it2 wm1 rest).
      cbn [fst] in *. rewrite !fmap_cons. f_equal. exact IH.
Qed.

Lemma optimize_fields (r : Renderer M) b :
  text (snd (optimize r b)) = text b /\ offsets (snd (optimize r b)) = offsets b
  /\ start_idx <$> states (snd (optimize r b)) = start_idx <$> states b.
Proof.
  unfold optimize.
  pose proof (optimize_loop_starts (space_threshold (param r)) (text b) (states b) (offsets b)
                (word_space_manager r)) as H.
  destruct (optimize_loop _ _ _ _ _) as [sts' wm']. simpl in *. auto.
Qed.

Lemma close_all_ok bound (sts : list State) stack :
  stack_wf bound stack -> (bound <= length sts)%nat ->
  exists out stack', close_all sts stack = Some (out, stack')
    /\ count_opened out = 0%nat
    /\ count_closed out = count_closed (ends sts stack).
Proof.
  intros Hwf Hb. unfold close_all.
  pose proof Hwf as (js & E & Hjs).
  pose proof (stack_wf_valid _ _ _ Hwf Hb _ _ _ E) as Hpre.
  assert (Hex : exists out stack', pop_until sts None stack = Some (out, stack')).
  { rewrite E. apply (pop_until_total sts None (map Some js) []). exact Hpre. }
  destruct Hex as (out & stack' & Ep).
  exists out, stack'. split; [assumption|].
  destruct (pop_until_spec _ _ _ _ _ Ep) as (popped & E1 & Hh & Hni & ->).
  split; [apply count_opened_ends|].
  rewrite E1, ends_app, count_closed_app.
  assert (stack' = [None]) as ->.
  { rewrite E in E1. clear -E1 Hh Hni. revert js E1.
    induction popped as [|e popped IH]; intros js E1.
    - destruct js as [|j js]; simpl in *; [congruence|]. subst stack'. discriminate.
    - destruct js as [|j js]; simpl in E1.
      + injection E1 as <- E1. exfalso. apply Hni. left. reflexivity.
      + injection E1 as <- E1. apply (IH ltac:(intros ?; apply Hni; right; assumption) js E1). }
  simpl. unfold count_closed. simpl. lia.
Qed.

(** The render pass on a line whose first state starts at index 0: the loop
    and the final pops are defined, and [flush] returns what they wrote. *)
Lemma flush_run (r : Renderer M) b s0 :
  buffer_inv b -> text b <> [] -> head (states b) = Some s0 -> start_idx s0 = 0%nat ->
  exists offs' starts st0 st out_close stack' fuel,
    positions_ok (length (text b)) starts
    /\ head starts = Some 0%nat
    /\ positions_ok (length (text b)) (o_start_idx <$> offs')
    /\ length starts = S (length (states b))
    /\ loop_inv offs' starts st0
    /\ l_states st0
       = map hash (states (snd (optimize r b)) ++ [with_start_idx State_default (length (text b))])
    /\ (exists lid hid bid, l_out st0 = [LineOpen (tm_id b) lid hid bid])
    /\ l_cur_state_iter st0 = 0%nat
    /\ render_loop fuel (text b) offs' st0 = Some st
    /\ loop_inv offs' starts st
    /\ (length (text b) <= l_cur_text_idx st)%nat
    /\ close_all (l_states st) (l_stack st) = Some (out_close, stack')
    /\ count_opened out_close = 0%nat
    /\ count_closed out_close = count_closed (ends (l_states st) (l_stack st))
    /\ flush r b = Some (mkFlushed (l_out st ++ out_close ++ [LineEnd]) [] (l_renderer st)
                                   (mkBuffer (x b) (y b) (tm_id b) [] [] [])).
Proof.
  intros [Ho Hs] Hne Eh E0. unfold flush.
  destruct (decide (text b = [])); [contradiction|].
  rewrite Eh. destruct (Nat.eqb_spec (start_idx s0) 0) as [_|?]; [|contradiction]. cbn [negb].
  destruct (optimize_fields r b) as (Et & Eo & Es).
  assert (Ex : x (snd (optimize r b)) = x b /\ y (snd (optimize r b)) = y b
               /\ tm_id (snd (optimize r b)) = tm_id b).
  { unfold optimize. destruct (optimize_loop _ _ _ _ _). auto. }
  destruct Ex as (Ex & Ey & Etm).
  destruct (optimize r b) as [r1 b1]. cbn [snd] in *. cbv zeta.
  destruct (install (height_manager r1) _) as [[hid ?] hm].
  destruct (install (left_manager r1) _) as [[lid ?] lm].
  destruct (install (bottom_manager r1) _) as [[bid ?] bm].
  rewrite Et, Eo, Ex, Ey, Etm.
  set (states3 := map hash (states b1 ++ [with_start_idx State_default (length (text b))])).
  set (offsets' := offsets b ++ [mkOffset (length (text b)) 0%float]).
  set (st0 := mkLoop _ _ _ _ _ _ _ _ _).
  set (starts := (start_idx <$> states b) ++ [length (text b)]).
  assert (Hst3 : start_idx <$> states3 = starts).
  { unfold states3, starts.
    assert (Hh : forall l, start_idx <$> map hash l = start_idx <$> l).
    { induction l as [|a l IH]; [reflexivity|]. cbn [map]. rewrite !fmap_cons. f_equal. exact IH. }
    rewrite Hh, fmap_app, Es. reflexivity. }
  assert (Hpos : positions_ok (length (text b)) starts).
  { apply positions_inv_ok. assumption. }
  assert (Hposo : positions_ok (length (text b)) (o_start_idx <$> offsets')).
  { unfold offsets'. rewrite fmap_app. apply positions_inv_ok. assumption. }
  assert (Hfirst : head starts = Some 0%nat).
  { unfold starts. destruct (states b) as [|s rest]; [discriminate|].
    simpl in *. injection Eh as ->. rewrite E0. reflexivity. }
  assert (Hinv0 : loop_inv offsets' starts st0).
  { constructor; unfold st0; loop_fields.
    - exact Hst3.
    - intros; lia.
    - unfold starts. rewrite length_app. simpl. lia.
    - intros; lia.
    - unfold offsets'. rewrite length_app. simpl. lia.
    - exists []. split; [reflexivity|constructor].
    - lia.
    - reflexivity. }
  set (fuel := S (length (text b) + length states3 + length offsets')).
  destruct (render_loop_ok (text b) offsets' starts Hpos Hfirst Hposo fuel st0 Hinv0)
    as (st & Er & Hinv); [unfold st0, fuel; loop_fields; lia|].
  assert (Hend : (length (text b) <= l_cur_text_idx st)%nat).
  { eapply render_loop_end. exact Er. }
  destruct (close_all_ok (l_cur_state_iter st) (l_states st) (l_stack st))
    as (out_close & stack' & Ec & Hco & Hcc).
  { apply (inv_stack _ _ _ Hinv). }
  { pose proof (inv_state_valid _ _ _ Hinv) as Hv.
    rewrite <- (inv_starts _ _ _ Hinv), length_fmap in Hv. lia. }
  exists offsets', starts, st0, st, out_close, stack', fuel.
  repeat (split; [first [assumption | reflexivity | idtac]|]).
  - unfold starts. rewrite length_app, length_fmap. simpl. lia.
  - exists lid, hid, bid. reflexivity.
  - rewrite Er. cbn [mbind option_bind]. rewrite Ec. reflexivity.
Qed.

(** [flush] returns, and what it writes is balanced. *)
Lemma flush_ok (r : Renderer M) b :
  buffer_inv b ->
  exists f, flush r b = Some f /\ count_opened (f_out f) = count_closed (f_out f).
Proof.
  intros Hb.
  destruct (decide (text b = [])) as [Et|Et].
  { unfold flush. destruct (decide (text b = [])); [|contradiction].
    eexists; split; reflexivity. }
  destruct (head (states b)) as [s0|] eqn:Eh.
  2:{ unfold flush. destruct (decide (text b = [])); [contradiction|]. rewrite Eh.
      eexists; split; reflexivity. }
  destruct (Nat.eq_dec (start_idx s0) 0%nat) as [E0|E0].
  2:{ unfold flush. destruct (decide (text b = [])); [contradiction|]. rewrite Eh.
      destruct (Nat.eqb_spec (start_idx s0) 0); [contradiction|].
      eexists; split; reflexivity. }
  destruct (flush_run r b s0 Hb Et Eh E0)
    as (offs' & starts & st0 & st & out_close & stack' & fuel & _ & _ & _ & _ & _ & _ & _ & _ & _
        & Hinv & _ & _ & Hco & Hcc & ->).
  eexists. split; [reflexivity|]. cbn [f_out].
  rewrite !count_opened_app, !count_closed_app, Hco, Hcc, (inv_balance _ _ _ Hinv).
  change (count_opened [LineEnd]) with 0%nat. change (count_closed [LineEnd]) with 1%nat. lia.
Qed.

(** C7. For every sequence of append calls, [flush] returns, and what it
    writes opens as many elements (line wrapper, style wrappers, gap
    elements) as it closes. *)
Theorem flush_balanced (r : Renderer M) (ops : list (op (M:=M))) :
  exists f, flush r (run_ops empty_buffer ops) = Some f
            /\ count_opened (f_out f) = count_closed (f_out f).
Proof. apply flush_ok, run_ops_inv, empty_buffer_inv. Qed.

End Flush.

Lemma count_chunks_opened f out :
  (forall c, f c = true -> opened c = 1%nat) -> count_opened out = 0%nat -> count_chunks f out = 0%nat.
Proof.
  intros Hf. unfold count_opened, count_chunks.
  induction out as [|c out IH]; [reflexivity|]. simpl. intros Hc.
  destruct (f c) eqn:E; [apply Hf in E; lia|]. apply IH. lia.
Qed.

Lemma bound_land s i : bound s i = true <-> Z.land (hash_umask s) (umask_by_id i) = 0.
Proof.
  unfold bound, is_set. rewrite negb_involutive. apply Z.eqb_eq.
Qed.

Section Uniform.
Context {M : Type} {SM : StateManager M} {MU : MathUtil}.

Lemma map_back_Forall {A} (P : A -> Prop) (f : A -> A) l :
  (forall a, P a -> P (f a)) -> Forall P l -> Forall P (map_back f l).
Proof.
  intros Hf Hl. destruct (list_snoc_cases l) as [->|(l' & a & ->)]; [constructor|].
  rewrite map_back_snoc. apply Forall_app in Hl. destruct Hl as [Hl Ha].
  apply Forall_app. split; [assumption|]. apply Forall_inv in Ha. repeat constructor. auto.
Qed.

Lemma run_ops_unmasked (ops : list (op (M:=M))) : forall b, unmasked b -> unmasked (run_ops b ops).
Proof.
  induction ops as [|o ops IH]; intros b Hb; [assumption|].
  simpl. apply IH. destruct o; simpl; try assumption.
  unfold unmasked, append_state. simpl.
  apply map_back_Forall; [intros a Ha; exact Ha|].
  destruct (match last (states b) with Some s => _ | None => true end); [|assumption].
  apply Forall_app. split; [assumption|]. repeat constructor.
Qed.

Lemma optimize_loop_font_bound th txt sts : forall it (wm : M),
  Forall (fun s => bound s FONT_ID = true) sts ->
  Forall (fun s => bound s FONT_ID = true) (fst (optimize_loop th txt it wm sts)).
Proof.
  induction sts as [|s1 rest IH]; intros it wm Hall; [constructor|].
  apply Forall_cons in Hall. destruct Hall as [H1 Hall].
  cbn [optimize_loop].
  destruct (has_space _).
  - specialize (IH it wm Hall). destruct (optimize_loop th txt it wm rest).
    cbn [fst] in *. constructor; assumption.
  - destruct (collect_widths _ _ _ _) as [width_map it2].
    destruct width_map as [|e width_map].
    + specialize (IH it2 wm Hall). destruct (optimize_loop th txt it2 wm rest).
      cbn [fst] in *. constructor; [|assumption].
      apply bound_land. apply bound_land in H1. simpl.
      rewrite Z.land_lor_distr_l, H1. reflexivity.
    + destruct (install wm _) as [[id actual] wm1].
      specialize (IH it2 wm1 Hall). destruct (optimize_loop th txt it2 wm1 rest).
      cbn [fst] in *. constructor; [|assumption].
      apply bound_land. apply bound_land in H1. simpl. unfold word_space_umask.
      rewrite umask_clear_other by (unfold FONT_ID, WORD_SPACE_ID; lia). exact H1.
Qed.

Lemma optimize_font_bound (r : Renderer M) b :
  unmasked b -> Forall (fun s => bound s FONT_ID = true) (states (snd (optimize r b))).
Proof.
  intros Hu. unfold optimize.
  pose proof (optimize_loop_font_bound (space_threshold (param r)) (text b) (states b) (offsets b)
                (word_space_manager r)) as Hf.
  destruct (optimize_loop _ _ _ _ _) as [sts' wm']. simpl in *. apply Hf.
  eapply Forall_impl; [exact Hu|]. intros s Hs. apply bound_land. simpl in Hs. rewrite Hs.
  reflexivity.
Qed.

(** C8, as amended. When, after word-space inference, all segments of a line
    carry the same ids and bind the same channels, [flush] writes one line
    wrapper and exactly one style element: the one the first segment opens
    under the root. *)
Theorem flush_uniform_style (r : Renderer M) (ops : list (op (M:=M))) (s0 : State) :
  let b := run_ops empty_buffer ops in
  text b <> [] ->
  head (states b) = Some s0 -> start_idx s0 = 0%nat ->
  uniform (states (snd (optimize r b))) ->
  exists f, flush r b = Some f
            /\ count_chunks is_line_open (f_out f) = 1%nat
            /\ count_chunks is_span_begin (f_out f) = 1%nat.
Proof.
  intros b Ht Eh E0 Huni.
  assert (Hb : buffer_inv b) by apply run_ops_inv, empty_buffer_inv.
  assert (Hm : unmasked b) by (apply run_ops_unmasked; constructor).
  pose proof (optimize_font_bound r b Hm) as Hfb.
  destruct (flush_run r b s0 Hb Ht Eh E0)
    as (offs' & starts & st0 & st & out_close & stack' & fuel & Hpos & Hfirst & Hposo & Hlen
        & Hinv0 & Est0 & (lid & hid & bid & Eout0) & Esi0 & Er & Hinv & Hend & Ec & Hco & _ & ->).
  destruct (optimize_fields r b) as (_ & _ & Es).
  assert (Hl1 : length (states (snd (optimize r b))) = length (states b)).
  { rewrite <- (length_fmap start_idx), Es. apply length_fmap. }
  destruct (states (snd (optimize r b))) as [|s1 rest1] eqn:Eopt.
  { destruct (states b); [discriminate|]. simpl in Hl1. lia. }
  apply Forall_cons in Hfb. destruct Hfb as [Hb1 _].
  assert (HU : Z.land (hash_umask s1) (umask_by_id FONT_ID) = 0).
  { apply bound_land. exact Hb1. }
  assert (Hu0 : uniform_inv starts (ids s1) (hash_umask s1) (hash_of (ids s1)) st0).
  { constructor.
    - intros i s Hi Hi'. rewrite Est0 in Hi.
      change (map hash ?l) with (hash <$> l) in Hi. rewrite list_lookup_fmap in Hi.
      rewrite lookup_app_l in Hi by (rewrite Hl1; lia).
      destruct ((s1 :: rest1) !! i) as [si|] eqn:Ei; [|discriminate]. injection Hi as <-.
      destruct (Huni si s1) as [Ei1 Ei2].
      + apply list_elem_of_In. eapply list_elem_of_lookup_2. exact Ei.
      + left. reflexivity.
      + unfold in_style, hash. simpl. rewrite Ei1, Ei2. auto.
    - rewrite Eout0, Esi0. reflexivity.
    - rewrite Eout0. reflexivity. }
  assert (Hstep : forall st1 st2 : Loop (M:=M),
            loop_inv offs' starts st1 ->
            uniform_inv starts (ids s1) (hash_umask s1) (hash_of (ids s1)) st1 ->
            (l_cur_text_idx st1 < length (text b))%nat ->
            loop_body (text b) offs' st1 = Some st2 ->
            uniform_inv starts (ids s1) (hash_umask s1) (hash_of (ids s1)) st2).
  { intros st1 st2 Hi1 Hu1 Hc1 Hb1'.
    eapply (loop_body_uniform (text b) offs' starts); try eassumption.
    unfold FONT_ID, ID_COUNT. lia. }
  destruct (render_loop_keeps (text b) offs' starts Hpos Hfirst Hposo _ Hstep
              fuel st0 st Hinv0 Hu0 Er) as [_ Hsp Hln].
  eexists. split; [reflexivity|]. cbn [f_out].
  assert (Hsi : l_cur_state_iter st <> 0%nat).
  { intros E. pose proof (inv_state_iter _ _ _ Hinv 0%nat) as Hi. rewrite E in Hi.
    rewrite <- head_lookup in Hi. specialize (Hi Hfirst).
    destruct (text b); [congruence|]. simpl in Hend. lia. }
  rewrite !count_chunks_app, Hsp, Hln.
  rewrite !(count_chunks_opened _ out_close) by (assumption || (intros c Hc; destruct c; simpl in *; congruence)).
  destruct (Nat.eqb_spec (l_cur_state_iter st) 0); [contradiction|]. split; reflexivity.
Qed.

End Uniform.

(** ** The claims on the state model and the accumulator *)

(** C4, as amended. [begin(self, parent)], channel by channel. A channel bound
    in [self] stays as it is; no class name is written for it when the
    parent exists, binds the channel and carries the same id, and exactly
    one is written otherwise (the sentinel for the id -1), in particular
    under a parent that leaves the channel free and under no parent. A
    channel free in [self] writes nothing; under a parent that binds it, it
    becomes bound to the parent's id and, for font size, letter spacing and
    word spacing, takes the parent's value; otherwise it stays free. One
    element is opened, and [self] owns a close, exactly when a class name
    was written; otherwise nothing is written and [end] writes nothing. *)
Theorem begin_channels (self : State) (prev_state : option State) :
  let out := fst (begin self prev_state) in
  let self' := snd (begin self prev_state) in
  (forall i, (i < ID_COUNT)%nat -> channel_outcome self prev_state i out self')
  /\ (if need_close self'
      then count_chunks is_span_begin out = 1%nat
           /\ (exists body, out = SpanBegin :: body ++ [SpanBeginEnd])
           /\ List.filter is_token out <> []
           /\ end_ self' = [SpanEnd]
      else out = [] /\ end_ self' = []).
Proof.
  cbv zeta. split; [intros i Hi; apply begin_channel; assumption|].
  unfold begin.
  pose proof (begin_loop_shape prev_state ID_COUNT 0 self true [] ltac:(lia) eq_refl) as Hsh.
  change (umask_by_id 0) with 255 in Hsh.
  destruct (begin_loop prev_state 0 ID_COUNT 255 (self, true, [])) as [[s' f'] out'].
  destruct f'; simpl; [auto|].
  destruct Hsh as (body & -> & Hall & Htok).
  assert (Hc : count_chunks is_span_begin body = 0%nat).
  { unfold count_chunks. clear -Hall.
    induction body as [|c body IH]; [reflexivity|]. simpl in Hall.
    apply andb_true_iff in Hall. destruct Hall as [Hc Hall]. simpl.
    destruct c; simpl in *; try discriminate; apply IH; exact Hall. }
  repeat split.
  - change (SpanBegin :: body) with ([SpanBegin] ++ body).
    rewrite !count_chunks_app, Hc. reflexivity.
  - exists body. reflexivity.
  - rewrite List.filter_app. intros E. apply app_eq_nil in E. destruct E as [E _]. contradiction.
Qed.


Section AccumulatorClaims.
Context {M : Type} {SM : StateManager M} {MU : MathUtil}.

Lemma flush_without_style (r : Renderer M) (b : TextLineBuffer) :
  text b <> [] ->
  match head (states b) with Some s0 => start_idx s0 <> 0%nat | None => True end ->
  flush r b = Some (mkFlushed [] [TextWithoutStyle] r b).
Proof.
  intros Ht Hh. unfold flush. destruct (decide (text b = [])); [contradiction|].
  destruct (head (states b)) as [s0|]; [|reflexivity].
  destruct (Nat.eqb_spec (start_idx s0) 0); [contradiction|]. reflexivity.
Qed.

(** C9. [append_offset] at a position without a record pushes a record at the
    current text length; a second call at that position leaves one record
    there whose width is the sum of the two widths; a call at the position
    of the last record adds its width to that record; and on every buffer
    built by appends the positions of the offsets are strictly increasing. *)
Theorem append_offset_merges (b : TextLineBuffer) (w1 w2 : double) :
  let n := length (text b) in
  let fresh := match last (offsets b) with Some o => o_start_idx o <> n | None => True end in
  (fresh -> offsets (append_offset b w1) = offsets b ++ [mkOffset n w1])
  /\ (fresh -> offsets (append_offset (append_offset b w1) w2)
               = offsets b ++ [mkOffset n (w1 + w2)%float])
  /\ (forall pre o, offsets b = pre ++ [o] -> o_start_idx o = n ->
        offsets (append_offset b w1) = pre ++ [mkOffset n (width o + w1)%float])
  /\ (forall ops : list (op (M:=M)),
        StronglySorted lt (o_start_idx <$> offsets (run_ops empty_buffer ops))).
Proof.
  cbv zeta.
  assert (Hpush : match last (offsets b) with
                  | Some o => o_start_idx o <> length (text b) | None => True end ->
                  offsets (append_offset b w1) = offsets b ++ [mkOffset (length (text b)) w1]).
  { intros Hf. unfold append_offset. simpl. destruct (last (offsets b)) as [o|]; [|reflexivity].
    destruct (Nat.eqb_spec (o_start_idx o) (length (text b))); [contradiction|reflexivity]. }
  split; [exact Hpush|]. split; [|split].
  - intros Hf. unfold append_offset at 1. rewrite (Hpush Hf).
    cbn [offsets text append_offset]. rewrite last_snoc. cbn [o_start_idx].
    rewrite Nat.eqb_refl, map_back_snoc. reflexivity.
  - intros pre o E En. unfold append_offset. simpl. rewrite E, last_snoc, En, Nat.eqb_refl.
    rewrite map_back_snoc. rewrite En. reflexivity.
  - intros ops. apply (run_ops_inv ops empty_buffer empty_buffer_inv).
Qed.

(** C10. [append_state] at the position of the last segment creates no
    segment and overwrites the segment's seven ids and its values with the
    current style; so of two snapshots taken at one position only the
    second takes effect. *)
Theorem append_state_overwrites (r1 r2 : Renderer M) (b : TextLineBuffer) :
  append_state r2 (append_state r1 b) = append_state r2 b
  /\ (forall pre s, states b = pre ++ [s] -> start_idx s = length (text b) ->
        states (append_state r1 b) = pre ++ [set_state r1 s])
  /\ (forall s,
        ids (set_state r1 s)
        = mkIds (fi_id (cur_font_info r1)) (get_id (font_size_manager r1))
                (get_id (fill_color_manager r1)) (get_id (stroke_color_manager r1))
                (get_id (letter_space_manager r1)) (get_id (word_space_manager r1))
                (get_id (rise_manager r1))
        /\ font_info (set_state r1 s) = cur_font_info r1
        /\ draw_font_size (set_state r1 s) = get_actual_value (font_size_manager r1)
        /\ letter_space (set_state r1 s) = get_actual_value (letter_space_manager r1)
        /\ word_space (set_state r1 s) = get_actual_value (word_space_manager r1)).
Proof.
  split; [|split].
  - unfold append_state. cbn [states text x y tm_id offsets]. f_equal.
    set (fresh := with_hash_umask (with_start_idx State_default (length (text b))) 0).
    assert (Hover : forall s, set_state r2 (set_state r1 s) = set_state r2 s) by reflexivity.
    destruct (list_snoc_cases (states b)) as [E|(pre & s & E)]; rewrite E.
    + simpl. rewrite Nat.eqb_refl. reflexivity.
    + rewrite last_snoc.
      destruct (Nat.eqb_spec (start_idx s) (length (text b))) as [Es|Es]; cbn [negb].
      * rewrite !map_back_snoc, last_snoc. cbn [start_idx set_state].
        rewrite Es, Nat.eqb_refl. cbn [negb]. rewrite map_back_snoc, Hover. reflexivity.
      * rewrite !map_back_snoc, last_snoc. cbn [start_idx set_state fresh with_hash_umask with_start_idx].
        rewrite Nat.eqb_refl. cbn [negb]. rewrite map_back_snoc, Hover. reflexivity.
  - intros pre s E Es. unfold append_state. cbn [states]. rewrite E, last_snoc, Es, Nat.eqb_refl.
    cbn [negb]. apply map_back_snoc.
  - intros s. repeat split.
Qed.

End AccumulatorClaims.

(** ** The claims on the render pass *)

Section RenderClaims.
Context {M : Type} {SM : StateManager M} {MU : MathUtil}.

(** C1, as amended. At an offset boundary, with [target = offset.width + carry]
    and the state on top of the stack as the active one, the step is defined,
    the new carry is [target - actual], the states and the stack are as
    before, and what is written and registered is decided in this order. If
    [|target| <= h_eps], nothing is written, [actual = 0] and the gap-width
    registry is as before. Otherwise, if the active state binds the
    word-spacing channel and [target] is within [h_eps] of
    [word_space + letter_space + space_width * draw_font_size], one space
    character is written, [actual] is that advance and the registry is as
    before. Otherwise [target] is installed in the gap-width registry, the
    registry is the one that [install] returns and [actual] the offset it
    returns; a gap element with the returned id is written, holding a space
    exactly when
    [target > draw_font_size * (ascent - descent) * space_threshold - EPS],
    unless the returned offset is [equal] to 0, in which case nothing is
    written. *)
Theorem offset_boundary_resolution (st : Loop (M:=M)) (o : Offset) (cur : State) :
  stack_back_state (l_states st) (l_stack st) = Some cur ->
  let p := param (l_renderer st) in
  let target := (width o + l_dx st)%float in
  let advance :=
    (word_space cur + letter_space cur + space_width (font_info cur) * draw_font_size cur)%float in
  let threshold :=
    (draw_font_size cur * (ascent (font_info cur) - descent (font_info cur))
     * space_threshold p)%float in
  let '(wid, snapped, registry') := install (whitespace_manager (l_renderer st)) target in
  exists st' emitted actual gaps,
    offset_boundary st o = Some st'
    /\ l_out st' = l_out st ++ emitted
    /\ l_dx st' = (target - actual)%float
    /\ l_renderer st' = with_whitespace_manager (l_renderer st) gaps
    /\ l_states st' = l_states st
    /\ l_stack st' = l_stack st
    /\ (if (abs target <=? h_eps p)%float then
          emitted = [] /\ actual = 0%float /\ gaps = whitespace_manager (l_renderer st)
        else if bound cur WORD_SPACE_ID && (abs (target - advance) <=? h_eps p)%float then
          emitted = [Unicodes [32]] /\ actual = advance
          /\ gaps = whitespace_manager (l_renderer st)
        else
          actual = snapped /\ gaps = registry'
          /\ emitted = if equal snapped 0%float then []
                       else [Gap wid (threshold - EPS <? target)%float]).
Proof.
  intros Hcur. cbv zeta. unfold offset_boundary, resolve_offset, bound. rewrite Hcur.
  unfold single_space_offset, em_size.
  destruct (install (whitespace_manager (l_renderer st)) (width o + l_dx st)%float)
    as [[wid snapped] wsm'] eqn:Ei.
  destruct (abs (width o + l_dx st) <=? h_eps (param (l_renderer st)))%float.
  - simpl. eexists _, [], _, _. repeat split.
  - simpl. destruct (_ && _).
    + simpl. eexists _, _, _, _. repeat split.
    + destruct (equal snapped 0%float); simpl.
      * eexists _, [], _, _. repeat split.
      * eexists _, _, _, _. repeat split.
Qed.

(** C3, as amended. The index that the scan of the open-element stack does
    not cross is the variable [last_text_pos_with_negative_offset], which is
    0 when the loop starts. An offset boundary sets it to the current text
    index when the offset is installed in the gap-width registry and the
    offset that the registry returns is not [equal] to 0 and has a positive
    negation; an offset within [h_eps] of zero, an offset written as a space
    character (whatever its sign) and any other installed offset leave it as
    it is. A state boundary and the writing of text leave it as it is. At a
    state boundary the scan pops a prefix of the stack and closes exactly the
    popped elements, each of which starts after that index; hence an element
    that starts at or before it stays open, together with everything below
    it, whatever the costs of the elements below it are. *)
Theorem search_keeps_negative_offset_boundary (st : Loop (M:=M)) :
  (forall o cur,
     stack_back_state (l_states st) (l_stack st) = Some cur ->
     let p := param (l_renderer st) in
     let target := (width o + l_dx st)%float in
     let advance :=
       (word_space cur + letter_space cur
        + space_width (font_info cur) * draw_font_size cur)%float in
     let '(_, snapped, _) := install (whitespace_manager (l_renderer st)) target in
     exists st',
       offset_boundary st o = Some st'
       /\ l_last_text_pos_with_negative_offset st'
          = if (abs target <=? h_eps p)%float then l_last_text_pos_with_negative_offset st
            else if bound cur WORD_SPACE_ID && (abs (target - advance) <=? h_eps p)%float
            then l_last_text_pos_with_negative_offset st
            else if equal snapped 0%float then l_last_text_pos_with_negative_offset st
            else if is_positive (- snapped)%float then l_cur_text_idx st
            else l_last_text_pos_with_negative_offset st)
  /\ (forall st',
        state_boundary st = Some st' ->
        l_last_text_pos_with_negative_offset st' = l_last_text_pos_with_negative_offset st
        /\ exists cur prev popped kept,
             l_states st !! l_cur_state_iter st = Some cur
             /\ l_stack st = popped ++ kept
             /\ l_stack st' = Some (l_cur_state_iter st) :: kept
             /\ l_out st' = l_out st ++ ends (l_states st) popped ++ fst (begin cur prev)
             /\ Forall (after_negative (l_states st) (l_last_text_pos_with_negative_offset st))
                       popped
             /\ (forall above j s below,
                   l_stack st = above ++ Some j :: below -> l_states st !! j = Some s ->
                   (start_idx s <= l_last_text_pos_with_negative_offset st)%nat ->
                   exists above', kept = above' ++ Some j :: below))
  /\ (forall txt offs st',
        write_text txt offs st = Some st' ->
        l_last_text_pos_with_negative_offset st' = l_last_text_pos_with_negative_offset st)
  /\ (forall r1 b1, l_last_text_pos_with_negative_offset (loop_start r1 b1) = 0%nat).
Proof.
  split; [|split; [|split]].
  - intros o cur Hcur. cbv zeta. unfold offset_boundary, resolve_offset, bound.
    rewrite Hcur. unfold single_space_offset.
    destruct (install (whitespace_manager (l_renderer st)) (width o + l_dx st)%float)
      as [[wid snapped] wsm'] eqn:Ei.
    destruct (abs (width o + l_dx st) <=? h_eps (param (l_renderer st)))%float.
    + simpl. eexists. split; reflexivity.
    + simpl. destruct (_ && _).
      * simpl. eexists. split; reflexivity.
      * destruct (equal snapped 0%float); simpl; eexists; split; reflexivity.
  - unfold state_boundary. intros st' H.
    destruct (l_states st !! l_cur_state_iter st) as [cur|]; [|discriminate]. simpl in H.
    destruct (search _ _ _ _ _ _) as [[out1 stack1]|] eqn:Es; [|discriminate]. simpl in H.
    destruct (search_spec _ _ _ _ _ _ _ _ Es) as (popped & Ep & Hp & ->); [lia| |].
    { rewrite Nat.sub_diag. constructor. }
    destruct (head stack1) as [back|]; [|discriminate]. simpl in H.
    destruct (match back with Some j => _ | None => _ end) as [prev|]; [|discriminate].
    simpl in H. destruct (begin cur prev) as [out2 cur'] eqn:Eb. injection H as <-.
    split; [reflexivity|].
    exists cur, prev, popped, stack1. rewrite Eb. cbn [l_stack l_out fst].
    split; [reflexivity|]. split; [assumption|]. split; [reflexivity|].
    split; [reflexivity|]. split; [assumption|].
    intros above j s below Ea Ej Hle.
    assert (Hlen : (length popped <= length above)%nat).
    { destruct (Nat.le_gt_cases (length popped) (length above)) as [?|Hgt]; [assumption|].
      exfalso.
      assert (Hl : popped !! length above = Some (Some j)).
      { rewrite <- (lookup_app_l popped stack1) by assumption. rewrite <- Ep, Ea.
        rewrite lookup_app_r by lia. rewrite Nat.sub_diag. reflexivity. }
      rewrite Forall_lookup in Hp. destruct (Hp _ _ Hl) as (j' & s' & [= <-] & Ej' & Hlt).
      rewrite Ej in Ej'. injection Ej' as <-. lia. }
    exists (drop (length popped) above).
    rewrite Ea in Ep.
    rewrite <- (take_drop (length popped) above) in Ep at 1.
    rewrite <- app_assoc in Ep.
    assert (Hpl : length (take (length popped) above) = length popped)
      by (rewrite length_take; lia).
    apply app_inj_1 in Ep; [|exact Hpl]. destruct Ep as [_ Ep]. symmetry. exact Ep.
  - unfold write_text. intros txt offs st' H.
    destruct (l_states st !! l_cur_state_iter st) as [s'|]; [|discriminate]. simpl in H.
    destruct (offs !! l_cur_offset_iter st) as [o'|]; [|discriminate]. simpl in H.
    destruct (decide _); [|discriminate]. injection H as <-. reflexivity.
  - intros r1 b1. unfold loop_start.
    destruct (install (height_manager r1) _) as [[hid h] hm].
    destruct (install (left_manager r1) _) as [[lid l] lm].
    destruct (install (bottom_manager r1) _) as [[bid b] bm]. reflexivity.
Qed.

End RenderClaims.

(** ** The claim on word-space inference *)

Lemma is_set_lor u i : is_set (Z.lor u (umask_by_id i)) (umask_by_id i) = true.
Proof.
  unfold is_set. rewrite Z.land_lor_distr_l, Z.land_diag.
  apply negb_true_iff, Z.eqb_neq. intros E. apply Z.lor_eq_0_iff in E.
  destruct E as [_ E]. exact (umask_nonzero i E).
Qed.

Section OptimizeClaims.
Context {M : Type} {SM : StateManager M} {MU : MathUtil}.

(** C2, as amended. On a buffer whose positions increase strictly (every
    buffer built by appends), [optimize] returns the buffer with its states
    replaced by those that [infer_segments] computes, and the renderer with
    its word-space registry replaced by the registry that [infer_segments]
    leaves: the segments are taken in order and the registry is handed from
    one to the next. For one segment and the registry it is handed: a
    segment whose text holds a space is left unchanged, and so is the
    registry; otherwise, with the widths of the offsets inside the segment
    that are not below
    [draw_font_size * (ascent - descent) * space_threshold - EPS], if there
    is none the word-spacing channel becomes free and the registry is left
    unchanged, and if there are some the channel becomes bound, and its id,
    its value and the registry are what [install] returns for
    [w - (0 + letter_space + space_width * draw_font_size)], where [w] is the
    representative of the first group, in increasing order of the
    representatives, whose count is the largest. *)
Theorem optimize_infers_word_space (r : Renderer M) (b : TextLineBuffer) :
  buffer_inv b ->
  let fraction := space_threshold (param r) in
  let inferred :=
    infer_segments fraction (text b) (offsets b) (word_space_manager r) (states b) in
  optimize r b
  = (with_word_space_manager r (snd inferred),
     mkBuffer (x b) (y b) (tm_id b) (text b) (offsets b) (fst inferred))
  /\ forall (registry : M) (s : State) (seg_end : nat),
       let widths := qualifying_widths fraction s seg_end (offsets b) in
       let w := most_frequent (group_widths widths) in
       let new_word_space :=
         (w - (0 + letter_space s + space_width (font_info s) * draw_font_size s))%float in
       let '(s', registry') :=
         infer_segment fraction (text b) (offsets b) registry s seg_end in
       if spaceless (text b) (start_idx s) seg_end then
         match widths with
         | [] => bound s' WORD_SPACE_ID = false /\ registry' = registry
         | _ :: _ =>
             bound s' WORD_SPACE_ID = true
             /\ (ids_get (ids s') WORD_SPACE_ID, word_space s', registry')
                = install registry new_word_space
         end
       else s' = s /\ registry' = registry.
Proof.
  intros [Ho Hs]. cbv zeta. split.
  - unfold optimize. rewrite (optimize_loop_infer _ _ _ _ _ []).
    + cbn [app]. destruct (infer_segments _ _ _ _ _). reflexivity.
    + apply Hs.
    + apply Ho.
    + intros; constructor.
  - intros registry s seg_end. unfold infer_segment.
    destruct (spaceless (text b) (start_idx s) seg_end); [|split; reflexivity].
    destruct (qualifying_widths _ s seg_end (offsets b)) as [|w0 ws].
    + split; [|reflexivity]. unfold bound. cbn [hash_umask with_hash_umask].
      rewrite is_set_lor. reflexivity.
    + destruct (install registry _) as [[id value] registry'] eqn:Ei. split.
      * apply bound_land. cbn [hash_umask]. apply umask_clear_same.
      * cbn [ids word_space]. rewrite ids_get_set_same; [reflexivity|].
        unfold WORD_SPACE_ID, ID_COUNT. lia.
Qed.

End OptimizeClaims.

(** * Further properties of the line buffer *)

(** ** [diff], both ways *)

Lemma diff_loop_sym cm a b n : forall i m d,
  diff_loop cm a b i n m d = diff_loop cm b a i n m d.
Proof.
  induction n as [|n IH]; intros i m d; [reflexivity|].
  cbn [diff_loop]. rewrite (Z.eqb_sym (ids_get a i)). apply IH.
Qed.

Lemma diff_loop_bounds cm a b n : forall i m d,
  d <= diff_loop cm a b i n m d <= d + Z.of_nat n.
Proof.
  induction n as [|n IH]; intros i m d; cbn [diff_loop]; [lia|].
  destruct (_ && _).
  - specialize (IH (S i) (Z.shiftl m 8) (d + 1)). lia.
  - specialize (IH (S i) (Z.shiftl m 8) d). lia.
Qed.

(** X10. [diff] does not depend on which of the two states is [this], and its
    result lies between 0 and [ID_COUNT]. *)
Theorem diff_symmetric_bounded (a b : State) :
  diff a b = diff b a /\ 0 <= diff a b <= Z.of_nat ID_COUNT.
Proof.
  unfold diff. rewrite (Z.lor_comm (hash_umask b)), (Z.eqb_sym (Z.land (hash_value b) _)).
  destruct (_ =? _).
  - split; [reflexivity|]. simpl. lia.
  - split; [apply diff_loop_sym|].
    pose proof (diff_loop_bounds (Z.lnot (Z.lor (hash_umask a) (hash_umask b))) (ids a) (ids b)
                  ID_COUNT 0%nat 255 0). lia.
Qed.

(** ** The bytes of [hash] *)

Lemma testbit_255 n : Z.testbit 255 n = (0 <=? n) && (n <? 8).
Proof.
  destruct (Z.leb_spec 0 n) as [Hn|Hn]; [|apply Z.testbit_neg_r; lia].
  change 255 with (Z.ones 8). destruct (Z.ltb_spec n 8).
  - apply Z.ones_spec_low. lia.
  - apply Z.ones_spec_high. lia.
Qed.

Lemma hash_step_testbit h id n : 0 <= n ->
  Z.testbit (hash_step h id) n = if n <? 8 then Z.testbit id n else Z.testbit h (n - 8).
Proof.
  intros Hn. unfold hash_step.
  rewrite Z.lor_spec, Z.shiftl_spec, Z.land_spec, testbit_255 by assumption.
  destruct (Z.ltb_spec n 8).
  - rewrite Z.testbit_neg_r by lia. destruct (Z.leb_spec 0 n); [|lia].
    simpl. apply andb_true_r.
  - rewrite !andb_false_r, orb_false_r. reflexivity.
Qed.

Lemma hash_step_range h id : 0 <= h -> 0 <= hash_step h id < 256 * (h + 1).
Proof.
  intros Hh. unfold hash_step.
  assert (Hl : 0 <= Z.land id 255 < 256).
  { change 255 with (Z.ones 8). rewrite Z.land_ones by lia. apply Z.mod_pos_bound. lia. }
  assert (Hs : Z.shiftl h 8 = h * 256) by (rewrite Z.shiftl_mul_pow2 by lia; reflexivity).
  assert (Hd : Z.land (Z.shiftl h 8) (Z.land id 255) = 0).
  { apply Z.bits_inj'. intros n Hn.
    rewrite Z.bits_0, !Z.land_spec, Z.shiftl_spec, testbit_255 by lia.
    destruct (Z.ltb_spec n 8).
    - rewrite Z.testbit_neg_r by lia. reflexivity.
    - rewrite !andb_false_r. reflexivity. }
  rewrite <- Z.lxor_lor, <- Z.add_nocarry_lxor by assumption. lia.
Qed.

Lemma hash_of_range a : 0 <= hash_of a < 2 ^ 56.
Proof.
  unfold hash_of. cbn [fold_left seq ID_COUNT].
  pose proof (hash_step_range 0 (ids_get a 0) ltac:(lia)) as H0.
  pose proof (hash_step_range _ (ids_get a 1) (proj1 H0)) as H1.
  pose proof (hash_step_range _ (ids_get a 2) (proj1 H1)) as H2.
  pose proof (hash_step_range _ (ids_get a 3) (proj1 H2)) as H3.
  pose proof (hash_step_range _ (ids_get a 4) (proj1 H3)) as H4.
  pose proof (hash_step_range _ (ids_get a 5) (proj1 H4)) as H5.
  pose proof (hash_step_range _ (ids_get a 6) (proj1 H5)) as H6.
  change (2 ^ 56) with 72057594037927936. lia.
Qed.

Lemma hash_of_mask a i : (i < ID_COUNT)%nat ->
  Z.land (hash_of a) (umask_by_id i)
  = Z.shiftl (Z.land (ids_get a (6 - i)) 255) (8 * Z.of_nat i).
Proof.
  intros Hi. apply Z.bits_inj'. intros n Hn.
  rewrite Z.land_spec, umask_testbit, Z.shiftl_spec, Z.land_spec, testbit_255 by assumption.
  unfold hash_of. cbn [fold_left seq ID_COUNT].
  unfold ID_COUNT in Hi.
  do 7 (destruct i as [|i]; [
    simpl (8 * Z.of_nat _); simpl (6 - _)%nat;
    repeat first
      [ rewrite hash_step_testbit by lia
      | match goal with |- context [?x <? ?y] => destruct (Z.ltb_spec x y) end
      | match goal with |- context [?x <=? ?y] => destruct (Z.leb_spec x y) end ];
    try lia; cbn [andb]; rewrite ?andb_true_r, ?andb_false_r, ?Z.bits_0;
    try reflexivity; try (f_equal; lia);
    match goal with |- ?G => idtac G; fail 1000 end
  |]).
  lia.
Qed.

(** X9. [hash] packs the low byte of each id into [hash_value], the first
    channel in the highest of seven bytes: under the mask of channel [i] lies
    the id of channel [6 - i]. The packed value fits in 56 bits. *)
Theorem hash_byte_order (s : State) (i : nat) :
  (i < ID_COUNT)%nat ->
  Z.land (hash_value (hash s)) (umask_by_id i)
  = Z.shiftl (Z.land (ids_get (ids s) (6 - i)) 255) (8 * Z.of_nat i)
  /\ 0 <= hash_value (hash s) < 2 ^ 56.
Proof.
  intros Hi. unfold hash. cbn [hash_value with_hash_value].
  split; [apply hash_of_mask; assumption|apply hash_of_range].
Qed.

(** ** The tag of [begin], as a whole *)

Lemma tag_start_cons f c cs :
  tag_start f (c :: cs) = [if f then SpanBegin else Sep; c] ++ tag_start false cs.
Proof. destruct cs; reflexivity. Qed.

Lemma emits_chan s s' prev j : chan j s' = chan j s -> emits s' prev j = emits s prev j.
Proof.
  intros E. destruct (chan_bound _ _ _ E) as (Eb & Ei & _).
  unfold emits. rewrite Eb, Ei. reflexivity.
Qed.

Lemma tokens_from_chan s s' prev k n :
  (forall j, (k <= j < k + n)%nat -> chan j s' = chan j s) ->
  tokens_from s' prev k n = tokens_from s prev k n.
Proof.
  revert k. induction n as [|n IH]; intros k H; [reflexivity|].
  unfold tokens_from in *. cbn [seq List.filter].
  rewrite (emits_chan s s' prev k) by (apply H; lia).
  destruct (chan_bound _ _ _ (H k ltac:(lia))) as (_ & Ei & _).
  destruct (emits s prev k); cbn [map]; rewrite ?Ei, IH; try reflexivity; intros; apply H; lia.
Qed.

Lemma begin_loop_out prev n : forall k s f out,
  (k + n <= ID_COUNT)%nat ->
  exists s' f' out',
    begin_loop prev k n (umask_by_id k) (s, f, out) = (s', f', out')
    /\ out' = out ++ tag_start f (tokens_from s prev k n)
    /\ f' = f && match tokens_from s prev k n with [] => true | _ => false end.
Proof.
  induction n as [|n IH]; intros k s f out Hk.
  - exists s, f, out. cbn [begin_loop]. unfold tokens_from. cbn.
    rewrite app_nil_r, andb_true_r. auto.
  - cbn [begin_loop]. rewrite umask_shift.
    pose proof (begin_step_local prev k s f out ltac:(lia)) as Hl.
    pose proof (fun j (H : j <> k) => begin_step_frame prev k j s f out H) as Hf.
    destruct (begin_step prev k (umask_by_id k) (s, f, out)) as [[s1 f1] out1].
    cbv zeta in Hl.
    destruct (IH (S k) s1 f1 out1 ltac:(lia)) as (s' & f' & out' & -> & -> & ->).
    exists s', (f1 && match tokens_from s1 prev (S k) n with [] => true | _ => false end),
      (out1 ++ tag_start f1 (tokens_from s1 prev (S k) n)).
    split; [reflexivity|].
    assert (Et : tokens_from s1 prev (S k) n = tokens_from s prev (S k) n).
    { apply tokens_from_chan. intros j Hj. apply (Hf j). lia. }
    rewrite Et.
    assert (Ecur : tokens_from s prev k (S n)
                   = (if emits s prev k then [class_token k (ids_get (ids s) k)] else [])
                     ++ tokens_from s prev (S k) n).
    { unfold tokens_from. cbn [seq List.filter]. destruct (emits s prev k); reflexivity. }
    rewrite Ecur. unfold emits.
    destruct (bound s k) eqn:Eb.
    + destruct Hl as [-> Hl]. cbn [andb].
      assert (Ep : match prev with
                   | Some p => bound p k && (ids_get (ids p) k =? ids_get (ids s) k)
                   | None => false
                   end
                   = (match prev with Some p => bound p k | None => false end)
                     && ((match prev with Some p => ids_get (ids p) k | None => 0 end)
                         =? ids_get (ids s) k)).
      { destruct prev; reflexivity. }
      rewrite Ep. destruct (_ && _).
      * destruct Hl as [-> ->]. cbn [negb app]. auto.
      * destruct Hl as [-> ->]. cbn [negb app]. rewrite tag_start_cons, <- app_assoc.
        rewrite andb_false_r. auto.
    + destruct Hl as (-> & -> & _). cbn [andb app]. auto.
Qed.

Lemma begin_span_tag s p : fst (begin s p) = span_tag (class_list s p).
Proof.
  unfold begin.
  destruct (begin_loop_out p ID_COUNT 0 s true [] ltac:(reflexivity))
    as (s' & f' & out' & E & -> & ->).
  change (umask_by_id 0) with 255 in E. rewrite E.
  change (tokens_from s p 0 ID_COUNT) with (class_list s p).
  destruct (class_list s p) as [|c cs]; reflexivity.
Qed.

(** X11. [begin] writes nothing when no channel needs a class name; otherwise
    it writes one opening span tag whose class names are those of the
    emitting channels, in channel order, each after the first behind one
    blank. *)
Theorem begin_writes_classes_in_order (self : State) (prev_state : option State) :
  fst (begin self prev_state) = span_tag (class_list self prev_state).
Proof. apply begin_span_tag. Qed.

(** X12. [begin] leaves [start_idx], [font_info] and [hash_value] as they are:
    the packed key is not refreshed, also when ids are inherited. *)
Theorem begin_keeps_hash_value (self : State) (prev_state : option State) :
  let self' := snd (begin self prev_state) in
  start_idx self' = start_idx self
  /\ font_info self' = font_info self
  /\ hash_value self' = hash_value self.
Proof.
  cbv zeta. unfold begin.
  pose proof (begin_loop_fields prev_state ID_COUNT 0 self true []) as H.
  change (umask_by_id 0) with 255 in H.
  destruct (begin_loop _ _ _ _ _) as [[s' f] out].
  destruct H as (H1 & H2 & _ & H4). destruct f; simpl; auto.
Qed.

(** ** What [optimize] leaves alone *)

Lemma umask_disjoint j k : j <> k -> Z.land (umask_by_id j) (umask_by_id k) = 0.
Proof.
  intros Hjk. apply Z.bits_inj'. intros n Hn.
  rewrite Z.land_spec, !umask_testbit, Z.bits_0 by assumption.
  destruct (Z.leb_spec (8 * Z.of_nat j) n), (Z.ltb_spec n (8 * Z.of_nat j + 8)),
    (Z.leb_spec (8 * Z.of_nat k) n), (Z.ltb_spec n (8 * Z.of_nat k + 8));
    simpl; try reflexivity; lia.
Qed.

Lemma umask_set_other u j k : j <> k ->
  Z.land (Z.lor u (umask_by_id k)) (umask_by_id j) = Z.land u (umask_by_id j).
Proof.
  intros Hjk. rewrite Z.land_lor_distr_l, (umask_disjoint k j) by congruence. apply Z.lor_0_r.
Qed.

Lemma ws_only_refl s : ws_only s s.
Proof. split; [destruct s as [[] ? ? ? ? ? ? ? ?]; reflexivity|reflexivity]. Qed.

Section OptimizeFrame.
Context {M : Type} {SM : StateManager M} {MU : MathUtil}.

Lemma optimize_loop_ws_only th txt sts : forall it (wm : M),
  Forall2 ws_only sts (fst (optimize_loop th txt it wm sts)).
Proof.
  induction sts as [|s1 rest IH]; intros it wm; [constructor|].
  cbn [optimize_loop].
  destruct (has_space _).
  - specialize (IH it wm). destruct (optimize_loop th txt it wm rest).
    constructor; [apply ws_only_refl|exact IH].
  - destruct (collect_widths _ _ _ _) as [width_map it2].
    destruct width_map as [|e width_map].
    + specialize (IH it2 wm). destruct (optimize_loop th txt it2 wm rest).
      constructor; [|exact IH]. split.
      * destruct s1 as [[] ? ? ? ? ? ? ? ?]; reflexivity.
      * intros i Hi. cbn [hash_umask with_hash_umask]. apply umask_set_other. assumption.
    + destruct (install wm _) as [[id actual] wm1].
      specialize (IH it2 wm1). destruct (optimize_loop th txt it2 wm1 rest).
      constructor; [|exact IH]. split.
      * destruct s1 as [[] ? ? ? ? ? ? ? ?]; reflexivity.
      * intros i Hi. cbn. apply umask_clear_other. assumption.
Qed.

Lemma optimize_ws_only (r : Renderer M) b :
  Forall2 ws_only (states b) (states (snd (optimize r b))).
Proof.
  unfold optimize.
  pose proof (optimize_loop_ws_only (space_threshold (param r)) (text b) (states b) (offsets b)
                (word_space_manager r)) as H.
  destruct (optimize_loop _ _ _ _ _). exact H.
Qed.

Lemma optimize_loop_masks th txt sts : forall it (wm : M),
  Forall (fun s => hash_umask s = 0) sts ->
  Forall (fun s => hash_umask s = 0 \/ hash_umask s = word_space_umask)
         (fst (optimize_loop th txt it wm sts)).
Proof.
  induction sts as [|s1 rest IH]; intros it wm H; [constructor|].
  apply Forall_cons in H. destruct H as [H1 Hr].
  cbn [optimize_loop].
  destruct (has_space _).
  - specialize (IH it wm Hr). destruct (optimize_loop th txt it wm rest).
    constructor; [left; assumption|exact IH].
  - destruct (collect_widths _ _ _ _) as [width_map it2].
    destruct width_map as [|e width_map].
    + specialize (IH it2 wm Hr). destruct (optimize_loop th txt it2 wm rest).
      constructor; [|exact IH]. right. cbn. rewrite H1. reflexivity.
    + destruct (install wm _) as [[id actual] wm1].
      specialize (IH it2 wm1 Hr). destruct (optimize_loop th txt it2 wm1 rest).
      constructor; [|exact IH]. left. cbn. rewrite H1. reflexivity.
Qed.

Lemma umask_wf_0 : umask_wf 0.
Proof. intros i _. left. apply Z.land_0_l. Qed.

Lemma umask_wf_word_space : umask_wf word_space_umask.
Proof.
  intros i _. unfold word_space_umask.
  destruct (Nat.eq_dec i WORD_SPACE_ID) as [->|Hne].
  - right. apply Z.land_diag.
  - left. apply umask_disjoint. congruence.
Qed.

(** X13. [optimize] changes nothing but the word-spacing channel of the
    states (its id, its value, its byte of the mask) and the word-space
    registry: anchor, text, offsets, the number of states and every other
    field and channel are as before. *)
Theorem optimize_touches_only_word_space (r : Renderer M) (b : TextLineBuffer) :
  let r' := fst (optimize r b) in
  let b' := snd (optimize r b) in
  r' = with_word_space_manager r (word_space_manager r')
  /\ b' = mkBuffer (x b) (y b) (tm_id b) (text b) (offsets b) (states b')
  /\ length (states b') = length (states b)
  /\ forall k s s', states b !! k = Some s -> states b' !! k = Some s' ->
       s' = mkState (ids_set (ids s) WORD_SPACE_ID (ids_get (ids s') WORD_SPACE_ID))
              (hash_umask s') (hash_value s) (start_idx s) (need_close s) (font_info s)
              (draw_font_size s) (letter_space s) (word_space s')
       /\ forall i, i <> WORD_SPACE_ID ->
            Z.land (hash_umask s') (umask_by_id i) = Z.land (hash_umask s) (umask_by_id i).
Proof.
  cbv zeta. unfold optimize.
  pose proof (optimize_loop_ws_only (space_threshold (param r)) (text b) (states b) (offsets b)
                (word_space_manager r)) as H.
  destruct (optimize_loop _ _ _ _ _) as [sts' wm']. cbn [fst snd] in *.
  split; [reflexivity|]. split; [reflexivity|]. cbn [states].
  split; [symmetry; eapply Forall2_length; exact H|].
  intros k s s' Hs Hs'. exact (Forall2_lookup_lr _ _ _ _ _ _ H Hs Hs').
Qed.

(** X14. Every state of a buffer built by appends binds all seven channels,
    and after [optimize] the mask of each state is zero or the mask of the
    word-spacing channel alone: it frees whole channels. *)
Theorem optimize_masks_free_whole_channels (r : Renderer M) (ops : list (op (M:=M))) :
  let b := run_ops empty_buffer ops in
  Forall (fun s => hash_umask s = 0) (states b)
  /\ Forall (fun s => (hash_umask s = 0 \/ hash_umask s = word_space_umask)
                      /\ umask_wf (hash_umask s))
            (states (snd (optimize r b))).
Proof.
  cbv zeta.
  assert (H0 : unmasked (run_ops empty_buffer ops)) by (apply run_ops_unmasked; constructor).
  split; [exact H0|].
  unfold optimize.
  pose proof (optimize_loop_masks (space_threshold (param r)) (text (run_ops empty_buffer ops))
                (states (run_ops empty_buffer ops)) (offsets (run_ops empty_buffer ops))
                (word_space_manager r) H0) as H.
  destruct (optimize_loop _ _ _ _ _) as [sts' wm']. cbn [fst snd states] in *.
  eapply Forall_impl; [exact H|]. intros s [E|E].
  - split; [left; assumption|]. rewrite E. apply umask_wf_0.
  - split; [right; assumption|]. rewrite E. apply umask_wf_word_space.
Qed.

(** ** The anchor and the text under appends *)

Lemma run_op_anchor (b : TextLineBuffer) (o : op (M:=M)) :
  x (run_op b o) = x b /\ y (run_op b o) = y b /\ tm_id (run_op b o) = tm_id b
  /\ text (run_op b o) = text b ++ unicodes_of o.
Proof. destruct o; cbn; rewrite ?app_nil_r; auto. Qed.

Lemma run_ops_anchor (ops : list (op (M:=M))) : forall b,
  x (run_ops b ops) = x b /\ y (run_ops b ops) = y b /\ tm_id (run_ops b ops) = tm_id b
  /\ text (run_ops b ops) = text b ++ flat_map unicodes_of ops.
Proof.
  induction ops as [|o ops IH]; intros b.
  - cbn. rewrite app_nil_r. auto.
  - unfold run_ops in *. cbn [fold_left flat_map].
    destruct (IH (run_op b o)) as (-> & -> & -> & ->).
    destruct (run_op_anchor b o) as (-> & -> & -> & ->).
    rewrite <- app_assoc. auto.
Qed.

(** X15. The anchor that [set_pos] stores (the point and the id of the
    current transform matrix) survives every later append, and the text of
    the buffer is the text it had followed by the appended code points, in
    call order: [append_offset] and [append_state] add no text. *)
Theorem appends_keep_anchor_and_text (r : Renderer M) (b : TextLineBuffer) (tx ty : double)
    (ops : list (op (M:=M))) :
  let b' := run_ops (set_pos r b tx ty) ops in
  x b' = tx /\ y b' = ty /\ tm_id b' = get_id (transform_matrix_manager r)
  /\ text b' = text b ++ flat_map unicodes_of ops.
Proof.
  cbv zeta. destruct (run_ops_anchor ops (set_pos r b tx ty)) as (-> & -> & -> & ->). auto.
Qed.

End OptimizeFrame.

(** ** The scan keeps the better match *)

Lemma search_cost sts cur last_neg : forall n best stack out stack',
  search n sts cur last_neg best stack = Some (out, stack') ->
  (n <= length stack)%nat ->
  Forall (fun e => best <= cost_of sts cur e) (take (length stack - n) stack) ->
  exists popped, stack = popped ++ stack'
    /\ (popped = []
        \/ exists j s, head stack' = Some (Some j) /\ sts !! j = Some s
                       /\ diff cur s < best
                       /\ Forall (fun e => diff cur s < cost_of sts cur e) popped).
Proof.
  induction n as [|n IH]; intros best stack out stack' H Hn Habove; [discriminate|].
  cbn [search] in H.
  destruct (stack !! (length stack - S n)%nat) as [it|] eqn:Eit; [|discriminate].
  simpl in H. destruct it as [j|].
  2:{ injection H as <- <-. exists []. auto. }
  destruct (sts !! j) as [s|] eqn:Ej; [|discriminate]. simpl in H.
  assert (Hstep : forall c, c <= best -> c <= diff cur s ->
            Forall (fun e => c <= cost_of sts cur e) (take (length stack - n) stack)).
  { intros c Hc Hcs. replace (length stack - n)%nat with (S (length stack - S n)) by lia.
    erewrite take_S_r by exact Eit. apply Forall_app. split.
    - eapply Forall_impl; [exact Habove|]. cbv beta. intros; lia.
    - constructor; [|constructor]. cbn [cost_of]. rewrite Ej. exact Hcs. }
  destruct (Z.ltb_spec (diff cur s) best) as [Hlt|Hge].
  - destruct (pop_until sts (Some j) stack) as [[out1 stack1]|] eqn:Epop; [|discriminate].
    simpl in H.
    destruct (pop_until_spec _ _ _ _ _ Epop) as (popped1 & E1 & Hh1 & Hni1 & ->).
    assert (Hlen1 : (length popped1 <= length stack - S n)%nat).
    { destruct (Nat.le_gt_cases (length popped1) (length stack - S n)) as [?|Hgt]; [assumption|].
      exfalso. apply Hni1. rewrite E1, lookup_app_l in Eit by (rewrite <- E1; lia).
      apply list_elem_of_In. eapply list_elem_of_lookup_2. exact Eit. }
    assert (Hp1 : Forall (fun e => best <= cost_of sts cur e) popped1).
    { replace popped1 with (take (length popped1) (take (length stack - S n) stack)).
      - apply Forall_take. exact Habove.
      - rewrite take_take, Nat.min_l by lia. rewrite E1. apply take_app_length. }
    assert (Hdone : Some (ends sts popped1, stack1) = Some (out, stack') ->
              exists popped, stack = popped ++ stack'
                /\ (popped = []
                    \/ exists j s, head stack' = Some (Some j) /\ sts !! j = Some s
                                   /\ diff cur s < best
                                   /\ Forall (fun e => diff cur s < cost_of sts cur e) popped)).
    { intros [= <- <-]. exists popped1. split; [assumption|]. right. exists j, s.
      repeat split; try assumption.
      eapply Forall_impl; [exact Hp1|]. cbv beta. intros; lia. }
    destruct (diff cur s =? 0); [auto|].
    destruct (Nat.leb_spec (start_idx s) last_neg); [auto|].
    destruct (search n sts cur last_neg (diff cur s) stack1) as [[out2 stack2]|] eqn:Es;
      [|discriminate].
    simpl in H. injection H as <- <-.
    assert (Hl : length stack = (length popped1 + length stack1)%nat).
    { rewrite E1 at 1. apply length_app. }
    destruct (IH _ _ _ _ Es) as (popped2 & E2 & Hp2).
    + lia.
    + specialize (Hstep (diff cur s) ltac:(lia) ltac:(lia)).
      remember (length stack - n)%nat as m eqn:Em.
      rewrite E1 in Hstep. rewrite take_app_ge in Hstep by lia.
      apply Forall_app in Hstep. destruct Hstep as [_ Hstep].
      replace (length stack1 - n)%nat with (m - length popped1)%nat by lia.
      exact Hstep.
    + exists (popped1 ++ popped2). split; [rewrite <- app_assoc, <- E2; exact E1|].
      right. destruct Hp2 as [->|(j2 & s2 & Hh2 & Ej2 & Hlt2 & Hall2)].
      * cbn [app] in E2. rewrite app_nil_r, <- E2. exists j, s. repeat split; try assumption.
        eapply Forall_impl; [exact Hp1|]. cbv beta. intros; lia.
      * exists j2, s2. repeat split; try assumption; [lia|].
        apply Forall_app. split; [|assumption].
        eapply Forall_impl; [exact Hp1|]. cbv beta. intros; lia.
  - destruct (Nat.leb_spec (start_idx s) last_neg).
    + injection H as <- <-. exists []. auto.
    + apply (IH _ _ _ _ H); [lia|]. apply Hstep; lia.
Qed.

(** X16. Whatever the scan of a state boundary pops is a worse match than what
    it keeps: when it pops anything, the entry left on top of the stack
    costs less than [ID_COUNT] and strictly less than every popped entry. *)
Theorem search_pops_worse_matches (sts : list State) (cur : State) (last_neg : nat)
    (stack : Stack) (out : list chunk) (stack' : Stack) :
  search (length stack) sts cur last_neg (Z.of_nat ID_COUNT) stack = Some (out, stack') ->
  exists popped, stack = popped ++ stack'
    /\ (popped = []
        \/ exists j s, head stack' = Some (Some j) /\ sts !! j = Some s
                       /\ diff cur s < Z.of_nat ID_COUNT
                       /\ Forall (fun e => diff cur s < cost_of sts cur e) popped).
Proof.
  intros H. apply (search_cost _ _ _ _ _ _ _ _ H); [lia|].
  rewrite Nat.sub_diag. constructor.
Qed.

(** ** What one turn of the render loop writes *)

Lemma ends_span_end sts popped : Forall (fun c => c = SpanEnd) (ends sts popped).
Proof.
  induction popped as [|e popped IH]; [constructor|].
  change (ends sts (e :: popped)) with (end_of sts e ++ ends sts popped).
  apply Forall_app. split; [|exact IH].
  destruct e as [j|]; [|constructor]. cbn [end_of].
  destruct (sts !! j) as [s|]; [|constructor].
  unfold end_. destruct (need_close s); repeat constructor.
Qed.

Lemma span_tag_parts cl :
  Forall (fun c => is_token c = true) cl ->
  Forall (fun c => is_tag_part c = true) (span_tag cl)
  /\ (count_chunks is_span_begin (span_tag cl) <= 1)%nat.
Proof.
  intros H. destruct cl as [|c cs]; [split; [constructor|cbn; lia]|].
  apply Forall_cons in H. destruct H as [Hc Hcs].
  assert (Hw : Forall (fun c => is_tag_part c = true /\ is_span_begin c = false) (with_seps cs)).
  { clear Hc. induction Hcs as [|c' cs' Hc' _ IH]; [constructor|].
    cbn. constructor; [auto|]. constructor; [|exact IH].
    destruct c'; try discriminate; auto. }
  cbn [span_tag]. split.
  - constructor; [reflexivity|]. constructor; [destruct c; try discriminate; reflexivity|].
    apply Forall_app. split; [|repeat constructor].
    eapply Forall_impl; [exact Hw|]. intros ? [? _]. assumption.
  - assert (E : List.filter is_span_begin (c :: with_seps cs ++ [SpanBeginEnd]) = []).
    { apply filter_none. constructor; [destruct c; try discriminate; reflexivity|].
      apply Forall_app. split; [|repeat constructor].
      eapply Forall_impl; [exact Hw|]. intros ? [_ ?]. assumption. }
    change (SpanBegin :: c :: with_seps cs ++ [SpanBeginEnd])
      with ([SpanBegin] ++ (c :: with_seps cs ++ [SpanBeginEnd])).
    rewrite count_chunks_app. unfold count_chunks at 2. rewrite E. cbn. lia.
Qed.

Lemma class_list_tokens s p : Forall (fun c => is_token c = true) (class_list s p).
Proof.
  unfold class_list. apply Forall_map, Forall_forall. intros i _. apply class_token_is_token.
Qed.

Lemma begin_parts s p :
  Forall (fun c => is_tag_part c = true) (fst (begin s p))
  /\ (count_chunks is_span_begin (fst (begin s p)) <= 1)%nat.
Proof. rewrite begin_span_tag. apply span_tag_parts, class_list_tokens. Qed.

Section LoopOutput.
Context {M : Type} {SM : StateManager M} {MU : MathUtil}.

Lemma state_boundary_out (st st1 : Loop (M:=M)) :
  state_boundary st = Some st1 ->
  exists popped stack1 tag,
    l_stack st = popped ++ stack1
    /\ l_out st1 = l_out st ++ ends (l_states st) popped ++ tag
    /\ Forall (fun c => is_tag_part c = true) tag
    /\ (count_chunks is_span_begin tag <= 1)%nat
    /\ l_cur_state_iter st1 = S (l_cur_state_iter st)
    /\ l_cur_offset_iter st1 = l_cur_offset_iter st
    /\ l_cur_text_idx st1 = l_cur_text_idx st
    /\ l_renderer st1 = l_renderer st.
Proof.
  unfold state_boundary. intros H.
  destruct (l_states st !! l_cur_state_iter st) as [cur|]; [|discriminate]. simpl in H.
  destruct (search _ _ _ _ _ _) as [[out1 stack1]|] eqn:Es; [|discriminate]. simpl in H.
  destruct (search_spec _ _ _ _ _ _ _ _ Es) as (popped & Ep & _ & ->); [lia| |].
  { rewrite Nat.sub_diag. constructor. }
  destruct (head stack1) as [back|]; [|discriminate]. simpl in H.
  destruct (match back with Some j => _ | None => _ end) as [prev|]; [|discriminate].
  simpl in H. pose proof (begin_parts cur prev) as [Hp Hc].
  destruct (begin cur prev) as [out2 cur']. injection H as <-.
  exists popped, stack1, out2. loop_fields. cbn [fst] in *. repeat split; assumption.
Qed.

Lemma offset_boundary_out (st st2 : Loop (M:=M)) o :
  offset_boundary st o = Some st2 ->
  exists gap,
    l_out st2 = l_out st ++ gap
    /\ gap_shape gap
    /\ l_cur_offset_iter st2 = S (l_cur_offset_iter st)
    /\ l_cur_state_iter st2 = l_cur_state_iter st
    /\ l_cur_text_idx st2 = l_cur_text_idx st
    /\ l_states st2 = l_states st
    /\ l_stack st2 = l_stack st
    /\ style_of (l_renderer st2) = style_of (l_renderer st).
Proof.
  unfold offset_boundary. intros H.
  destruct (resolve_offset _ _ _ _ _ _) as [res|] eqn:Er; [|discriminate].
  simpl in H. injection H as <-. exists (r_out res). loop_fields.
  repeat split; try reflexivity.
  unfold resolve_offset in Er.
  destruct (abs _ <=? _)%float; [injection Er as <-; left; reflexivity|].
  destruct (stack_back_state _ _) as [cur|]; [|discriminate]. simpl in Er.
  destruct (_ && _); [injection Er as <-; right; left; reflexivity|].
  destruct (install _ _) as [[wid actual] wsm'].
  destruct (negb _); injection Er as <-; [right; right; eauto|left; reflexivity].
Qed.

(** One turn: closing tags of popped elements, at most one opening tag, at
    most one blank or gap element, then the text up to the next boundary. *)
Lemma loop_body_out txt offs (st st' : Loop (M:=M)) :
  loop_body txt offs st = Some st' ->
  exists popped stack1 tag gap,
    l_stack st = popped ++ stack1
    /\ l_out st' = l_out st ++ ends (l_states st) popped ++ tag ++ gap
                   ++ [Unicodes (slice txt (l_cur_text_idx st) (l_cur_text_idx st'))]
    /\ Forall (fun c => is_tag_part c = true) tag
    /\ (count_chunks is_span_begin tag + l_cur_state_iter st <= l_cur_state_iter st')%nat
    /\ gap_shape gap
    /\ (length gap + l_cur_offset_iter st <= l_cur_offset_iter st')%nat
    /\ (l_cur_text_idx st <= l_cur_text_idx st' <= length txt)%nat
    /\ style_of (l_renderer st') = style_of (l_renderer st).
Proof.
  unfold loop_body. intros H.
  destruct (l_states st !! l_cur_state_iter st) as [s|]; [|discriminate]. simpl in H.
  assert (H1 : forall st1,
            (if Nat.leb (start_idx s) (l_cur_text_idx st) then state_boundary st else Some st)
            = Some st1 ->
            exists popped stack1 tag,
              l_stack st = popped ++ stack1
              /\ l_out st1 = l_out st ++ ends (l_states st) popped ++ tag
              /\ Forall (fun c => is_tag_part c = true) tag
              /\ (count_chunks is_span_begin tag + l_cur_state_iter st <= l_cur_state_iter st1)%nat
              /\ l_cur_offset_iter st1 = l_cur_offset_iter st
              /\ l_cur_text_idx st1 = l_cur_text_idx st
              /\ l_renderer st1 = l_renderer st).
  { intros st1 E. destruct (Nat.leb _ _).
    - destruct (state_boundary_out _ _ E)
        as (popped & stack1 & tag & ? & ? & ? & ? & ? & ? & ? & ?).
      exists popped, stack1, tag. repeat split; try assumption. lia.
    - injection E as <-. exists [], (l_stack st), []. cbn. rewrite app_nil_r.
      repeat split; try reflexivity; try constructor. }
  destruct (if Nat.leb (start_idx s) (l_cur_text_idx st) then state_boundary st else Some st)
    as [st1|]; [|discriminate].
  destruct (H1 st1 eq_refl)
    as (popped & stack1 & tag & Estk & Eout1 & Htag & Hsi1 & Hoi1 & Hti1 & Hr1).
  clear H1. simpl in H.
  destruct (offs !! l_cur_offset_iter st1) as [o|]; [|discriminate]. simpl in H.
  assert (H2 : forall st2,
            (if Nat.leb (o_start_idx o) (l_cur_text_idx st1) then offset_boundary st1 o
             else Some st1) = Some st2 ->
            exists gap,
              l_out st2 = l_out st1 ++ gap
              /\ gap_shape gap
              /\ (length gap + l_cur_offset_iter st1 <= l_cur_offset_iter st2)%nat
              /\ l_cur_state_iter st2 = l_cur_state_iter st1
              /\ l_cur_text_idx st2 = l_cur_text_idx st1
              /\ style_of (l_renderer st2) = style_of (l_renderer st1)).
  { intros st2 E. destruct (Nat.leb _ _).
    - destruct (offset_boundary_out _ _ _ E) as (gap & ? & Hg & ? & ? & ? & ? & ? & ?).
      exists gap. repeat split; try assumption.
      destruct Hg as [->|[->|(? & ? & ->)]]; cbn; lia.
    - injection E as <-. exists []. rewrite app_nil_r.
      repeat split; try reflexivity; try (left; reflexivity); cbn; lia. }
  destruct (if Nat.leb (o_start_idx o) (l_cur_text_idx st1) then offset_boundary st1 o
            else Some st1) as [st2|]; [|discriminate].
  destruct (H2 st2 eq_refl) as (gap & Eout2 & Hgap & Hoi2 & Hsi2 & Hti2 & Hr2).
  clear H2. simpl in H.
  destruct (l_states st2 !! l_cur_state_iter st2) as [s'|]; [|discriminate]. simpl in H.
  destruct (offs !! l_cur_offset_iter st2) as [o'|]; [|discriminate]. simpl in H.
  destruct (decide _) as [Hd|]; [|discriminate]. injection H as <-.
  exists popped, stack1, tag, gap. loop_fields.
  rewrite Eout2, Eout1, Hti2, Hti1, <- !app_assoc.
  repeat split; try assumption; try lia.
  rewrite Hr2, Hr1. reflexivity.
Qed.

(** A property that every defined turn keeps holds when the loop returns. *)
Lemma render_loop_ind txt offs (P : Loop (M:=M) -> Prop) :
  (forall st st', P st -> loop_body txt offs st = Some st' -> P st') ->
  forall fuel st st', P st -> render_loop fuel txt offs st = Some st' -> P st'.
Proof.
  intros Hstep. induction fuel as [|fuel IH]; intros st st' HP H; cbn [render_loop] in H.
  - destruct (Nat.ltb _ _); [discriminate|]. injection H as <-. assumption.
  - destruct (Nat.ltb _ _); [|injection H as <-; assumption].
    destruct (loop_body txt offs st) as [st1|] eqn:E1; [|discriminate].
    simpl in H. eapply IH; [|exact H]. eapply Hstep; eassumption.
Qed.

End LoopOutput.

(** ** The three ways out of [flush] *)

Section FlushCases.
Context {M : Type} {SM : StateManager M} {MU : MathUtil}.

Lemma optimize_style (r : Renderer M) b :
  style_of (fst (optimize r b)) = style_of r
  /\ height_manager (fst (optimize r b)) = height_manager r
  /\ left_manager (fst (optimize r b)) = left_manager r
  /\ bottom_manager (fst (optimize r b)) = bottom_manager r
  /\ x (snd (optimize r b)) = x b /\ y (snd (optimize r b)) = y b
  /\ tm_id (snd (optimize r b)) = tm_id b.
Proof. unfold optimize. destruct (optimize_loop _ _ _ _ _). cbn. auto 10. Qed.

Lemma loop_start_fields (r1 : Renderer M) b1 :
  exists hm lm bm,
    loop_start r1 b1
    = mkLoop (with_line_managers r1 hm lm bm)
        (map hash (states b1 ++ [with_start_idx State_default (length (text b1))]))
        [LineOpen (tm_id b1) (fst (fst (install (left_manager r1) (x b1))))
           (fst (fst (install (height_manager r1) (max_ascent_of (states b1)))))
           (fst (fst (install (bottom_manager r1) (y b1))))]
        [None] 0 0 0%float 0 0.
Proof.
  unfold loop_start.
  destruct (install (height_manager r1) _) as [[hid ?] hm].
  destruct (install (left_manager r1) _) as [[lid ?] lm].
  destruct (install (bottom_manager r1) _) as [[bid ?] bm].
  exists hm, lm, bm. reflexivity.
Qed.

(** [flush] returns without a trace on an empty text, with a warning on a
    text without a style, and otherwise with what the render loop and the
    final pops wrote between the two tags of the line. *)
Lemma flush_cases (r : Renderer M) b f :
  flush r b = Some f ->
  (text b = [] /\ f = mkFlushed [] [] r b)
  \/ (text b <> []
      /\ match head (states b) with Some s0 => start_idx s0 <> 0%nat | None => True end
      /\ f = mkFlushed [] [TextWithoutStyle] r b)
  \/ (text b <> []
      /\ (exists s0, head (states b) = Some s0 /\ start_idx s0 = 0%nat)
      /\ exists fuel st out_close stack',
           (length (text b) <= fuel)%nat
           /\ render_loop fuel (text b) (offsets b ++ [mkOffset (length (text b)) 0%float])
                (loop_start (fst (optimize r b)) (snd (optimize r b))) = Some st
           /\ close_all (l_states st) (l_stack st) = Some (out_close, stack')
           /\ f = mkFlushed (l_out st ++ out_close ++ [LineEnd]) [] (l_renderer st)
                    (mkBuffer (x b) (y b) (tm_id b) [] [] [])).
Proof.
  unfold flush. intros H.
  destruct (decide (text b = [])) as [Et|Et]; [left; injection H as <-; auto|].
  right.
  destruct (head (states b)) as [s0|] eqn:Eh; [|left; injection H as <-; auto].
  destruct (Nat.eqb_spec (start_idx s0) 0) as [E0|E0]; cbn [negb] in H;
    [|left; injection H as <-; auto].
  right. split; [assumption|]. split; [eauto|].
  destruct (optimize_fields r b) as (Etx & Eo & _).
  destruct (optimize_style r b) as (_ & _ & _ & _ & Ex & Ey & Etm).
  unfold loop_start.
  destruct (optimize r b) as [r1 b1]. cbn [fst snd] in *. cbv zeta in H.
  destruct (install (height_manager r1) _) as [[hid ?] hm].
  destruct (install (left_manager r1) _) as [[lid ?] lm].
  destruct (install (bottom_manager r1) _) as [[bid ?] bm].
  rewrite Etx, Eo, Ex, Ey, Etm in H.
  match type of H with
  | context [render_loop ?fu _ _ _] => set (fuel := fu) in *
  end.
  destruct (render_loop fuel _ _ _) as [st|] eqn:Er; [|discriminate].
  cbn [mbind option_bind] in H.
  destruct (close_all (l_states st) (l_stack st)) as [[out_close stack']|] eqn:Ec; [|discriminate].
  cbn [mbind option_bind] in H. injection H as <-.
  exists fuel, st, out_close, stack'. rewrite ?Etx, ?Ex, ?Ey, ?Etm.
  split; [unfold fuel; lia|]. split; [exact Er|]. split; [exact Ec|reflexivity].
Qed.

Lemma close_all_span_end (sts : list State) stack out stack' :
  close_all sts stack = Some (out, stack') -> Forall (fun c => c = SpanEnd) out.
Proof.
  unfold close_all. intros H.
  destruct (pop_until_spec _ _ _ _ _ H) as (popped & _ & _ & _ & ->). apply ends_span_end.
Qed.

(** The loop starts in a state that satisfies its invariant. *)
Lemma loop_start_inv (r : Renderer M) b s0 :
  buffer_inv b -> head (states b) = Some s0 -> start_idx s0 = 0%nat ->
  let offs' := offsets b ++ [mkOffset (length (text b)) 0%float] in
  let starts := (start_idx <$> states b) ++ [length (text b)] in
  positions_ok (length (text b)) starts
  /\ head starts = Some 0%nat
  /\ positions_ok (length (text b)) (o_start_idx <$> offs')
  /\ loop_inv offs' starts (loop_start (fst (optimize r b)) (snd (optimize r b))).
Proof.
  intros [Ho Hs] Eh E0. cbv zeta.
  split; [apply positions_inv_ok; assumption|].
  split.
  { destruct (states b) as [|s rest]; [discriminate|].
    simpl in *. injection Eh as ->. rewrite E0. reflexivity. }
  split.
  { rewrite fmap_app. apply positions_inv_ok. assumption. }
  destruct (optimize_fields r b) as (Etx & Eo & Es).
  destruct (loop_start_fields (fst (optimize r b)) (snd (optimize r b))) as (hm & lm & bm & ->).
  constructor; loop_fields.
  - assert (Hh : forall l, start_idx <$> map hash l = start_idx <$> l).
    { induction l as [|a l IH]; [reflexivity|]. cbn [map]. rewrite !fmap_cons. f_equal. exact IH. }
    rewrite Hh, fmap_app, Es, Etx. reflexivity.
  - intros; lia.
  - rewrite length_app. simpl. lia.
  - intros; lia.
  - rewrite length_app. simpl. lia.
  - exists []. split; [reflexivity|constructor].
  - lia.
  - reflexivity.
Qed.

(** On a buffer that keeps its positions in order, the loop of a
    successful [flush] ends in a state that satisfies the invariant. *)
Lemma flush_loop_inv (r : Renderer M) b s0 fuel st :
  buffer_inv b -> head (states b) = Some s0 -> start_idx s0 = 0%nat ->
  (length (text b) <= fuel)%nat ->
  render_loop fuel (text b) (offsets b ++ [mkOffset (length (text b)) 0%float])
    (loop_start (fst (optimize r b)) (snd (optimize r b))) = Some st ->
  loop_inv (offsets b ++ [mkOffset (length (text b)) 0%float])
           ((start_idx <$> states b) ++ [length (text b)]) st.
Proof.
  intros Hb Eh E0 Hf Er.
  destruct (loop_start_inv r b s0 Hb Eh E0) as (Hp & Hf0 & Hpo & Hinv).
  destruct (render_loop_ok _ _ _ Hp Hf0 Hpo fuel _ Hinv ltac:(lia)) as (st' & Er' & Hinv').
  rewrite Er in Er'. injection Er' as <-. exact Hinv'.
Qed.

End FlushCases.

(** ** The text on the page *)

Lemma literal_app a b : literal (a ++ b) = literal a ++ literal b.
Proof. unfold literal. apply flat_map_app. Qed.

Lemma literal_none out : Forall (fun c => literal_of c = []) out -> literal out = [].
Proof.
  induction 1 as [|c out Hc _ IH]; [reflexivity|].
  unfold literal in *. cbn [flat_map]. rewrite Hc, IH. reflexivity.
Qed.

Lemma literal_span_end out : Forall (fun c => c = SpanEnd) out -> literal out = [].
Proof. intros H. apply literal_none. eapply Forall_impl; [exact H|]. intros ? ->. reflexivity. Qed.

Lemma literal_tag tag : Forall (fun c => is_tag_part c = true) tag -> literal tag = [].
Proof.
  intros H. apply literal_none. eapply Forall_impl; [exact H|].
  intros c Hc. destruct c; try discriminate; reflexivity.
Qed.

Lemma padded_refl t : padded t t.
Proof. induction t; constructor; assumption. Qed.

Lemma padded_app t1 o1 t2 o2 : padded t1 o1 -> padded t2 o2 -> padded (t1 ++ t2) (o1 ++ o2).
Proof. induction 1; intros H2; cbn [app]; [assumption| |]; constructor; auto. Qed.

Lemma padded_gap gap : gap_shape gap -> padded [] (literal gap).
Proof.
  intros [->|[->|(wid & sp & ->)]]; cbn; repeat constructor.
  destruct sp; repeat constructor.
Qed.

Section FlushText.
Context {M : Type} {SM : StateManager M} {MU : MathUtil}.

Lemma loop_body_padded txt offs (st st' : Loop (M:=M)) :
  padded (take (l_cur_text_idx st) txt) (literal (l_out st)) ->
  loop_body txt offs st = Some st' ->
  padded (take (l_cur_text_idx st') txt) (literal (l_out st')).
Proof.
  intros HP E.
  destruct (loop_body_out _ _ _ _ E)
    as (popped & stack1 & tag & gap & _ & -> & Htag & _ & Hgap & _ & Hidx & _).
  rewrite !literal_app, (literal_span_end (ends _ _)) by apply ends_span_end.
  rewrite (literal_tag tag) by assumption. cbn [app].
  replace (l_cur_text_idx st')
    with (l_cur_text_idx st + (l_cur_text_idx st' - l_cur_text_idx st))%nat at 1 by lia.
  rewrite <- take_take_drop. apply padded_app; [assumption|].
  change (take (l_cur_text_idx st' - l_cur_text_idx st) (drop (l_cur_text_idx st) txt))
    with (slice txt (l_cur_text_idx st) (l_cur_text_idx st')).
  rewrite <- (app_nil_l (slice _ _ _)) at 1. apply padded_app; [apply padded_gap; assumption|].
  cbn. rewrite app_nil_r. apply padded_refl.
Qed.

Lemma flush_padded (r : Renderer M) b f :
  flush r b = Some f -> f_log f = [] -> padded (text b) (literal (f_out f)).
Proof.
  intros H Hlog.
  destruct (flush_cases _ _ _ H)
    as [[Et ->]|[(_ & _ & ->)|(Et & _ & fuel & st & oc & stk & _ & Er & Ec & ->)]].
  - rewrite Et. constructor.
  - discriminate.
  - cbn [f_out]. rewrite !literal_app.
    rewrite (literal_span_end oc) by (eapply close_all_span_end; exact Ec).
    change (literal [LineEnd]) with (@nil Unicode). rewrite !app_nil_r.
    pose proof (render_loop_end _ _ _ _ _ Er) as Hend.
    rewrite <- (take_ge (text b) (l_cur_text_idx st)) at 1 by exact Hend.
    refine (render_loop_ind (text b) _
              (fun st => padded (take (l_cur_text_idx st) (text b)) (literal (l_out st)))
              _ fuel _ st _ Er).
    + intros ? ?. apply loop_body_padded.
    + destruct (loop_start_fields (fst (optimize r b)) (snd (optimize r b)))
        as (hm & lm & bm & ->). cbn. constructor.
Qed.

(** X4. On every [flush] that returns without a warning, the code points
    written (by [outputUnicodes] and as the blank of a gap element) are the
    text of the buffer with blanks put in: every code point of the text is
    written once, in order, and nothing but blanks is added. *)
Theorem flush_text_round_trip (r : Renderer M) (b : TextLineBuffer) (f : Flushed) :
  flush r b = Some f -> f_log f = [] -> padded (text b) (literal (f_out f)).
Proof. apply flush_padded. Qed.

(** ** The registries [flush] does not touch *)

Lemma flush_style (r : Renderer M) b f :
  flush r b = Some f -> style_of (f_renderer f) = style_of r.
Proof.
  intros H.
  destruct (flush_cases _ _ _ H)
    as [[Et ->]|[(_ & _ & ->)|(Et & _ & fuel & st & oc & stk & _ & Er & Ec & ->)]];
    [reflexivity|reflexivity|].
  cbn [f_renderer].
  refine (render_loop_ind (text b) _ (fun st => style_of (l_renderer st) = style_of r)
            _ fuel _ st _ Er).
  - intros st1 st2 HP E.
    destruct (loop_body_out _ _ _ _ E) as (? & ? & ? & ? & _ & _ & _ & _ & _ & _ & _ & ->).
    exact HP.
  - destruct (loop_start_fields (fst (optimize r b)) (snd (optimize r b)))
      as (hm & lm & bm & ->). loop_fields.
    destruct (optimize_style r b) as (<- & _). reflexivity.
Qed.

(** X7. [flush] leaves the settings, the current font and the registries of
    the transform matrix, font size, fill colour, stroke colour, letter
    space and rise as they are; it installs values only in the word-space,
    gap-width, height, left and bottom registries. *)
Theorem flush_keeps_style_registries (r : Renderer M) (b : TextLineBuffer) (f : Flushed) :
  flush r b = Some f -> style_of (f_renderer f) = style_of r.
Proof. apply flush_style. Qed.

(** ** One [flush] after another *)

Lemma flush_again (r r' : Renderer M) b f :
  flush r b = Some f -> f_log f = [] ->
  flush r' (f_buffer f) = Some (mkFlushed [] [] r' (f_buffer f)).
Proof.
  intros H Hlog.
  destruct (flush_cases _ _ _ H)
    as [[Et ->]|[(_ & _ & ->)|(_ & _ & fuel & st & oc & stk & _ & _ & _ & ->)]].
  - cbn [f_buffer]. unfold flush. destruct (decide (text b = [])); [reflexivity|contradiction].
  - discriminate.
  - reflexivity.
Qed.

(** X2. After a [flush] that returned without a warning the buffer holds no
    text, so a further [flush], with whatever renderer, writes nothing, logs
    nothing and installs nothing. *)
Theorem flush_twice_is_flush_once (r r' : Renderer M) (b : TextLineBuffer) (f : Flushed) :
  flush r b = Some f -> f_log f = [] ->
  flush r' (f_buffer f) = Some (mkFlushed [] [] r' (f_buffer f)).
Proof. apply flush_again. Qed.

(** ** The wrapper of the line *)

Lemma max_ascent_of_ws_only sts sts' :
  Forall2 ws_only sts sts' -> forall m,
  fold_left (fun m s => fmax m (ascent (font_info s) * draw_font_size s)%float) sts' m
  = fold_left (fun m s => fmax m (ascent (font_info s) * draw_font_size s)%float) sts m.
Proof.
  induction 1 as [|s s' sts sts' [E _] _ IH]; intros m; [reflexivity|].
  cbn [fold_left]. rewrite IH. rewrite E. reflexivity.
Qed.

Lemma optimize_max_ascent (r : Renderer M) b :
  max_ascent_of (states (snd (optimize r b))) = max_ascent_of (states b).
Proof.
  unfold max_ascent_of, optimize.
  pose proof (optimize_loop_ws_only (space_threshold (param r)) (text b) (states b) (offsets b)
                (word_space_manager r)) as H.
  destruct (optimize_loop _ _ _ _ _) as [sts' wm']. cbn [fst snd states] in *.
  apply max_ascent_of_ws_only. exact H.
Qed.

Lemma no_line_tag_span_end out :
  Forall (fun c => c = SpanEnd) out -> Forall (fun c => is_line_tag c = false) out.
Proof. intros H. eapply Forall_impl; [exact H|]. intros ? ->. reflexivity. Qed.

Lemma no_line_tag_parts out :
  Forall (fun c => is_tag_part c = true) out -> Forall (fun c => is_line_tag c = false) out.
Proof.
  intros H. eapply Forall_impl; [exact H|]. intros c Hc. destruct c; try discriminate; reflexivity.
Qed.

Lemma no_line_tag_gap gap : gap_shape gap -> Forall (fun c => is_line_tag c = false) gap.
Proof. intros [->|[->|(wid & sp & ->)]]; repeat constructor. Qed.

Lemma flush_wrapper (r : Renderer M) b f :
  flush r b = Some f -> text b <> [] -> f_log f = [] ->
  exists body,
    f_out f = LineOpen (tm_id b) (fst (fst (install (left_manager r) (x b))))
                (fst (fst (install (height_manager r) (max_ascent_of (states b)))))
                (fst (fst (install (bottom_manager r) (y b))))
              :: body ++ [LineEnd]
    /\ Forall (fun c => is_line_tag c = false) body.
Proof.
  intros H Hne Hlog.
  destruct (flush_cases _ _ _ H)
    as [[Et _]|[(_ & _ & ->)|(Et & _ & fuel & st & oc & stk & _ & Er & Ec & ->)]];
    [contradiction|discriminate|].
  cbn [f_out].
  assert (HP : exists body,
             l_out st = LineOpen (tm_id b) (fst (fst (install (left_manager r) (x b))))
                          (fst (fst (install (height_manager r) (max_ascent_of (states b)))))
                          (fst (fst (install (bottom_manager r) (y b)))) :: body
             /\ Forall (fun c => is_line_tag c = false) body).
  { refine (render_loop_ind (text b) _
              (fun st => exists body, l_out st = _ :: body
                                      /\ Forall (fun c => is_line_tag c = false) body)
              _ fuel _ st _ Er).
    - intros st1 st2 (body & E1 & Hb) E.
      destruct (loop_body_out _ _ _ _ E)
        as (popped & stack1 & tag & gap & _ & -> & Htag & _ & Hgap & _ & _ & _).
      rewrite E1. eexists. split; [rewrite <- app_comm_cons; reflexivity|].
      repeat (apply Forall_app; split); try assumption.
      + apply no_line_tag_span_end, ends_span_end.
      + apply no_line_tag_parts. assumption.
      + apply no_line_tag_gap. assumption.
      + repeat constructor.
    - destruct (loop_start_fields (fst (optimize r b)) (snd (optimize r b)))
        as (hm & lm & bm & ->). loop_fields.
      destruct (optimize_style r b) as (_ & -> & -> & -> & -> & -> & ->).
      rewrite optimize_max_ascent. exists []. split; [reflexivity|constructor]. }
  destruct HP as (body & -> & Hb).
  exists (body ++ oc). split; [rewrite <- app_comm_cons, <- app_assoc; reflexivity|].
  apply Forall_app. split; [assumption|].
  apply no_line_tag_span_end. eapply close_all_span_end. exact Ec.
Qed.

(** X5. What a [flush] that renders a line writes starts with the opening
    tag of the line and ends with its closing tag, with neither in
    between. The opening tag carries the transform id of the buffer and the
    ids that the left, height and bottom registries return for the anchor
    [x], the largest [ascent * draw_font_size] over the states, and the
    anchor [y]. *)
Theorem flush_line_wrapper (r : Renderer M) (b : TextLineBuffer) (f : Flushed) :
  flush r b = Some f -> text b <> [] -> f_log f = [] ->
  exists body,
    f_out f = LineOpen (tm_id b) (fst (fst (install (left_manager r) (x b))))
                (fst (fst (install (height_manager r) (max_ascent_of (states b)))))
                (fst (fst (install (bottom_manager r) (y b))))
              :: body ++ [LineEnd]
    /\ Forall (fun c => is_line_tag c = false) body.
Proof. apply flush_wrapper. Qed.

End FlushText.

(** ** The nesting of the output *)

Lemma depth_app a : forall d b, depth d (a ++ b) = d' ← depth d a; depth d' b.
Proof.
  induction a as [|c a IH]; intros d b; [reflexivity|].
  cbn [app depth]. destruct (Nat.leb _ _); [apply IH|reflexivity].
Qed.

Lemma depth_count out : forall d k,
  depth d out = Some k -> (k + count_closed out = d + count_opened out)%nat.
Proof.
  induction out as [|c out IH]; intros d k H; cbn [depth] in H.
  - injection H as <-. cbn. lia.
  - destruct (Nat.leb_spec (closed c) (d + opened c)); [|discriminate].
    specialize (IH _ _ H).
    change (count_closed (c :: out)) with (closed c + count_closed out)%nat.
    change (count_opened (c :: out)) with (opened c + count_opened out)%nat. lia.
Qed.

Lemma depth_span_end out : Forall (fun c => c = SpanEnd) out -> forall d,
  (count_closed out <= d)%nat -> depth d out = Some (d - count_closed out)%nat.
Proof.
  induction 1 as [|c out -> _ IH]; intros d Hd.
  - cbn. f_equal. lia.
  - change (count_closed (SpanEnd :: out)) with (1 + count_closed out)%nat in *.
    cbn [depth closed opened]. destruct (Nat.leb_spec 1 (d + 0)); [|lia].
    rewrite IH by lia. f_equal. lia.
Qed.

Lemma depth_no_close out : Forall (fun c => (closed c <= opened c)%nat) out -> forall d,
  is_Some (depth d out).
Proof.
  induction 1 as [|c out Hc _ IH]; intros d; cbn [depth]; [eauto|].
  destruct (Nat.leb_spec (closed c) (d + opened c)); [apply IH|lia].
Qed.

Lemma no_close_parts tag :
  Forall (fun c => is_tag_part c = true) tag -> Forall (fun c => (closed c <= opened c)%nat) tag.
Proof.
  intros H. eapply Forall_impl; [exact H|]. intros c Hc. destruct c; try discriminate; cbn; lia.
Qed.

Lemma no_close_gap gap : gap_shape gap -> Forall (fun c => (closed c <= opened c)%nat) gap.
Proof. intros [->|[->|(wid & sp & ->)]]; repeat constructor. Qed.

Section FlushNesting.
Context {M : Type} {SM : StateManager M} {MU : MathUtil}.

Lemma flush_depth (r : Renderer M) b f :
  buffer_inv b -> flush r b = Some f -> depth 0 (f_out f) = Some 0%nat.
Proof.
  intros Hb H.
  destruct (flush_cases _ _ _ H)
    as [[Et ->]|[(_ & _ & ->)|(Et & (s0 & Eh & E0) & fuel & st & oc & stk & Hf & Er & Ec & ->)]];
    [reflexivity|reflexivity|].
  cbn [f_out].
  destruct (loop_start_inv r b s0 Hb Eh E0) as (Hp & Hf0 & Hpo & Hinv0).
  pose proof (flush_loop_inv r b s0 fuel st Hb Eh E0 Hf Er) as Hinv.
  assert (HP : is_Some (depth 0 (l_out st))).
  { refine (render_loop_keeps _ _ _ Hp Hf0 Hpo (fun st => is_Some (depth 0 (l_out st)))
              _ fuel _ st Hinv0 _ Er).
    - intros st1 st2 Hinv1 [d Hd] Hlt E.
      destruct (loop_body_out _ _ _ _ E)
        as (popped & stack1 & tag & gap & Estk & -> & Htag & _ & Hgap & _ & _ & _).
      pose proof (depth_count _ _ _ Hd) as Hc.
      pose proof (inv_balance _ _ _ Hinv1) as Hbal.
      rewrite Estk, ends_app, count_closed_app in Hbal.
      rewrite depth_app, Hd. cbn [mbind option_bind].
      rewrite depth_app, (depth_span_end _ (ends_span_end _ _)) by lia.
      cbn [mbind option_bind]. apply depth_no_close.
      repeat (apply Forall_app; split).
      + apply no_close_parts. assumption.
      + apply no_close_gap. assumption.
      + repeat constructor.
    - destruct (loop_start_fields (fst (optimize r b)) (snd (optimize r b)))
        as (hm & lm & bm & ->). cbn. eauto. }
  destruct HP as [d Hd].
  pose proof (depth_count _ _ _ Hd) as Hc.
  pose proof (inv_balance _ _ _ Hinv) as Hbal.
  destruct (close_all_ok (l_cur_state_iter st) (l_states st) (l_stack st))
    as (oc' & stk' & Ec' & _ & Hcc).
  { apply (inv_stack _ _ _ Hinv). }
  { pose proof (inv_state_valid _ _ _ Hinv) as Hv.
    rewrite <- (inv_starts _ _ _ Hinv), length_fmap in Hv. lia. }
  rewrite Ec in Ec'. injection Ec' as <- <-.
  rewrite depth_app, Hd. cbn [mbind option_bind].
  rewrite depth_app, (depth_span_end oc) by (try (eapply close_all_span_end; exact Ec); lia).
  cbn [mbind option_bind depth closed opened].
  destruct (Nat.leb_spec 1 (d - count_closed oc + 0)); [|lia]. f_equal. lia.
Qed.

(** X6. What [flush] writes for a line built by append calls is well
    nested: read from the start, no closing tag comes with nothing open,
    and at the end everything is closed. *)
Theorem flush_well_nested (r : Renderer M) (ops : list (op (M:=M))) :
  exists f, flush r (run_ops empty_buffer ops) = Some f /\ depth 0 (f_out f) = Some 0%nat.
Proof.
  pose proof (run_ops_inv ops empty_buffer empty_buffer_inv) as Hb.
  destruct (flush_ok r _ Hb) as (f & E & _). exists f. split; [assumption|].
  eapply flush_depth; eassumption.
Qed.

(** ** How many elements a line takes *)

Lemma count_chunks_none f out : Forall (fun c => f c = false) out -> count_chunks f out = 0%nat.
Proof. intros H. unfold count_chunks. rewrite filter_none by assumption. reflexivity. Qed.

Lemma count_gap_shape gap : gap_shape gap ->
  (count_chunks is_gap gap <= length gap)%nat /\ count_chunks is_span_begin gap = 0%nat.
Proof. intros [->|[->|(wid & sp & ->)]]; cbn; lia. Qed.

Lemma flush_counts (r : Renderer M) b f :
  buffer_inv b -> flush r b = Some f ->
  (count_chunks is_span_begin (f_out f) <= length (states b))%nat
  /\ (count_chunks is_gap (f_out f) <= length (offsets b))%nat.
Proof.
  intros Hb H.
  destruct (flush_cases _ _ _ H)
    as [[Et ->]|[(_ & _ & ->)|(Et & (s0 & Eh & E0) & fuel & st & oc & stk & Hf & Er & Ec & ->)]];
    [cbn; lia|cbn; lia|].
  cbn [f_out].
  pose proof (flush_loop_inv r b s0 fuel st Hb Eh E0 Hf Er) as Hinv.
  assert (HP : (count_chunks is_span_begin (l_out st) <= l_cur_state_iter st)%nat
               /\ (count_chunks is_gap (l_out st) <= l_cur_offset_iter st)%nat).
  { refine (render_loop_ind (text b) _
              (fun st => (count_chunks is_span_begin (l_out st) <= l_cur_state_iter st)%nat
                         /\ (count_chunks is_gap (l_out st) <= l_cur_offset_iter st)%nat)
              _ fuel _ st _ Er).
    - intros st1 st2 [H1 H2] E.
      destruct (loop_body_out _ _ _ _ E)
        as (popped & stack1 & tag & gap & _ & -> & Htag & Hsi & Hgap & Hoi & _ & _).
      destruct (count_gap_shape gap Hgap) as [Hg1 Hg2].
      rewrite !count_chunks_app, Hg2.
      rewrite !(count_chunks_none _ (ends _ _))
        by (eapply Forall_impl; [apply ends_span_end|]; intros ? ->; reflexivity).
      rewrite (count_chunks_none is_gap tag)
        by (eapply Forall_impl; [exact Htag|]; intros c Hc; destruct c;
            try discriminate; reflexivity).
      cbn [count_chunks List.filter is_span_begin is_gap length]. lia.
    - destruct (loop_start_fields (fst (optimize r b)) (snd (optimize r b)))
        as (hm & lm & bm & ->). cbn. lia. }
  destruct HP as [H1 H2].
  pose proof (inv_state_valid _ _ _ Hinv) as Hv. pose proof (inv_offset_valid _ _ _ Hinv) as Ho.
  rewrite length_app, length_fmap in Hv. rewrite length_app in Ho. cbn [length] in Hv, Ho.
  rewrite !count_chunks_app.
  rewrite !(count_chunks_none _ oc)
    by (eapply Forall_impl; [eapply close_all_span_end; exact Ec|]; intros ? ->; reflexivity).
  cbn [count_chunks List.filter is_span_begin is_gap length]. lia.
Qed.

(** X8. For a line built by append calls, [flush] opens at most one style
    element per state of the buffer and writes at most one gap element per
    offset record. *)
Theorem flush_elements_bounded (r : Renderer M) (ops : list (op (M:=M))) :
  let b := run_ops empty_buffer ops in
  exists f, flush r b = Some f
    /\ (count_chunks is_span_begin (f_out f) <= length (states b))%nat
    /\ (count_chunks is_gap (f_out f) <= length (offsets b))%nat.
Proof.
  cbv zeta. pose proof (run_ops_inv ops empty_buffer empty_buffer_inv) as Hb.
  destruct (flush_ok r _ Hb) as (f & E & _). exists f. split; [assumption|].
  eapply flush_counts; eassumption.
Qed.

End FlushNesting.

(** ** The masks of the channels *)

Lemma umask_range i : (i < ID_COUNT)%nat -> 0 < umask_by_id i < 2 ^ 56.
Proof.
  unfold ID_COUNT. intros Hi.
  do 7 (destruct i as [|i]; [vm_compute; split; reflexivity|]). lia.
Qed.

(** X18. The masks of the seven channels are the bytes 0 to 6 of a 56-bit
    word: the running mask of the loops of [begin] and [diff] (0xff, shifted
    by one byte per channel) is [umask_by_id] of the channel, two channels
    share no bit, and each mask is positive and below 2^56. *)
Theorem channel_masks_partition :
  umask_by_id 0 = 255
  /\ (forall i, Z.shiftl (umask_by_id i) 8 = umask_by_id (S i))
  /\ (forall i j, i <> j -> Z.land (umask_by_id i) (umask_by_id j) = 0)
  /\ (forall i, (i < ID_COUNT)%nat -> 0 < umask_by_id i < 2 ^ 56).
Proof.
  split; [reflexivity|]. split; [apply umask_shift|].
  split; [apply umask_disjoint|apply umask_range].
Qed.

(** ** The turns of the render loop *)

Section Termination.
Context {M : Type} {SM : StateManager M} {MU : MathUtil}.

Lemma render_loop_more_fuel txt offs : forall fuel (st st' : Loop (M:=M)),
  render_loop fuel txt offs st = Some st' ->
  forall fuel', (fuel <= fuel')%nat -> render_loop fuel' txt offs st = Some st'.
Proof.
  induction fuel as [|fuel IH]; intros st st' H fuel' Hf; cbn [render_loop] in H.
  - destruct (Nat.ltb (l_cur_text_idx st) (length txt)) eqn:E; [discriminate|].
    destruct fuel'; cbn [render_loop]; rewrite E; assumption.
  - destruct fuel' as [|fuel']; [lia|]. cbn [render_loop].
    destruct (Nat.ltb _ _); [|assumption].
    destruct (loop_body txt offs st) as [st1|]; [|discriminate].
    cbn [mbind option_bind] in *. apply (IH _ _ H). lia.
Qed.

Lemma render_loop_stops (r : Renderer M) b s0 :
  buffer_inv b -> head (states b) = Some s0 -> start_idx s0 = 0%nat ->
  exists st,
    l_cur_text_idx st = length (text b)
    /\ forall fuel, (length (text b) <= fuel)%nat ->
         render_loop fuel (text b) (offsets b ++ [mkOffset (length (text b)) 0%float])
           (loop_start (fst (optimize r b)) (snd (optimize r b))) = Some st.
Proof.
  intros Hb Eh E0.
  destruct (loop_start_inv r b s0 Hb Eh E0) as (Hp & Hf0 & Hpo & Hinv).
  destruct (render_loop_ok _ _ _ Hp Hf0 Hpo (length (text b)) _ Hinv ltac:(lia)) as (st & Er & _).
  exists st. split.
  - apply Nat.le_antisymm; [|eapply render_loop_end; exact Er].
    refine (render_loop_ind (text b) _ (fun st => (l_cur_text_idx st <= length (text b))%nat)
              _ _ _ st _ Er).
    + intros st1 st2 _ E.
      destruct (loop_body_out _ _ _ _ E) as (? & ? & ? & ? & _ & _ & _ & _ & _ & _ & ? & _). lia.
    + destruct (loop_start_fields (fst (optimize r b)) (snd (optimize r b)))
        as (hm & lm & bm & ->). cbn. lia.
  - intros fuel Hf. eapply render_loop_more_fuel; eassumption.
Qed.

(** X17. On a line built by append calls whose first state starts at index 0,
    the render loop returns after at most [text.size()] turns, with
    [cur_text_idx] equal to [text.size()]; the bound on the turns that the
    embedding carries does not change the result. *)
Theorem render_loop_terminates (r : Renderer M) (ops : list (op (M:=M))) (s0 : State) :
  let b := run_ops empty_buffer ops in
  head (states b) = Some s0 -> start_idx s0 = 0%nat ->
  exists st,
    l_cur_text_idx st = length (text b)
    /\ forall fuel, (length (text b) <= fuel)%nat ->
         render_loop fuel (text b) (offsets b ++ [mkOffset (length (text b)) 0%float])
           (loop_start (fst (optimize r b)) (snd (optimize r b))) = Some st.
Proof.
  cbv zeta. intros Eh E0. eapply render_loop_stops; [|eassumption..].
  apply run_ops_inv, empty_buffer_inv.
Qed.

End Termination.

(** ** Offsets behind the last code point *)

Section TrailingOffsets.
Context {M : Type} {SM : StateManager M} {MU : MathUtil}.

Lemma skip_offsets_tail n i1 (t : list Offset) : (i1 <= n)%nat ->
  Forall (fun o => o_start_idx o = n) t ->
  forall it, skip_offsets i1 (it ++ t) = skip_offsets i1 it ++ t.
Proof.
  intros Hi Ht. induction it as [|o it IH]; cbn [app skip_offsets].
  - destruct Ht as [|o t Ho Ht]; [reflexivity|]. cbn [skip_offsets].
    destruct (Nat.ltb_spec (o_start_idx o) i1); [lia|reflexivity].
  - destruct (Nat.ltb _ _); [exact IH|reflexivity].
Qed.

Lemma collect_widths_tail th n i2 (t : list Offset) : (i2 <= n)%nat ->
  Forall (fun o => o_start_idx o = n) t ->
  forall it wm,
    collect_widths th i2 (it ++ t) wm
    = (fst (collect_widths th i2 it wm), snd (collect_widths th i2 it wm) ++ t).
Proof.
  intros Hi Ht. induction it as [|o it IH]; intros wm; cbn [app collect_widths].
  - destruct Ht as [|o t Ho Ht]; [reflexivity|]. cbn [collect_widths].
    destruct (Nat.ltb_spec (o_start_idx o) i2); [lia|reflexivity].
  - destruct (Nat.ltb _ _); [|reflexivity].
    destruct (_ <? _)%float; apply IH.
Qed.

Lemma optimize_loop_tail th txt (t1 t2 : list Offset) sts :
  Forall (fun o => o_start_idx o = length txt) t1 ->
  Forall (fun o => o_start_idx o = length txt) t2 ->
  Forall (fun s => (start_idx s <= length txt)%nat) sts ->
  forall it (wm : M),
    optimize_loop th txt (it ++ t1) wm sts = optimize_loop th txt (it ++ t2) wm sts.
Proof.
  intros H1 H2. induction sts as [|s1 rest IH]; intros Hs it wm; [reflexivity|].
  apply Forall_cons in Hs. destruct Hs as [Hs1 Hrest].
  cbn [optimize_loop].
  assert (Hi2 : (match rest with [] => length txt | s2 :: _ => start_idx s2 end <= length txt)%nat).
  { destruct Hrest; [lia|assumption]. }
  destruct (has_space _); [rewrite (IH Hrest); reflexivity|].
  rewrite !(skip_offsets_tail (length txt)) by assumption.
  rewrite !(collect_widths_tail _ (length txt)) by assumption.
  destruct (collect_widths _ _ (skip_offsets _ it) []) as [width_map it2]. cbn [fst snd].
  destruct width_map as [|e width_map].
  - rewrite (IH Hrest). reflexivity.
  - destruct (install wm _) as [[id actual] wm1]. rewrite (IH Hrest). reflexivity.
Qed.

Lemma loop_body_write_text txt offs (st : Loop (M:=M)) :
  loop_body txt offs st
  = (s ← l_states st !! l_cur_state_iter st;
     st1 ← (if Nat.leb (start_idx s) (l_cur_text_idx st) then state_boundary st else Some st);
     o ← offs !! l_cur_offset_iter st1;
     st2 ← (if Nat.leb (o_start_idx o) (l_cur_text_idx st1) then offset_boundary st1 o
            else Some st1);
     write_text txt offs st2).
Proof. reflexivity. Qed.

(** A turn of the loop reads of the offset under its iterator, when it is
    not yet due, the position only. *)
Lemma loop_body_tail txt (pre t1 t2 : list Offset) o1 o2 (st : Loop (M:=M)) :
  o_start_idx o1 = length txt -> o_start_idx o2 = length txt ->
  (l_cur_offset_iter st <= length pre)%nat ->
  (l_cur_text_idx st < length txt)%nat ->
  loop_body txt (pre ++ o1 :: t1) st = loop_body txt (pre ++ o2 :: t2) st
  /\ forall st', loop_body txt (pre ++ o2 :: t2) st = Some st' ->
       (l_cur_offset_iter st' <= length pre)%nat.
Proof.
  intros E1 E2 Hit Hc. rewrite !loop_body_write_text.
  destruct (l_states st !! l_cur_state_iter st) as [s|]; [|split; [reflexivity|discriminate]].
  cbn [mbind option_bind].
  assert (H1 : forall st1,
            (if Nat.leb (start_idx s) (l_cur_text_idx st) then state_boundary st else Some st)
            = Some st1 ->
            l_cur_offset_iter st1 = l_cur_offset_iter st
            /\ l_cur_text_idx st1 = l_cur_text_idx st).
  { intros st1 E. destruct (Nat.leb _ _).
    - destruct (state_boundary_out _ _ E) as (? & ? & ? & _ & _ & _ & _ & _ & ? & ? & _). auto.
    - injection E as <-. auto. }
  destruct (if Nat.leb (start_idx s) (l_cur_text_idx st) then state_boundary st else Some st)
    as [st1|]; [|split; [reflexivity|discriminate]].
  destruct (H1 st1 eq_refl) as [Hi1 Hc1]. clear H1. cbn [mbind option_bind].
  assert (Hlook : forall (t : list Offset) o k, (k <= length pre)%nat ->
            (pre ++ o :: t) !! k = if decide (k = length pre) then Some o else pre !! k).
  { intros t o k Hk. destruct (decide (k = length pre)) as [->|Hne].
    - rewrite lookup_app_r, Nat.sub_diag by lia. reflexivity.
    - apply lookup_app_l. lia. }
  rewrite !Hlook by lia.
  (* the second read of the offsets, with the iterator at most at the tail *)
  assert (Hnext : forall st2 : Loop (M:=M), (l_cur_offset_iter st2 <= length pre)%nat ->
            write_text txt (pre ++ o1 :: t1) st2 = write_text txt (pre ++ o2 :: t2) st2
            /\ forall st', write_text txt (pre ++ o2 :: t2) st2 = Some st' ->
                 (l_cur_offset_iter st' <= length pre)%nat).
  { intros st2 Hk. unfold write_text.
    destruct (l_states st2 !! l_cur_state_iter st2) as [s'|]; [|split; [reflexivity|discriminate]].
    cbn [mbind option_bind]. rewrite !Hlook by lia.
    destruct (decide (l_cur_offset_iter st2 = length pre)).
    - cbn [mbind option_bind]. cbv zeta. rewrite E1, E2. split; [reflexivity|].
      intros st'. destruct (decide _); [|discriminate]. intros [= <-]. loop_fields. lia.
    - split; [reflexivity|].
      intros st'. destruct (pre !! l_cur_offset_iter st2); [|discriminate].
      cbn [mbind option_bind]. cbv zeta.
      destruct (decide _); [|discriminate]. intros [= <-]. loop_fields. lia. }
  destruct (decide (l_cur_offset_iter st1 = length pre)) as [Heq|Hne].
  - cbn [mbind option_bind]. rewrite E1, E2.
    destruct (Nat.leb_spec (length txt) (l_cur_text_idx st1)); [lia|].
    cbn [mbind option_bind]. apply Hnext. lia.
  - destruct (pre !! l_cur_offset_iter st1) as [o|] eqn:Eo; [|split; [reflexivity|discriminate]].
    cbn [mbind option_bind].
    assert (Hlt : (l_cur_offset_iter st1 < length pre)%nat) by lia.
    destruct (Nat.leb (o_start_idx o) (l_cur_text_idx st1)).
    + destruct (offset_boundary st1 o) as [st2|] eqn:Eb; [|split; [reflexivity|discriminate]].
      cbn [mbind option_bind].
      destruct (offset_boundary_out _ _ _ Eb) as (? & _ & _ & Hi2 & _).
      apply Hnext. lia.
    + cbn [mbind option_bind]. apply Hnext. lia.
Qed.

Lemma render_loop_tail txt (pre t1 t2 : list Offset) o1 o2 :
  o_start_idx o1 = length txt -> o_start_idx o2 = length txt ->
  forall fuel (st : Loop (M:=M)),
    (l_cur_offset_iter st <= length pre)%nat ->
    render_loop fuel txt (pre ++ o1 :: t1) st = render_loop fuel txt (pre ++ o2 :: t2) st.
Proof.
  intros E1 E2. induction fuel as [|fuel IH]; intros st Hit; [reflexivity|].
  cbn [render_loop]. destruct (Nat.ltb_spec (l_cur_text_idx st) (length txt)); [|reflexivity].
  destruct (loop_body_tail txt pre t1 t2 o1 o2 st E1 E2 Hit ltac:(assumption)) as [-> Hnext].
  destruct (loop_body txt (pre ++ o2 :: t2) st) as [st'|]; [|reflexivity].
  cbn [mbind option_bind]. apply IH. apply Hnext. reflexivity.
Qed.

End TrailingOffsets.

Section TrailingOffsetClaims.
Context {M : Type} {SM : StateManager M} {MU : MathUtil}.

(** [append_offset] changes the offsets at the end of the text only. *)
Lemma append_offset_split (b : TextLineBuffer) w :
  exists pre t o2,
    offsets b = pre ++ t
    /\ offsets (append_offset b w) = pre ++ [o2]
    /\ Forall (fun o => o_start_idx o = length (text b)) t
    /\ o_start_idx o2 = length (text b).
Proof.
  unfold append_offset. cbn [offsets].
  destruct (list_snoc_cases (offsets b)) as [E|(pre & a & E)]; rewrite E.
  - exists [], [], (mkOffset (length (text b)) w). cbn. auto.
  - rewrite last_snoc. destruct (Nat.eqb_spec (o_start_idx a) (length (text b))) as [Ea|Ea].
    + exists pre, [a], (mkOffset (o_start_idx a) (width a + w)%float).
      rewrite map_back_snoc. repeat split; [|assumption]. repeat constructor. assumption.
    + exists (pre ++ [a]), [], (mkOffset (length (text b)) w).
      rewrite app_nil_r. repeat split. constructor.
Qed.

(** [optimize] does not look at an offset appended behind the text. *)
Lemma optimize_append_offset (r : Renderer M) b w :
  buffer_inv b ->
  fst (optimize r (append_offset b w)) = fst (optimize r b)
  /\ states (snd (optimize r (append_offset b w))) = states (snd (optimize r b)).
Proof.
  intros [_ [_ Hs]].
  destruct (append_offset_split b w) as (pre & t & o2 & Eo & Eo' & Ht & E2).
  unfold optimize. rewrite Eo'. cbn [text states append_offset]. rewrite Eo.
  rewrite (optimize_loop_tail _ (text b) [o2] t).
  - destruct (optimize_loop _ _ _ _ _). split; reflexivity.
  - repeat constructor. assumption.
  - assumption.
  - rewrite Forall_fmap in Hs. exact Hs.
Qed.

Lemma loop_start_ext (r1 : Renderer M) b1 b2 :
  states b2 = states b1 -> text b2 = text b1 -> x b2 = x b1 -> y b2 = y b1 ->
  tm_id b2 = tm_id b1 -> loop_start r1 b2 = loop_start r1 b1.
Proof. intros E1 E2 E3 E4 E5. unfold loop_start. rewrite E1, E2, E3, E4, E5. reflexivity. Qed.

Lemma flush_append_offset (r : Renderer M) b w f f' :
  buffer_inv b -> flush r b = Some f -> flush r (append_offset b w) = Some f' ->
  f_out f' = f_out f /\ f_log f' = f_log f /\ f_renderer f' = f_renderer f.
Proof.
  intros Hb H H'.
  destruct (flush_cases _ _ _ H)
    as [[Et ->]|[(Et & Hh & ->)|(Et & (s0 & Eh & E0) & fuel & st & oc & stk & Hf & Er & Ec & ->)]];
  destruct (flush_cases _ _ _ H')
    as [[Et' ->]|[(Et' & Hh' & ->)|(Et' & (s0' & Eh' & E0') & fuel' & st' & oc' & stk' & Hf' & Er'
                                    & Ec' & ->)]];
    cbn [text states append_offset] in *; try contradiction; try (repeat split; reflexivity);
    try (rewrite Eh in *; contradiction); try (rewrite Eh' in *; contradiction).
  cbn [f_out f_log f_renderer].
  destruct (optimize_append_offset r b w Hb) as [Er1 Es1].
  destruct (optimize_fields r b) as (Etx & _ & _).
  destruct (optimize_fields r (append_offset b w)) as (Etx' & _ & _).
  destruct (optimize_style r b) as (_ & _ & _ & _ & Ex & Ey & Etm).
  destruct (optimize_style r (append_offset b w)) as (_ & _ & _ & _ & Ex' & Ey' & Etm').
  rewrite Er1 in Er'.
  rewrite (loop_start_ext _ (snd (optimize r b)) (snd (optimize r (append_offset b w)))) in Er'
    by (cbn [text x y tm_id append_offset] in *; congruence).
  destruct (append_offset_split b w) as (pre & t & o2 & Eo & Eo' & Ht & E2).
  rewrite Eo' in Er'. rewrite Eo in Er.
  rewrite <- !app_assoc in Er, Er'. cbn [app] in Er'.
  assert (Hcons : exists o1 r1, t ++ [mkOffset (length (text b)) 0%float] = o1 :: r1
                                /\ o_start_idx o1 = length (text b)).
  { destruct Ht as [|o u Ho _]; cbn; eauto. }
  destruct Hcons as (o1 & r1 & Ecs & E1). rewrite Ecs in Er.
  rewrite (render_loop_tail (text b) pre _ r1 o2 o1 E2 E1) in Er'.
  2:{ destruct (loop_start_fields (fst (optimize r b)) (snd (optimize r b)))
        as (hm & lm & bm & ->). cbn. lia. }
  destruct (render_loop_stops r b s0 Hb Eh E0) as (st1 & _ & Hall).
  rewrite Eo, <- app_assoc, Ecs in Hall.
  rewrite (Hall fuel Hf) in Er. rewrite (Hall fuel' Hf') in Er'.
  injection Er as <-. injection Er' as <-.
  rewrite Ec in Ec'. injection Ec' as <- <-. repeat split.
Qed.

(** X19. An offset appended behind the last code point of a line is never
    rendered: with or without it, [flush] writes the same chunks, logs the
    same and leaves the renderer in the same state. *)
Theorem flush_ignores_trailing_offset (r : Renderer M) (ops : list (op (M:=M))) (w : double) :
  let b := run_ops empty_buffer ops in
  exists f f',
    flush r b = Some f
    /\ flush r (append_offset b w) = Some f'
    /\ f_out f' = f_out f /\ f_log f' = f_log f /\ f_renderer f' = f_renderer f.
Proof.
  cbv zeta. pose proof (run_ops_inv ops empty_buffer empty_buffer_inv) as Hb.
  destruct (flush_ok r _ Hb) as (f & E & _).
  destruct (flush_ok r _ (append_offset_inv _ w Hb)) as (f' & E' & _).
  exists f, f'. split; [assumption|]. split; [assumption|].
  eapply flush_append_offset; eassumption.
Qed.

End TrailingOffsetClaims.

(** ** The element of the first state *)

Lemma begin_root_font (cur : State) :
  bound cur FONT_ID = true ->
  exists rest, fst (begin cur None)
               = SpanBegin :: class_token FONT_ID (ids_get (ids cur) FONT_ID) :: rest.
Proof.
  unfold FONT_ID. intros Hb. rewrite begin_span_tag. unfold class_list.
  cbn [seq ID_COUNT List.filter]. unfold emits at 1. rewrite Hb. cbn [andb negb map span_tag].
  eauto.
Qed.

Lemma stack_split_above (P : option nat -> Prop) (bottom : Stack) js popped stack1 :
  map Some js ++ bottom = popped ++ stack1 ->
  Forall P popped ->
  match head bottom with Some e => ~ P e | None => True end ->
  exists js1 js2, js = js1 ++ js2 /\ popped = map Some js1 /\ stack1 = map Some js2 ++ bottom.
Proof.
  intros E Hp Hb. revert popped E Hp. induction js as [|j js IH]; intros popped E Hp.
  - destruct popped as [|e popped].
    + exists [], []. cbn in *. auto.
    + exfalso. cbn in E. destruct bottom as [|e' bottom]; [discriminate|].
      injection E as -> _. apply Forall_cons in Hp. cbn in Hb. tauto.
  - destruct popped as [|e popped].
    + exists [], (j :: js). cbn in *. auto.
    + cbn in E. injection E as <- E. apply Forall_cons in Hp. destruct Hp as [_ Hp].
      destruct (IH popped E Hp) as (js1 & js2 & -> & -> & ->).
      exists (j :: js1), js2. auto.
Qed.

Section FirstElement.
Context {M : Type} {SM : StateManager M} {MU : MathUtil}.

(** The state boundary, spelled out. *)
Lemma state_boundary_detail (st st1 : Loop (M:=M)) :
  state_boundary st = Some st1 ->
  exists cur popped stack1 prev,
    l_states st !! l_cur_state_iter st = Some cur
    /\ l_stack st = popped ++ stack1
    /\ Forall (after_negative (l_states st) (l_last_text_pos_with_negative_offset st)) popped
    /\ (head stack1 = Some None -> prev = None)
    /\ st1 = mkLoop (l_renderer st)
               (<[l_cur_state_iter st := snd (begin cur prev)]> (l_states st))
               (l_out st ++ ends (l_states st) popped ++ fst (begin cur prev))
               (Some (l_cur_state_iter st) :: stack1)
               (S (l_cur_state_iter st)) (l_cur_offset_iter st) (l_dx st)
               (l_last_text_pos_with_negative_offset st) (l_cur_text_idx st).
Proof.
  unfold state_boundary. intros H.
  destruct (l_states st !! l_cur_state_iter st) as [cur|]; [|discriminate]. simpl in H.
  destruct (search _ _ _ _ _ _) as [[out1 stack1]|] eqn:Es; [|discriminate]. simpl in H.
  destruct (search_spec _ _ _ _ _ _ _ _ Es) as (popped & Ep & Hp & ->); [lia| |].
  { rewrite Nat.sub_diag. constructor. }
  destruct (head stack1) as [back|] eqn:Ehd; [|discriminate]. simpl in H.
  destruct (match back with Some j => _ | None => _ end) as [prev|] eqn:Eprev; [|discriminate].
  simpl in H. destruct (begin cur prev) as [out2 cur'] eqn:Eb. injection H as <-.
  exists cur, popped, stack1, prev. rewrite Eb.
  split; [reflexivity|]. split; [assumption|]. split; [assumption|]. split; [|reflexivity].
  intros Hh. rewrite Hh in Ehd. injection Ehd as <-. cbn in Eprev. congruence.
Qed.

(** A turn in its three steps. *)
Lemma loop_body_steps txt offs (st st' : Loop (M:=M)) :
  loop_body txt offs st = Some st' ->
  exists st1 st2,
    ((st1 = st /\ exists s, l_states st !! l_cur_state_iter st = Some s
                            /\ (l_cur_text_idx st < start_idx s)%nat)
     \/ state_boundary st = Some st1)
    /\ (st2 = st1 \/ exists o, offset_boundary st1 o = Some st2)
    /\ write_text txt offs st2 = Some st'.
Proof.
  rewrite loop_body_write_text. intros H.
  destruct (l_states st !! l_cur_state_iter st) as [s|] eqn:Es; [|discriminate].
  cbn [mbind option_bind] in H.
  destruct (if Nat.leb (start_idx s) (l_cur_text_idx st) then state_boundary st else Some st)
    as [st1|] eqn:E1; [|discriminate].
  cbn [mbind option_bind] in H.
  destruct (offs !! l_cur_offset_iter st1) as [o|]; [|discriminate].
  cbn [mbind option_bind] in H.
  destruct (if Nat.leb (o_start_idx o) (l_cur_text_idx st1) then offset_boundary st1 o
            else Some st1) as [st2|] eqn:E2; [|discriminate].
  cbn [mbind option_bind] in H.
  exists st1, st2. split; [|split; [|exact H]].
  - destruct (Nat.leb_spec (start_idx s) (l_cur_text_idx st)); [right; assumption|].
    left. split; [congruence|]. exists s. rewrite <- Es. auto.
  - destruct (Nat.leb (o_start_idx o) (l_cur_text_idx st1)); [right; eauto|left; congruence].
Qed.

Lemma write_text_fields txt offs (st2 st' : Loop (M:=M)) :
  write_text txt offs st2 = Some st' ->
  exists us, l_out st' = l_out st2 ++ [Unicodes us]
             /\ l_stack st' = l_stack st2 /\ l_states st' = l_states st2
             /\ l_cur_state_iter st' = l_cur_state_iter st2.
Proof.
  unfold write_text. intros H.
  destruct (l_states st2 !! l_cur_state_iter st2); [|discriminate]. cbn [mbind option_bind] in H.
  destruct (offs !! l_cur_offset_iter st2); [|discriminate]. cbn [mbind option_bind] in H.
  cbv zeta in H. destruct (decide _); [|discriminate]. injection H as <-. cbn. eauto.
Qed.

Lemma ends_bottom (sts : list State) js c0 :
  sts !! 0%nat = Some c0 -> need_close c0 = true ->
  ends sts (map Some js ++ [Some 0%nat; None]) = ends sts (map Some js) ++ [SpanEnd].
Proof.
  intros E0 Hn. rewrite ends_app. f_equal. cbn. rewrite E0. unfold end_. rewrite Hn. reflexivity.
Qed.

Lemma flush_first_element (r : Renderer M) b s0 f :
  buffer_inv b -> unmasked b -> flush r b = Some f -> text b <> [] ->
  head (states b) = Some s0 -> start_idx s0 = 0%nat ->
  exists lid hid bid tl body,
    f_out f = LineOpen (tm_id b) lid hid bid :: SpanBegin
              :: class_token FONT_ID (ids_get (ids s0) FONT_ID) :: tl
                 ++ body ++ [SpanEnd; LineEnd]
    /\ Forall (fun c => is_tag_part c = true) tl
    /\ depth 0 body = Some 0%nat.
Proof.
  intros Hbi Hu H Hne Eh Hz.
  destruct (flush_cases _ _ _ H)
    as [[Et _]|[(_ & Hh & ->)|(Et & (s0' & Eh' & E0) & fuel & st & oc & stk & Hf & Er & Ec & ->)]];
    [contradiction| |].
  { rewrite Eh in Hh. contradiction. }
  clear s0' Eh' E0. cbn [f_out].
  destruct (loop_start_inv r b s0 Hbi Eh Hz) as (Hp & Hf0 & Hpo & Hinv0).
  pose proof (flush_loop_inv r b s0 fuel st Hbi Eh Hz Hf Er) as Hinv.
  (* the first state after [optimize] and [hash] *)
  pose proof (optimize_ws_only r b) as Hws.
  destruct (loop_start_fields (fst (optimize r b)) (snd (optimize r b))) as (hm & lm & bm & E).
  destruct (optimize_style r b) as (_ & _ & _ & _ & _ & _ & Etm).
  destruct (states b) as [|s sts] eqn:Es; [discriminate|]. injection Eh as ->.
  apply Forall2_cons_inv_l in Hws. destruct Hws as (s0' & sts1 & [Es0 Hm] & _ & Es1).
  rewrite Es1, Etm in E.
  set (cur := hash s0').
  assert (Hcur : bound cur FONT_ID = true
                 /\ ids_get (ids cur) FONT_ID = ids_get (ids s0) FONT_ID
                 /\ start_idx cur = 0%nat).
  { unfold cur, hash, bound, is_set. cbn [hash_umask ids start_idx with_hash_value].
    rewrite (Hm FONT_ID) by discriminate.
    assert (H0 : hash_umask s0 = 0).
    { unfold unmasked in Hu. rewrite Es in Hu. apply Forall_cons in Hu. apply Hu. }
    rewrite H0, Z.land_0_l. rewrite Es0. cbn [ids start_idx].
    split; [reflexivity|]. split; [|assumption].
    destruct (ids s0). reflexivity. }
  destruct Hcur as (Hb & Hid & Hst).
  destruct (begin_root_font cur Hb) as [tl Etl]. rewrite Hid in Etl.
  pose proof (begin_out cur None) as Hbo.
  pose proof (begin_parts cur None) as [Hparts _].
  assert (Hnc : need_close (snd (begin cur None)) = true).
  { destruct (need_close (snd (begin cur None))); [reflexivity|].
    rewrite Hbo in Etl. discriminate. }
  rewrite Hnc in Hbo. destruct Hbo as (Ho1 & Hc1 & _).
  set (st0 := loop_start (fst (optimize r b)) (snd (optimize r b))) in *.
  set (pre := l_out st0 ++ fst (begin cur None)).
  assert (Hpre : count_opened pre = 2%nat /\ count_closed pre = 0%nat).
  { unfold pre. rewrite count_opened_app, count_closed_app, Ho1, Hc1, E. cbn. auto. }
  set (Inv := fun st : Loop (M:=M) =>
                exists js body c0,
                  l_out st = pre ++ body
                  /\ l_stack st = map Some js ++ [Some 0%nat; None]
                  /\ l_states st !! 0%nat = Some c0 /\ need_close c0 = true
                  /\ (0 < l_cur_state_iter st)%nat
                  /\ is_Some (depth 0 body)).
  (* what the invariants give on the depth *)
  assert (Hdepth : forall (st : Loop (M:=M)) js body c0 d,
            loop_inv (offsets b ++ [mkOffset (length (text b)) 0%float])
                     ((start_idx <$> s0 :: sts) ++ [length (text b)]) st ->
            l_out st = pre ++ body -> l_stack st = map Some js ++ [Some 0%nat; None] ->
            l_states st !! 0%nat = Some c0 -> need_close c0 = true ->
            depth 0 body = Some d ->
            d = count_closed (ends (l_states st) (map Some js))).
  { intros st1 js body c0 d Hi Eo Estk Ec0 Hn Hd.
    pose proof (inv_balance _ _ _ Hi) as Hbal.
    rewrite Eo, Estk, (ends_bottom _ _ _ Ec0 Hn), count_opened_app, !count_closed_app in Hbal.
    pose proof (depth_count _ _ _ Hd) as Hdc.
    change (count_closed [SpanEnd]) with 1%nat in Hbal. lia. }
  (* the steps that write without touching stack or states *)
  assert (Hgrow : forall (st1 st2 : Loop (M:=M)) more,
            Inv st1 -> l_out st2 = l_out st1 ++ more ->
            Forall (fun c => (closed c <= opened c)%nat) more ->
            l_stack st2 = l_stack st1 -> l_states st2 = l_states st1 ->
            l_cur_state_iter st2 = l_cur_state_iter st1 -> Inv st2).
  { intros st1 st2 more (js & body & c0 & Eo & Estk & Ec0 & Hn & Hi & [d Hd]) Eo2 Hm2 Es2 Est2 Ei2.
    exists js, (body ++ more), c0. rewrite Eo2, Eo, Es2, Est2, Ei2, <- app_assoc.
    repeat split; try assumption.
    rewrite depth_app, Hd. cbn [mbind option_bind]. apply depth_no_close. assumption. }
  assert (Hrest : forall (st1 st2 st' : Loop (M:=M)),
            Inv st1 -> (st2 = st1 \/ exists o, offset_boundary st1 o = Some st2) ->
            write_text (text b) (offsets b ++ [mkOffset (length (text b)) 0%float]) st2
            = Some st' ->
            Inv st').
  { intros st1 st2 st' HI Hoff Hw.
    assert (HI2 : Inv st2).
    { destruct Hoff as [->|[o Eb]]; [assumption|].
      destruct (offset_boundary_out _ _ _ Eb) as (gap & Eo & Hg & _ & Ei & _ & Est & Estk & _).
      apply (Hgrow st1 st2 gap); try assumption. apply no_close_gap. assumption. }
    destruct (write_text_fields _ _ _ _ Hw) as (us & Eo & Estk & Est & Ei).
    apply (Hgrow st2 st' [Unicodes us]); try assumption. repeat constructor. }
  assert (HP : (l_cur_state_iter st = 0%nat /\ l_cur_text_idx st = 0%nat /\ l_stack st = [None]
                /\ l_states st !! 0%nat = Some cur /\ l_out st = l_out st0)
               \/ Inv st).
  { refine (render_loop_keeps _ _ _ Hp Hf0 Hpo
              (fun st => (l_cur_state_iter st = 0%nat /\ l_cur_text_idx st = 0%nat
                          /\ l_stack st = [None] /\ l_states st !! 0%nat = Some cur
                          /\ l_out st = l_out st0) \/ Inv st)
              _ fuel st0 st Hinv0 _ Er).
    - intros st1 st' Hi1 HP1 _ Eb. right.
      destruct (loop_body_steps _ _ _ _ Eb) as (sa & sb & Hsa & Hsb & Hw).
      apply (Hrest sa sb st'); [|assumption|assumption].
      destruct HP1 as [(Ei & Ect & Estk & Ec0 & Eo)|HI].
      + (* the first turn *)
        destruct Hsa as [(-> & s1 & Es1' & Hlt)|Esb].
        { rewrite Ei, Ec0 in Es1'. injection Es1' as <-. lia. }
        destruct (state_boundary_detail _ _ Esb)
          as (cur1 & popped & stack1 & prev & Ec1 & Estk1 & Hpop & Hprev & ->).
        rewrite Ei, Ec0 in Ec1. injection Ec1 as <-.
        rewrite Estk in Estk1.
        destruct (stack_split_above _ [None] [] popped stack1 Estk1 Hpop)
          as (js1 & js2 & Ejs & -> & ->).
        { cbn. intros (j & ? & ? & _). discriminate. }
        destruct js1; [|discriminate]. destruct js2; [|discriminate].
        rewrite (Hprev eq_refl). rewrite Ei.
        exists [], [], (snd (begin cur None)). loop_fields. cbn [map app ends flat_map].
        rewrite Eo, app_nil_r.
        repeat split; try assumption; try lia; [|cbn; eauto].
        apply list_lookup_insert_eq. eapply lookup_lt_Some. exact Ec0.
      + (* a later turn *)
        destruct Hsa as [(-> & _)|Esb]; [assumption|].
        destruct HI as (js & body & c0 & Eo & Estk & Ec0 & Hn & Hpos & [d Hd]).
        pose proof (Hdepth _ _ _ _ _ Hi1 Eo Estk Ec0 Hn Hd) as Ed.
        destruct (state_boundary_detail _ _ Esb)
          as (cur1 & popped & stack1 & prev & Ec1 & Estk1 & Hpop & Hprev & ->).
        rewrite Estk in Estk1.
        destruct (stack_split_above _ [Some 0%nat; None] js popped stack1 Estk1 Hpop)
          as (js1 & js2 & -> & -> & ->).
        { cbn. intros (j & s1 & [= <-] & Ej & Hlt).
          pose proof (inv_starts _ _ _ Hi1) as Hs0.
          apply (f_equal (fun l => l !! 0%nat)) in Hs0.
          rewrite list_lookup_fmap, Ej in Hs0. cbn in Hs0. injection Hs0 as Hs0. lia. }
        exists (l_cur_state_iter st1 :: js2),
          (body ++ ends (l_states st1) (map Some js1) ++ fst (begin cur1 prev)), c0.
        loop_fields. rewrite Eo, <- !app_assoc.
        repeat split; try assumption; try lia.
        * rewrite list_lookup_insert_ne by lia. assumption.
        * rewrite map_app, ends_app, count_closed_app in Ed.
          rewrite depth_app, Hd. cbn [mbind option_bind].
          rewrite depth_app, (depth_span_end _ (ends_span_end _ _)) by lia.
          cbn [mbind option_bind]. apply depth_no_close, no_close_parts, begin_parts.
    - left. rewrite E. loop_fields. repeat split; reflexivity. }
  pose proof (render_loop_end _ _ _ _ _ Er) as Hend.
  destruct HP as [(_ & Ec0 & _)|(js & body & c0 & Eo & Estk & Ec0 & Hn & Hpos & [d Hd])].
  { destruct (text b); [contradiction|]. cbn [length] in Hend. lia. }
  pose proof (Hdepth _ _ _ _ _ Hinv Eo Estk Ec0 Hn Hd) as Ed.
  (* the final pops close what is on the stack *)
  unfold close_all in Ec.
  destruct (pop_until_spec _ _ _ _ _ Ec) as (popped & Estk1 & Hh & Hni & ->).
  rewrite Estk in Estk1.
  assert (Epop : popped = map Some js ++ [Some 0%nat]).
  { assert (Estk2 : map Some (js ++ [0%nat]) ++ [None] = popped ++ stk).
    { rewrite map_app, <- app_assoc. exact Estk1. }
    destruct (stack_split_above (fun e => e <> None) [None] _ popped stk Estk2)
      as (js1 & js2 & Ejs & -> & ->).
    - apply Forall_forall. intros e He ->. apply Hni. apply list_elem_of_In. assumption.
    - cbn. tauto.
    - destruct js2; [|discriminate]. rewrite app_nil_r in Ejs.
      rewrite <- Ejs, map_app. reflexivity. }
  rewrite Epop, ends_app. cbn [ends flat_map end_of]. rewrite Ec0. unfold end_. rewrite Hn.
  rewrite Eo. unfold pre. rewrite E. loop_fields. rewrite Etl.
  eexists _, _, _, tl, (body ++ ends (l_states st) (map Some js)).
  split; [cbn [app]; rewrite <- !app_assoc; reflexivity|].
  split.
  - rewrite Etl in Hparts. apply Forall_cons in Hparts. destruct Hparts as [_ Hparts].
    apply Forall_cons in Hparts. apply Hparts.
  - rewrite depth_app, Hd. cbn [mbind option_bind].
    rewrite (depth_span_end _ (ends_span_end _ _)) by lia. f_equal. lia.
Qed.

(** X20. Every line that [flush] renders lies inside the style element of its
    first state: behind the opening tag of the line comes an opening span
    tag whose first class name is that of the font of the first state, and
    this element is closed only by the last closing span tag, right before
    the closing tag of the line; what lies between is well nested by
    itself. *)
Theorem flush_first_element_encloses_line (r : Renderer M) (ops : list (op (M:=M)))
    (s0 : State) :
  let b := run_ops empty_buffer ops in
  text b <> [] -> head (states b) = Some s0 -> start_idx s0 = 0%nat ->
  exists f lid hid bid tl body,
    flush r b = Some f
    /\ f_out f = LineOpen (tm_id b) lid hid bid :: SpanBegin
                 :: class_token FONT_ID (ids_get (ids s0) FONT_ID) :: tl
                    ++ body ++ [SpanEnd; LineEnd]
    /\ Forall (fun c => is_tag_part c = true) tl
    /\ depth 0 body = Some 0%nat.
Proof.
  cbv zeta. intros Hne Eh E0.
  pose proof (run_ops_inv ops empty_buffer empty_buffer_inv) as Hb.
  destruct (flush_ok r _ Hb) as (f & E & _).
  destruct (flush_first_element r (run_ops empty_buffer ops) s0 f)
    as (lid & hid & bid & tl & body & Eo & Htl & Hd); try assumption.
  { apply run_ops_unmasked. constructor. }
  exists f, lid, hid, bid, tl, body. auto.
Qed.


End FirstElement.

(** ** The life cycle of the buffer *)

Section LifecycleClaims.
Context {M : Type} {SM : StateManager M} {MU : MathUtil}.

(** X1. On every buffer built by append calls, the positions of the offsets
    and those of the state segments are strictly increasing and at most the
    length of the text. *)
Theorem appends_keep_positions (ops : list (op (M:=M))) :
  buffer_inv (run_ops empty_buffer ops).
Proof. apply run_ops_inv, empty_buffer_inv. Qed.

(** X3. [flush] on a buffer whose positions increase strictly (every buffer
    built by appends, wherever [set_pos] has put its anchor), with text and a
    first segment at index 0, logs nothing and leaves the buffer with empty
    text, offsets and states, and with the anchor position and the transform
    id it had. *)
Theorem flush_clears_buffer (r : Renderer M) (b : TextLineBuffer) (s0 : State) :
  buffer_inv b -> text b <> [] -> head (states b) = Some s0 -> start_idx s0 = 0%nat ->
  exists f, flush r b = Some f
            /\ f_log f = []
            /\ f_buffer f = mkBuffer (x b) (y b) (tm_id b) [] [] [].
Proof.
  intros Hb Ht Eh E0.
  destruct (flush_run r b s0 Hb Ht Eh E0)
    as (offs' & starts & st0 & st & out_close & stack' & fuel & _ & _ & _ & _ & _ & _ & _ & _ & _
        & _ & _ & _ & _ & _ & ->).
  eexists. repeat split.
Qed.

End LifecycleClaims.

(** ** Concrete runs *)

(** C1 at concrete inputs, after the first character of a line: an offset of
    0.5 is dropped; an offset of 2.5, the advance of a space, is written as a
    space character; an offset of 4 is registered and becomes a gap element
    with a space inside; and the same offset is registered and nothing is
    written when the registry returns the offset 0 for it. *)
Lemma offset_boundary_resolution_witness :
  (exists st' emitted actual gaps,
     offset_boundary (st_gap rend) o_small = Some st'
     /\ l_out st' = l_out (st_gap rend) ++ emitted
     /\ l_dx st' = (0.5 - actual)%float
     /\ l_renderer st' = with_whitespace_manager rend gaps
     /\ l_states st' = l_states (st_gap rend)
     /\ l_stack st' = l_stack (st_gap rend)
     /\ emitted = [] /\ actual = 0%float /\ gaps = reg 0 0%float)
  /\ (exists st' emitted actual gaps,
        offset_boundary (st_gap rend) o_space = Some st'
        /\ l_out st' = l_out (st_gap rend) ++ emitted
        /\ l_dx st' = (2.5 - actual)%float
        /\ l_renderer st' = with_whitespace_manager rend gaps
        /\ l_states st' = l_states (st_gap rend)
        /\ l_stack st' = l_stack (st_gap rend)
        /\ emitted = [Unicodes [32]] /\ actual = (0 + 0 + 0.25 * 10)%float
        /\ gaps = reg 0 0%float)
  /\ (exists st' emitted actual gaps,
        offset_boundary (st_gap rend) o_gap = Some st'
        /\ l_out st' = l_out (st_gap rend) ++ emitted
        /\ l_dx st' = (4 - actual)%float
        /\ l_renderer st' = with_whitespace_manager rend gaps
        /\ l_states st' = l_states (st_gap rend)
        /\ l_stack st' = l_stack (st_gap rend)
        /\ actual = 4%float /\ gaps = mkRegistry 0 0%float 0.5%float [(4%float, 0)]
        /\ emitted = [Gap 0 true])
  /\ (exists st' emitted actual gaps,
        offset_boundary (st_gap rend_snap) o_gap = Some st'
        /\ l_out st' = l_out (st_gap rend_snap) ++ emitted
        /\ l_dx st' = (4 - actual)%float
        /\ l_renderer st' = with_whitespace_manager rend_snap gaps
        /\ l_states st' = l_states (st_gap rend_snap)
        /\ l_stack st' = l_stack (st_gap rend_snap)
        /\ actual = 0%float /\ gaps = mkRegistry 0 0%float 5%float [(0%float, 0)]
        /\ emitted = []).
Proof.
  split; [|split; [|split]].
  - exact (offset_boundary_resolution (st_gap rend) o_small (state_of ids1 0 0) eq_refl).
  - exact (offset_boundary_resolution (st_gap rend) o_space (state_of ids1 0 0) eq_refl).
  - exact (offset_boundary_resolution (st_gap rend) o_gap (state_of ids1 0 0) eq_refl).
  - exact (offset_boundary_resolution (st_gap rend_snap) o_gap (state_of ids1 0 0) eq_refl).
Defined.

(** C1 as stated fails: with a gap-width registry that snaps the target 4 to
    the offset 0, the third case applies and no gap element is written. *)
Lemma offset_boundary_without_gap :
  (abs (width o_gap + l_dx (st_gap rend_snap)) <=? h_eps (param rend_snap))%float = false
  /\ (abs (width o_gap + l_dx (st_gap rend_snap) - single_space_offset (state_of ids1 0 0))
        <=? h_eps (param rend_snap))%float = false
  /\ option_map l_out (offset_boundary (st_gap rend_snap) o_gap) = Some []
  /\ option_map l_dx (offset_boundary (st_gap rend_snap) o_gap) = Some 4%float.
Proof. repeat split. Qed.

(** C2 on scenario D: the widths 120, 120 and 85 qualify, 120 is selected,
    and 117.5 is installed in the word-space registry under the id 0. *)
Lemma optimize_infers_word_space_witness :
  qualifying_widths 0.125%float state_d 4 (offsets line_d) = [120%float; 120%float; 85%float]
  /\ group_widths [120%float; 120%float; 85%float] = [(85%float, 1); (120%float, 2)]
  /\ most_frequent (group_widths [120%float; 120%float; 85%float]) = 120%float
  /\ (120 - (0 + 0 + 0.25 * 10))%float = 117.5%float
  /\ optimize rend line_d
     = (with_word_space_manager rend (mkRegistry 6 0%float 0.5%float [(117.5%float, 0)]),
        mkBuffer 0%float 0%float 0 abcd (offsets line_d)
          [mkState (mkIds 1 2 3 4 5 0 7) 0 0 0 false font1 10%float 0%float 117.5%float])
  /\ (let '(s', registry') :=
        infer_segment 0.125%float abcd (offsets line_d) (reg 6 0%float) state_d 4 in
      bound s' WORD_SPACE_ID = true
      /\ (ids_get (ids s') WORD_SPACE_ID, word_space s', registry')
         = (0, 117.5%float, mkRegistry 6 0%float 0.5%float [(117.5%float, 0)])).
Proof.
  split; [reflexivity|]. split; [reflexivity|]. split; [reflexivity|]. split; [reflexivity|].
  assert (Hb : buffer_inv line_d) by (unfold line_d; apply run_ops_inv, empty_buffer_inv).
  split.
  - exact (proj1 (optimize_infers_word_space rend line_d Hb)).
  - exact (proj2 (optimize_infers_word_space rend line_d Hb) (reg 6 0%float) state_d 4%nat).
Defined.

(** C2 as stated fails: the only offset of the segment is narrower than the
    threshold 1.25, by less than [EPS], and the channel ends up bound. *)
Lemma optimize_binds_below_threshold :
  offsets line_below = [mkOffset 1 0x1.3ffff8p+0%float]
  /\ (0x1.3ffff8p+0 <? 10 * (0.75 - -0.25) * 0.125)%float = true
  /\ (0x1.3ffff8p+0 <? 10 * (0.75 - -0.25) * 0.125 - EPS)%float = false
  /\ spaceless (text line_below) 0 2 = true
  /\ states line_below = [state_d]
  /\ states (snd (optimize rend line_below))
     = [mkState (mkIds 1 2 3 4 5 0 7) 0 0 0 false font1 10%float 0%float
          (0x1.3ffff8p+0 - (0 + 0 + 0.25 * 10))%float]
  /\ option_map (fun s => bound s WORD_SPACE_ID) (head (states (snd (optimize rend line_below))))
     = Some true.
Proof. repeat split. Qed.

(** C3 at concrete inputs: an offset of -30 after the first character is
    registered and the index 1 is recorded; and on scenario E, where the state
    at index 0 matches the new state exactly and the index 3 is recorded, the
    scan stops at the element that starts at index 2 after popping the
    innermost one. *)
Lemma search_keeps_negative_offset_boundary_witness :
  l_cur_text_idx (st_gap rend) = 1%nat
  /\ l_last_text_pos_with_negative_offset (st_gap rend) = 0%nat
  /\ (exists st',
        offset_boundary (st_gap rend) o_back = Some st'
        /\ l_last_text_pos_with_negative_offset st' = 1%nat)
  /\ (exists st',
        state_boundary st_e = Some st'
        /\ diff cur_e (with_need_close (state_of ids1 0 0) true) = 0
        /\ l_stack st' = [Some 3%nat; Some 1%nat; Some 0%nat; None]
        /\ l_last_text_pos_with_negative_offset st' = 3%nat
           /\ exists cur prev popped kept,
                l_states st_e !! l_cur_state_iter st_e = Some cur
                /\ l_stack st_e = popped ++ kept
                /\ l_stack st' = Some (l_cur_state_iter st_e) :: kept
                /\ l_out st' = l_out st_e ++ ends (l_states st_e) popped ++ fst (begin cur prev)
                /\ Forall (after_negative (l_states st_e) 3) popped
                /\ (forall above j s below,
                      l_stack st_e = above ++ Some j :: below -> l_states st_e !! j = Some s ->
                      (start_idx s <= 3)%nat ->
                      exists above', kept = above' ++ Some j :: below)).
Proof.
  split; [reflexivity|]. split; [reflexivity|]. split.
  - exact (proj1 (search_keeps_negative_offset_boundary (st_gap rend)) o_back
             (state_of ids1 0 0) eq_refl).
  - eexists. split; [vm_compute; reflexivity|]. split; [reflexivity|]. split; [reflexivity|].
    pose proof (proj1 (proj2 (search_keeps_negative_offset_boundary st_e))) as H.
    specialize (H _ ltac:(vm_compute; reflexivity)). exact H.
Defined.

(** C3 as stated fails: the offset of -30 at index 4 is the advance of a
    space in the state that starts at index 2; it is written as a space
    character, its actual offset is negative, and no index is recorded. At
    the state boundary at index 5 the scan then closes the element that
    starts at index 2, to reach the exact match below it. *)
Lemma natural_space_hides_negative_offset :
  let r1 := fst (optimize rend line_neg) in
  let b1 := snd (optimize rend line_neg) in
  let offs := offsets b1 ++ [mkOffset (length (text b1)) 0%float] in
  map start_idx (states line_neg) = [0; 2; 5]%nat
  /\ offsets line_neg = [mkOffset 4 (-30)%float]
  /\ exists st2 cur st2' st3 st3',
       turns 2 (text b1) offs (loop_start r1 b1) = Some st2
       /\ l_cur_text_idx st2 = 4%nat
       /\ l_stack st2 = [Some 1%nat; Some 0%nat; None]
       /\ stack_back_state (l_states st2) (l_stack st2) = Some cur
       /\ start_idx cur = 2%nat
       /\ bound cur WORD_SPACE_ID = true
       /\ (word_space cur + letter_space cur
           + space_width (font_info cur) * draw_font_size cur)%float = (-30)%float
       /\ offset_boundary st2 (mkOffset 4 (-30)%float) = Some st2'
       /\ l_out st2' = l_out st2 ++ [Unicodes [32]]
       /\ l_dx st2' = (-30 - -30)%float
       /\ is_positive (- (-30))%float = true
       /\ l_last_text_pos_with_negative_offset st2' = 0%nat
       /\ turns 3 (text b1) offs (loop_start r1 b1) = Some st3
       /\ l_cur_text_idx st3 = 5%nat
       /\ l_stack st3 = [Some 1%nat; Some 0%nat; None]
       /\ state_boundary st3 = Some st3'
       /\ l_out st3' = l_out st3 ++ [SpanEnd]
       /\ l_stack st3' = [Some 2%nat; Some 0%nat; None]
       /\ option_map f_out (flush rend line_neg)
          = Some [LineOpen 0 0 0 0;
                  SpanBegin; ClassId 0 1; Sep; ClassId 1 2; Sep; ClassId 2 3; Sep; ClassId 3 4;
                  Sep; ClassId 4 5; Sep; ClassId 5 6; Sep; ClassId 6 7; SpanBeginEnd;
                  Unicodes [97; 32];
                  SpanBegin; ClassId 1 8; Sep; ClassId 5 9; SpanBeginEnd;
                  Unicodes [98; 32]; Unicodes [32]; Unicodes [99]; SpanEnd;
                  Unicodes [100; 32]; SpanEnd; LineEnd].
Proof.
  cbv zeta. split; [reflexivity|]. split; [reflexivity|].
  eexists _, _, _, _, _.
  split; [vm_compute; reflexivity|].
  split; [reflexivity|]. split; [reflexivity|].
  split; [vm_compute; reflexivity|].
  split; [reflexivity|]. split; [reflexivity|]. split; [vm_compute; reflexivity|].
  split; [vm_compute; reflexivity|].
  split; [reflexivity|]. split; [vm_compute; reflexivity|]. split; [reflexivity|].
  split; [reflexivity|].
  split; [vm_compute; reflexivity|].
  split; [reflexivity|]. split; [reflexivity|].
  split; [vm_compute; reflexivity|].
  split; [reflexivity|]. split; [reflexivity|].
  vm_compute. reflexivity.
Qed.

(** C4 on scenario C: a state with a free word-spacing channel under a parent
    that binds it writes nothing. *)
Lemma begin_channels_witness :
  let self := state_of ids1 word_space_umask 3 in
  let parent := self_bound_ws in
  fst (begin self (Some parent)) = []
  /\ channel_outcome self (Some parent) WORD_SPACE_ID
       (fst (begin self (Some parent))) (snd (begin self (Some parent))).
Proof.
  split; [reflexivity|].
  apply (proj1 (begin_channels (state_of ids1 word_space_umask 3) (Some self_bound_ws))).
  unfold WORD_SPACE_ID, ID_COUNT. lia.
Defined.

(** C4 as stated fails: under a parent that leaves word spacing free, a state
    that binds it writes its class name. *)
Lemma begin_emits_under_free_parent :
  bound self_bound_ws WORD_SPACE_ID = true
  /\ bound parent_free_ws WORD_SPACE_ID = false
  /\ fst (begin self_bound_ws (Some parent_free_ws)) = [SpanBegin; ClassId WORD_SPACE_ID 9; SpanBeginEnd]
  /\ need_close (snd (begin self_bound_ws (Some parent_free_ws))) = true.
Proof. repeat split. Qed.



(** [hash] packs channel 0 into the highest byte and channel 6 into the
    lowest, while [umask_by_id] numbers the bytes from the lowest: with word
    spacing free in one state, the key comparison leaves out the byte of the
    font size, and [diff] returns 0 on two states whose font sizes differ. *)
Lemma diff_masks_other_channel :
  let a := state_of ids1 word_space_umask 0 in
  let b := state_of (mkIds 1 3 3 4 5 6 7) 0 0 in
  bound a FONT_SIZE_ID = true /\ bound b FONT_SIZE_ID = true
  /\ ids_get (ids a) FONT_SIZE_ID = 2 /\ ids_get (ids b) FONT_SIZE_ID = 3
  /\ mismatches a b = 1 /\ diff a b = 0.
Proof. repeat split. Qed.

(** C6, a defect of the code. [flush] on a line with text and no style
    snapshot logs the warning and writes nothing, but returns before the
    buffer is cleared: the text stays, the snapshot of the next line opens
    at index 1, and the next line is dropped as well. *)
Theorem flush_without_style_keeps_text :
  flush rend no_style = Some (mkFlushed [] [TextWithoutStyle] rend no_style)
  /\ text no_style = [97]
  /\ flush rend (run_ops no_style next_line)
     = Some (mkFlushed [] [TextWithoutStyle] rend (run_ops no_style next_line))
  /\ text (run_ops no_style next_line) = [97; 98].
Proof. repeat split. Qed.

(** C8 as stated fails: a line with one segment is written with one style
    element inside the line wrapper. *)
Lemma flush_one_style_opens_a_span :
  option_map f_out (flush rend one_style)
  = Some [LineOpen 0 0 0 0;
          SpanBegin; ClassId 0 1; Sep; ClassId 1 2; Sep; ClassId 2 3; Sep; ClassId 3 4; Sep;
          ClassId 4 5; Sep; ClassId 6 7; SpanBeginEnd;
          Unicodes [97]; SpanEnd; LineEnd].
Proof. reflexivity. Qed.

(** C8 at a concrete input: two segments with the same snapshot. *)
Lemma flush_uniform_style_witness :
  exists f, flush rend (run_ops empty_buffer two_segments) = Some f
            /\ count_chunks is_line_open (f_out f) = 1%nat
            /\ count_chunks is_span_begin (f_out f) = 1%nat.
Proof.
  apply (flush_uniform_style rend two_segments state_d).
  - intros E. discriminate E.
  - reflexivity.
  - reflexivity.
  - intros s s' [<-|[<-|[]]] [<-|[<-|[]]]; split; reflexivity.
Defined.

(** C9 at concrete inputs: 3 then 4 at a fresh position, and 4 onto a record of 3. *)
Lemma append_offset_merges_witness :
  offsets (append_offset (append_offset no_style 3%float) 4%float) = [mkOffset 1 7%float]
  /\ offsets (append_offset one_offset 4%float) = [mkOffset 1 7%float].
Proof.
  split.
  - exact (proj1 (proj2 (append_offset_merges (M:=Registry) no_style 3%float 4%float)) I).
  - exact (proj1 (proj2 (proj2 (append_offset_merges (M:=Registry) one_offset 4%float 0%float)))
             [] (mkOffset 1 3%float) eq_refl eq_refl).
Defined.

(** C10 at a concrete input: two snapshots at index 0. *)
Lemma append_state_overwrites_witness :
  states (append_state rend12 (append_state rend empty_buffer)) = [set_state rend12 State_default]
  /\ states (append_state rend12 (append_state rend empty_buffer))
     = states (append_state rend12 empty_buffer).
Proof.
  split.
  - exact (proj1 (proj2 (append_state_overwrites rend12 rend (append_state rend empty_buffer)))
             [] state_d eq_refl eq_refl).
  - exact (f_equal states (proj1 (append_state_overwrites rend rend12 empty_buffer))).
Defined.

(** X3 at a concrete input: a line anchored at (3, 4) under the transform 9. *)
Lemma flush_clears_buffer_witness :
  x line_at = 3%float /\ y line_at = 4%float /\ tm_id line_at = 9
  /\ exists f, flush rend line_at = Some f
               /\ f_log f = []
               /\ f_buffer f = mkBuffer 3%float 4%float 9 [] [] [].
Proof.
  split; [reflexivity|]. split; [reflexivity|]. split; [reflexivity|].
  assert (Hb : buffer_inv line_at) by (unfold line_at; apply run_ops_inv; exact empty_buffer_inv).
  pose proof (flush_clears_buffer rend line_at state_d Hb) as H.
  specialize (H ltac:(intros E; discriminate E) eq_refl eq_refl). exact H.
Defined.

(** X2 at a concrete input: the line in three segments, flushed twice. *)
Lemma flush_twice_is_flush_once_witness :
  exists f, flush rend line_three = Some f
            /\ flush rend12 (f_buffer f) = Some (mkFlushed [] [] rend12 (f_buffer f)).
Proof.
  eexists. split; [vm_compute; reflexivity|].
  apply (flush_twice_is_flush_once rend rend12 line_three); [vm_compute; reflexivity|reflexivity].
Defined.

(** X4 at a concrete input: the line in three segments, whose text comes
    out with one blank put in. *)
Lemma flush_text_round_trip_witness :
  exists f, flush rend line_three = Some f
            /\ text line_three = [97; 98; 99; 100; 101; 32; 102]
            /\ literal (f_out f) = [97; 98; 32; 99; 100; 101; 32; 102]
            /\ padded (text line_three) (literal (f_out f)).
Proof.
  eexists. split; [vm_compute; reflexivity|].
  split; [reflexivity|]. split; [reflexivity|].
  apply (flush_text_round_trip rend line_three); [vm_compute; reflexivity|reflexivity].
Defined.

(** X5 at a concrete input: the wrapper of the line in three segments. *)
Lemma flush_line_wrapper_witness :
  exists f, flush rend line_three = Some f
            /\ exists body, f_out f = LineOpen 0 0 0 0 :: body ++ [LineEnd]
                            /\ Forall (fun c => is_line_tag c = false) body.
Proof.
  eexists. split; [vm_compute; reflexivity|].
  pose proof (flush_line_wrapper rend line_three) as H.
  specialize (H _ ltac:(vm_compute; reflexivity)).
  specialize (H ltac:(intros E; discriminate E)).
  exact (H eq_refl).
Defined.

(** X7 at a concrete input: the renderer after the line in three segments. *)
Lemma flush_keeps_style_registries_witness :
  exists f, flush rend line_three = Some f /\ style_of (f_renderer f) = style_of rend.
Proof.
  eexists. split; [vm_compute; reflexivity|].
  apply (flush_keeps_style_registries rend line_three). vm_compute. reflexivity.
Defined.

(** X9 at a concrete input: under the mask of the font channel lies the id
    of the rise channel. *)
Lemma hash_byte_order_witness :
  ids_get (ids state_d) FONT_ID = 1 /\ ids_get (ids state_d) RISE_ID = 7
  /\ Z.land (hash_value (hash state_d)) (umask_by_id FONT_ID) = 7
  /\ 0 <= hash_value (hash state_d) < 2 ^ 56.
Proof.
  split; [reflexivity|]. split; [reflexivity|].
  exact (hash_byte_order state_d FONT_ID ltac:(unfold ID_COUNT, FONT_ID; lia)).
Defined.

(** X16 at a concrete input: three open elements at costs 2, 1 and 0 from
    the top; the scan stops at the second, behind a negative offset at
    index 3, and pops only the first. *)
Lemma search_pops_worse_matches_witness :
  cost_of sts_e cur_e (Some 2%nat) = 2 /\ cost_of sts_e cur_e (Some 1%nat) = 1
  /\ exists popped, stack_e = popped ++ [Some 1%nat; Some 0%nat; None]
       /\ (popped = []
           \/ exists j s, head [Some 1%nat; Some 0%nat; None] = Some (Some j)
                /\ sts_e !! j = Some s
                /\ diff cur_e s < Z.of_nat ID_COUNT
                /\ Forall (fun e => diff cur_e s < cost_of sts_e cur_e e) popped).
Proof.
  split; [reflexivity|]. split; [reflexivity|].
  exact (search_pops_worse_matches sts_e cur_e 3 stack_e [SpanEnd] [Some 1%nat; Some 0%nat; None]
           ltac:(vm_compute; reflexivity)).
Defined.

(** X17 at a concrete input: the loop on the line in three segments. *)
Lemma render_loop_terminates_witness :
  exists st,
    l_cur_text_idx st = 7%nat
    /\ forall fuel, (7 <= fuel)%nat ->
         render_loop fuel (text line_three)
           (offsets line_three ++ [mkOffset (length (text line_three)) 0%float])
           (loop_start (fst (optimize rend line_three)) (snd (optimize rend line_three))) = Some st.
Proof.
  exact (render_loop_terminates rend three_segments state_d eq_refl eq_refl).
Defined.

(** X20 at a concrete input: the line in three segments, inside the element
    of its first state. *)
Lemma flush_first_element_encloses_line_witness :
  exists f lid hid bid tl body,
    flush rend line_three = Some f
    /\ f_out f = LineOpen (tm_id line_three) lid hid bid :: SpanBegin
                 :: class_token FONT_ID 1 :: tl ++ body ++ [SpanEnd; LineEnd]
    /\ Forall (fun c => is_tag_part c = true) tl
    /\ depth 0 body = Some 0%nat.
Proof.
  exact (flush_first_element_encloses_line rend three_segments state_d
           ltac:(intros E; discriminate E) eq_refl eq_refl).
Defined.
